(** * gpu_load_cl: an OpenCL load generator for Intel GPUs

    A shallow embedding of [src/gpu_load_cl/gpu_load_cl.cpp]:

    - [F32]: IEEE-754 binary32 arithmetic, the [float] of the kernel and
      of the host buffer, on the Standard Library's [spec_float];
    - [Kernel]: the OpenCL kernel [load_kernel] as one work item, and an
      ND-range dispatch as a sequence of work items;
    - [Host]: the seeding loop of the host buffer;
    - [CL]: the program's view of the OpenCL runtime (status codes and
      handles) given by a driver script;
    - [Runner]: [run_load_on_device] as a step function on program points;
    - [Proc]: [main], its worker threads and the process as a whole, one
      step of one thread at a time;
    - [Device], [Lifecycle], [Enumeration]: the buffer over the passes
      of the loop, the setup and the loop of a runner taken as a whole,
      and what the loop over the platforms finds. *)

From Stdlib Require Import ZArith Lia Floats.SpecFloat.
From stdpp Require Import base list strings pretty.

Open Scope Z_scope.

(** ** binary32 *)

Module F32.

Definition prec : Z := 24.
Definition emax : Z := 128.

Abbreviation float := spec_float (only parsing).

Definition add : float -> float -> float := SFadd prec emax.
Definition sub : float -> float -> float := SFsub prec emax.
Definition mul : float -> float -> float := SFmul prec emax.
Definition div : float -> float -> float := SFdiv prec emax.
Definition fabs : float -> float := SFabs.

(** [(float)n] for an integer [n]: round to nearest, ties to even. *)
Definition of_Z (n : Z) : float := binary_normalize prec emax n 0 false.

Definition zero : float := S754_zero false.
Definition one : float := S754_finite false 8388608 (-23).

(** The literals of the source, each the binary32 nearest to the decimal. *)
Definition c0_01 : float := S754_finite false 10737418 (-30).   (* 0.01f *)
Definition c0_001 : float := S754_finite false 8589935 (-33).   (* 0.001f *)
Definition c0_02 : float := S754_finite false 10737418 (-29).   (* 0.02f *)
Definition c0_002 : float := S754_finite false 8589935 (-32).   (* 0.002f *)
Definition c0_1 : float := S754_finite false 13421773 (-27).    (* 0.1f *)
Definition c1_0001 : float := S754_finite false 8389447 (-23).  (* 1.0001f *)

Definition is_finite (x : float) : bool :=
  match x with
  | S754_zero _ | S754_finite _ _ _ => true
  | S754_infinity _ | S754_nan => false
  end.

Definition is_nan (x : float) : bool :=
  match x with S754_nan => true | _ => false end.

Definition is_infinite (x : float) : bool :=
  match x with S754_infinity _ => true | _ => false end.

Definition valid (x : float) : bool := valid_binary prec emax x.

(** [|x| <= 1]. *)
Definition abs_le_one (x : float) : bool := SFleb (fabs x) one.

End F32.

(** ** The kernel *)

Module Kernel.
Import F32.

Section WithMath.

(** The OpenCL built-ins [sin] and [cos] on [float]. *)
Variables sinf cosf : float -> float.

(** One pass through the body of the [for] loop, lines 23 and 24. *)
Definition recurrence (id i : Z) (val : float) : float :=
  let val :=
    add (mul val (sinf (add (mul (of_Z id) c0_01) (mul (of_Z i) c0_001))))
        (cosf (sub (mul (of_Z id) c0_02) (mul (of_Z i) c0_002))) in
  div val (add c1_0001 (fabs val)).

(** [for (; i < ...; ++i)] with [n] passes left. *)
Fixpoint for_loop (n : nat) (id i : Z) (val : float) : float :=
  match n with
  | O => val
  | S n' => for_loop n' id (i + 1) (recurrence id i val)
  end.

(** [for (int i = 0; i < iters; ++i)]. *)
Definition kernel_value (iters : Z) (id : Z) (val : float) : float :=
  for_loop (Z.to_nat iters) id 0 val.

(** The work item whose [int id = get_global_id(0)] is [id], on the
    buffer [data] with the argument [count].  [None] is an access
    outside the buffer, which OpenCL leaves undefined. *)
Definition load_kernel_n (iters : Z) (data : list float) (count id : Z)
  : option (list float) :=
  if id <? count then
    if id <? 0 then None
    else
      match data !! Z.to_nat id with
      | Some val => Some (<[Z.to_nat id := kernel_value iters id val]> data)
      | None => None
      end
  else Some data.

Definition inner_iterations : Z := 1000.

Definition load_kernel : list float -> Z -> Z -> option (list float) :=
  load_kernel_n inner_iterations.

(** An ND-range dispatch: the work items run in the order [sched]. *)
Fixpoint dispatch_n (iters : Z) (data : list float) (count : Z) (sched : list Z)
  : option (list float) :=
  match sched with
  | [] => Some data
  | id :: rest =>
      match load_kernel_n iters data count id with
      | Some data' => dispatch_n iters data' count rest
      | None => None
      end
  end.

Definition dispatch : list float -> Z -> list Z -> option (list float) :=
  dispatch_n inner_iterations.

End WithMath.

End Kernel.

(** ** The host buffer *)

Module Host.
Import F32.

Definition dataSizeElements : Z := 1024 * 1024 * 8.

(** [static_cast<float>(i % 100) + 0.1f] *)
Definition seed (i : Z) : float := add (of_Z (i mod 100)) c0_1.

(** [for (; i < size; ++i) host_data[i] = ...] with [n] passes left. *)
Fixpoint fill_loop (n : nat) (i : Z) (host_data : list float) : list float :=
  match n with
  | O => host_data
  | S n' => fill_loop n' (i + 1) (<[Z.to_nat i := seed i]> host_data)
  end.

(** [std::vector<float> host_data(size)] and the loop of line 79. *)
Definition host_data_n (size : Z) : list float :=
  fill_loop (Z.to_nat size) 0 (replicate (Z.to_nat size) zero).

Definition host_data : list float := host_data_n dataSizeElements.

End Host.

(** ** The OpenCL runtime as the program sees it *)

Module CL.

Definition cl_int := Z.
Definition CL_SUCCESS : cl_int := 0.
Definition CL_DEVICE_NOT_FOUND : cl_int := -1.

Definition cl_platform_id := nat.
Definition cl_device_id := nat.

(** Contexts, queues, programs, kernels and buffers: the runtime hands
    out a new object at every successful [clCreate...] call. *)
Definition handle := nat.

Inductive stream := Cout | Cerr.
Definition line : Type := stream * string.

Global Instance stream_eq_dec : EqDecision stream.
Proof. solve_decision. Defined.

(** What the runtime answers to the calls made on one device. *)
Record DeviceDriver := {
  dd_name : string;                      (* CL_DEVICE_NAME *)
  dd_createContext : cl_int;
  dd_createCommandQueueWithProperties : cl_int;
  dd_createCommandQueue : cl_int;
  dd_createProgramWithSource : cl_int;
  dd_buildProgram : cl_int;
  dd_buildLog : string;                  (* CL_PROGRAM_BUILD_LOG *)
  dd_createKernel : cl_int;
  dd_createBuffer : cl_int;
  dd_setKernelArg0 : cl_int;
  dd_setKernelArg1 : cl_int;
  dd_enqueueNDRangeKernel : nat -> cl_int;  (* the k-th call, from 0 *)
  dd_finish : nat -> cl_int                 (* the k-th call, from 0 *)
}.

(** What the runtime answers to the calls made on one platform. *)
Record PlatformDriver := {
  pd_id : cl_platform_id;
  pd_vendor : string;                    (* CL_PLATFORM_VENDOR *)
  pd_deviceCount_err : cl_int;           (* clGetDeviceIDs(.., 0, nullptr, &n) *)
  pd_devices : list cl_device_id;        (* the GPU devices; n is their number *)
  pd_deviceList_err : cl_int             (* clGetDeviceIDs(.., n, data, nullptr) *)
}.

Record Driver := {
  drv_platformCount_err : cl_int;        (* clGetPlatformIDs(0, nullptr, &n) *)
  drv_platforms : list PlatformDriver;   (* n is their number *)
  drv_platformList_err : cl_int;         (* clGetPlatformIDs(n, data, nullptr) *)
  drv_device : cl_device_id -> DeviceDriver
}.

(** [check_cl_error]: [Some what] is the [std::runtime_error] it throws. *)
Definition check_cl_error (err : cl_int) (operation : string) : option string :=
  if err =? CL_SUCCESS then None
  else Some (operation +:+ " failed with error code " +:+ pretty err).

End CL.

(** ** [run_load_on_device] *)

Module Runner.
Import CL.

(** The program points of [run_load_on_device], one per runtime call. *)
Inductive Pc :=
| PcStart          (* lines 40-41 *)
| PcContext        (* lines 43-45 *)
| PcQueue          (* lines 49-54 *)
| PcProgram        (* lines 57-58 *)
| PcBuild          (* lines 62-70 *)
| PcKernel         (* lines 72-73 *)
| PcBuffer         (* lines 77-83 *)
| PcArg0           (* lines 85-86 *)
| PcArg1           (* lines 87-89 *)
| PcLoopEntry      (* lines 91-95 *)
| PcEnqueue        (* lines 97-102 *)
| PcFinish         (* lines 106-110 *)
| PcLoopExit       (* lines 115-121 *)
| PcReturned
| PcThrown (what : string).

Global Instance Pc_eq_dec : EqDecision Pc.
Proof. solve_decision. Defined.

Definition is_thrown (pc : Pc) : bool :=
  match pc with PcThrown _ => true | _ => false end.

Record Runner := {
  r_platform : cl_platform_id;
  r_device : cl_device_id;
  r_index : Z;                 (* device_index *)
  r_pc : Pc;
  r_context : option handle;
  r_queue : option handle;
  r_program : option handle;
  r_kernel : option handle;
  r_buffer : option handle;
  r_enqueued : nat;            (* accepted clEnqueueNDRangeKernel calls *)
  r_finished : nat             (* successful clFinish calls *)
}.

Global Instance Runner_eq_dec : EqDecision Runner.
Proof. solve_decision. Defined.

(** What the threads share: the output streams, and the runtime's
    supply of new objects. *)
Record World := {
  w_out : list line;
  w_next : handle
}.

Definition spawn (platform : cl_platform_id) (device : cl_device_id) (index : Z) : Runner :=
  {| r_platform := platform; r_device := device; r_index := index;
     r_pc := PcStart;
     r_context := None; r_queue := None; r_program := None;
     r_kernel := None; r_buffer := None;
     r_enqueued := 0; r_finished := 0 |}.

Definition print (l : line) (w : World) : World :=
  {| w_out := w_out w ++ [l]; w_next := w_next w |}.

Definition alloc (w : World) : World :=
  {| w_out := w_out w; w_next := S (w_next w) |}.

Definition goto (pc : Pc) (r : Runner) : Runner :=
  {| r_platform := r_platform r; r_device := r_device r; r_index := r_index r;
     r_pc := pc;
     r_context := r_context r; r_queue := r_queue r; r_program := r_program r;
     r_kernel := r_kernel r; r_buffer := r_buffer r;
     r_enqueued := r_enqueued r; r_finished := r_finished r |}.

Definition set_context (h : handle) (r : Runner) : Runner :=
  {| r_platform := r_platform r; r_device := r_device r; r_index := r_index r;
     r_pc := r_pc r;
     r_context := Some h; r_queue := r_queue r; r_program := r_program r;
     r_kernel := r_kernel r; r_buffer := r_buffer r;
     r_enqueued := r_enqueued r; r_finished := r_finished r |}.

Definition set_queue (h : handle) (r : Runner) : Runner :=
  {| r_platform := r_platform r; r_device := r_device r; r_index := r_index r;
     r_pc := r_pc r;
     r_context := r_context r; r_queue := Some h; r_program := r_program r;
     r_kernel := r_kernel r; r_buffer := r_buffer r;
     r_enqueued := r_enqueued r; r_finished := r_finished r |}.

Definition set_program (h : handle) (r : Runner) : Runner :=
  {| r_platform := r_platform r; r_device := r_device r; r_index := r_index r;
     r_pc := r_pc r;
     r_context := r_context r; r_queue := r_queue r; r_program := Some h;
     r_kernel := r_kernel r; r_buffer := r_buffer r;
     r_enqueued := r_enqueued r; r_finished := r_finished r |}.

Definition set_kernel (h : handle) (r : Runner) : Runner :=
  {| r_platform := r_platform r; r_device := r_device r; r_index := r_index r;
     r_pc := r_pc r;
     r_context := r_context r; r_queue := r_queue r; r_program := r_program r;
     r_kernel := Some h; r_buffer := r_buffer r;
     r_enqueued := r_enqueued r; r_finished := r_finished r |}.

Definition set_buffer (h : handle) (r : Runner) : Runner :=
  {| r_platform := r_platform r; r_device := r_device r; r_index := r_index r;
     r_pc := r_pc r;
     r_context := r_context r; r_queue := r_queue r; r_program := r_program r;
     r_kernel := r_kernel r; r_buffer := Some h;
     r_enqueued := r_enqueued r; r_finished := r_finished r |}.

Definition count_enqueue (r : Runner) : Runner :=
  {| r_platform := r_platform r; r_device := r_device r; r_index := r_index r;
     r_pc := r_pc r;
     r_context := r_context r; r_queue := r_queue r; r_program := r_program r;
     r_kernel := r_kernel r; r_buffer := r_buffer r;
     r_enqueued := S (r_enqueued r); r_finished := r_finished r |}.

Definition count_finish (r : Runner) : Runner :=
  {| r_platform := r_platform r; r_device := r_device r; r_index := r_index r;
     r_pc := r_pc r;
     r_context := r_context r; r_queue := r_queue r; r_program := r_program r;
     r_kernel := r_kernel r; r_buffer := r_buffer r;
     r_enqueued := r_enqueued r; r_finished := S (r_finished r) |}.

(** [check_cl_error(err, operation)] and what follows it. *)
Definition checked (err : cl_int) (operation : string)
    (next : World * Runner) (w : World) (r : Runner) : World * Runner :=
  match check_cl_error err operation with
  | Some what => (w, goto (PcThrown what) r)
  | None => next
  end.

Definition device_tag (r : Runner) : string := "Device " +:+ pretty (r_index r).

Definition fallback_notice (r : Runner) (err : cl_int) : line :=
  (Cout, device_tag r +:+ ": clCreateCommandQueueWithProperties failed ("
           +:+ pretty err +:+ "), trying clCreateCommandQueue.").

Definition build_log_line (r : Runner) (log : string) : line :=
  (Cerr, device_tag r +:+ " Kernel build log:" +:+ String (Ascii.ascii_of_nat 10) log).

Definition enqueue_failed_line (r : Runner) (err : cl_int) : line :=
  (Cerr, device_tag r +:+ ": clEnqueueNDRangeKernel failed: " +:+ pretty err).

Definition finish_failed_line (r : Runner) (err : cl_int) : line :=
  (Cerr, device_tag r +:+ ": clFinish failed: " +:+ pretty err).

(** One step of the thread running [run_load_on_device]. *)
Definition step (d : DeviceDriver) (w : World) (r : Runner) : World * Runner :=
  match r_pc r with
  | PcStart =>
      (print (Cout, "Starting load on Device " +:+ pretty (r_index r) +:+ ": " +:+ dd_name d) w,
       goto PcContext r)
  | PcContext =>
      checked (dd_createContext d) "clCreateContext"
        (alloc w, goto PcQueue (set_context (w_next w) r)) w r
  | PcQueue =>
      let err := dd_createCommandQueueWithProperties d in
      if err =? CL_SUCCESS then
        (alloc w, goto PcProgram (set_queue (w_next w) r))
      else
        let w := print (fallback_notice r err) w in
        checked (dd_createCommandQueue d) "clCreateCommandQueue(WithProperties)"
          (alloc w, goto PcProgram (set_queue (w_next w) r)) w r
  | PcProgram =>
      checked (dd_createProgramWithSource d) "clCreateProgramWithSource"
        (alloc w, goto PcBuild (set_program (w_next w) r)) w r
  | PcBuild =>
      let err := dd_buildProgram d in
      if err =? CL_SUCCESS then (w, goto PcKernel r)
      else
        let w := print (build_log_line r (dd_buildLog d)) w in
        checked err "clBuildProgram" (w, goto PcKernel r) w r
  | PcKernel =>
      checked (dd_createKernel d) "clCreateKernel"
        (alloc w, goto PcBuffer (set_kernel (w_next w) r)) w r
  | PcBuffer =>
      checked (dd_createBuffer d) "clCreateBuffer"
        (alloc w, goto PcArg0 (set_buffer (w_next w) r)) w r
  | PcArg0 =>
      checked (dd_setKernelArg0 d) "clSetKernelArg(buffer)" (w, goto PcArg1 r) w r
  | PcArg1 =>
      checked (dd_setKernelArg1 d) "clSetKernelArg(count)" (w, goto PcLoopEntry r) w r
  | PcLoopEntry =>
      (print (Cout, device_tag r +:+ ": Entering continuous kernel execution loop...") w,
       goto PcEnqueue r)
  | PcEnqueue =>
      let err := dd_enqueueNDRangeKernel d (r_enqueued r) in
      if err =? CL_SUCCESS then (w, goto PcFinish (count_enqueue r))
      else (print (enqueue_failed_line r err) w, goto PcLoopExit r)
  | PcFinish =>
      let err := dd_finish d (r_finished r) in
      if err =? CL_SUCCESS then (w, goto PcEnqueue (count_finish r))
      else (print (finish_failed_line r err) w, goto PcLoopExit r)
  | PcLoopExit =>
      (print (Cout, "Finished load and cleaned up for Device " +:+ pretty (r_index r))
         (print (Cout, device_tag r +:+ ": Exited kernel execution loop.") w),
       goto PcReturned r)
  | PcReturned => (w, r)
  | PcThrown _ => (w, r)
  end.

(** [n] steps of one runner on its own. *)
Fixpoint steps (d : DeviceDriver) (n : nat) (w : World) (r : Runner) : World * Runner :=
  match n with
  | O => (w, r)
  | S n' => let '(w', r') := step d w r in steps d n' w' r'
  end.

(** The runtime objects a runner holds. *)
Definition handles (r : Runner) : list handle :=
  option_list (r_context r)
  ++ option_list (r_queue r)
  ++ option_list (r_program r)
  ++ option_list (r_kernel r)
  ++ option_list (r_buffer r).

(** Every setup call but the two that create the queue succeeds. *)
Definition setup_calls_succeed (d : DeviceDriver) : Prop :=
  dd_createContext d = CL_SUCCESS /\
  dd_createProgramWithSource d = CL_SUCCESS /\
  dd_buildProgram d = CL_SUCCESS /\
  dd_createKernel d = CL_SUCCESS /\
  dd_createBuffer d = CL_SUCCESS /\
  dd_setKernelArg0 d = CL_SUCCESS /\
  dd_setKernelArg1 d = CL_SUCCESS.

(** The same device with a runtime that accepts
    [clCreateCommandQueueWithProperties]. *)
Definition with_modern_queue (d : DeviceDriver) : DeviceDriver :=
  {| dd_name := dd_name d;
     dd_createContext := dd_createContext d;
     dd_createCommandQueueWithProperties := CL_SUCCESS;
     dd_createCommandQueue := dd_createCommandQueue d;
     dd_createProgramWithSource := dd_createProgramWithSource d;
     dd_buildProgram := dd_buildProgram d;
     dd_buildLog := dd_buildLog d;
     dd_createKernel := dd_createKernel d;
     dd_createBuffer := dd_createBuffer d;
     dd_setKernelArg0 := dd_setKernelArg0 d;
     dd_setKernelArg1 := dd_setKernelArg1 d;
     dd_enqueueNDRangeKernel := dd_enqueueNDRangeKernel d;
     dd_finish := dd_finish d |}.

(** The runner at the head of its loop, after a setup without error
    that started with [w_next w] as the next new object. *)
Definition in_loop (platform : cl_platform_id) (device : cl_device_id) (index : Z)
    (w : World) : Runner :=
  {| r_platform := platform; r_device := device; r_index := index;
     r_pc := PcEnqueue;
     r_context := Some (w_next w);
     r_queue := Some (1 + w_next w)%nat;
     r_program := Some (2 + w_next w)%nat;
     r_kernel := Some (3 + w_next w)%nat;
     r_buffer := Some (4 + w_next w)%nat;
     r_enqueued := 0; r_finished := 0 |}.

Definition starting_line (d : DeviceDriver) (index : Z) : line :=
  (Cout, "Starting load on Device " +:+ pretty index +:+ ": " +:+ dd_name d).

Definition entering_line (index : Z) : line :=
  (Cout, "Device " +:+ pretty index +:+ ": Entering continuous kernel execution loop...").

(** [r] is [r0] after it left its loop. *)
Definition left_loop (r0 r : Runner) : Prop :=
  (r_pc r = PcLoopExit \/ r_pc r = PcReturned) /\
  r_enqueued r = r_enqueued r0 /\ r_finished r = r_finished r0.

End Runner.

(** ** [main] and the process *)

Module Proc.
Import CL Runner.

Abbreviation gpu := (cl_platform_id * cl_device_id)%type.

(** [std::string(s).find(needle) != std::string::npos] *)
Definition found_in (needle s : string) : bool :=
  match String.index 0 needle s with
  | Some _ => true
  | None => false
  end.

Definition vendor_matches (vendor : string) : bool :=
  found_in "Intel" vendor || found_in "intel" vendor.

Inductive outcome (A : Type) :=
| Ok (a : A)
| Throw (what : string).
Arguments Ok {A} a.
Arguments Throw {A} what.

Definition count_warning (p : PlatformDriver) : line :=
  (Cerr, "Warning: clGetDeviceIDs (count) for platform " +:+ pd_vendor p
           +:+ " returned " +:+ pretty (pd_deviceCount_err p)).

Definition say {A : Type} (l : line) (k : list line * A) : list line * A :=
  (l :: fst k, snd k).

(** The loop over the platforms, lines 138-166; [found] is
    [intel_gpus_with_platforms]. *)
Fixpoint enumerate_platforms (platforms : list PlatformDriver) (found : list gpu)
  : list line * outcome (list gpu) :=
  match platforms with
  | [] => ([], Ok found)
  | p :: rest =>
      if vendor_matches (pd_vendor p) then
        if pd_deviceCount_err p =? CL_DEVICE_NOT_FOUND then
          enumerate_platforms rest found
        else if negb (pd_deviceCount_err p =? CL_SUCCESS) then
          say (count_warning p) (enumerate_platforms rest found)
        else if (0 <? length (pd_devices p))%nat then
          match check_cl_error (pd_deviceList_err p) "clGetDeviceIDs (list)" with
          | Some what => ([], Throw what)
          | None =>
              enumerate_platforms rest
                (found ++ map (fun dev => (pd_id p, dev)) (pd_devices p))
          end
        else enumerate_platforms rest found
      else enumerate_platforms rest found
  end.

Definition no_platforms_line : line :=
  (Cerr, "Failed to find any OpenCL platforms or no platforms reported.").

Definition no_gpus_line : line := (Cerr, "No Intel GPUs found via OpenCL.").

Definition found_line (n : nat) : line :=
  (Cout, "Found " +:+ pretty n +:+ " Intel GPU(s) via OpenCL.").

Definition runtime_error_line (what : string) : line :=
  (Cerr, "OpenCL Runtime Error: " +:+ what).

(** What [main] does before it starts a thread, lines 126-173. *)
Inductive Setup :=
| Return (code : Z)
| Caught (what : string)      (* thrown inside the [try], line 189 *)
| Start (gpus : list gpu).

Definition setup (drv : Driver) : list line * Setup :=
  if negb (drv_platformCount_err drv =? CL_SUCCESS)
     || (length (drv_platforms drv) =? 0)%nat
  then ([no_platforms_line], Return 1)
  else
    match check_cl_error (drv_platformList_err drv) "clGetPlatformIDs" with
    | Some what => ([], Caught what)
    | None =>
        match enumerate_platforms (drv_platforms drv) [] with
        | (out, Throw what) => (out, Caught what)
        | (out, Ok []) => (out ++ [no_gpus_line], Return 1)
        | (out, Ok gpus) => (out ++ [found_line (length gpus)], Start gpus)
        end
    end.

Inductive MainPc :=
| MainSetup                               (* lines 126-173 *)
| MainSpawn (gpus : list gpu) (device_idx_counter : nat)   (* lines 175-182 *)
| MainJoin (k : nat)                      (* lines 184-188 *)
| MainReturned.

Inductive Status :=
| Running
| Exited (code : Z)          (* [main] returned *)
| Terminated.                (* [std::terminate]: an exception left a thread *)

Record Process := {
  p_main : MainPc;
  p_threads : list Runner;
  p_world : World;
  p_status : Status
}.

Definition boot : Process :=
  {| p_main := MainSetup; p_threads := [];
     p_world := {| w_out := []; w_next := 1%nat |};
     p_status := Running |}.

Inductive Thread := Main | Worker (i : nat).

Definition prints (ls : list line) (w : World) : World :=
  {| w_out := w_out w ++ ls; w_next := w_next w |}.

Definition main_step (drv : Driver) (p : Process) : Process :=
  match p_main p with
  | MainSetup =>
      match setup drv with
      | (out, Return code) =>
          {| p_main := MainReturned; p_threads := p_threads p;
             p_world := prints out (p_world p); p_status := Exited code |}
      | (out, Caught what) =>
          {| p_main := MainReturned; p_threads := p_threads p;
             p_world := prints (out ++ [runtime_error_line what]) (p_world p);
             p_status := Exited 1 |}
      | (out, Start gpus) =>
          {| p_main := MainSpawn gpus 0; p_threads := p_threads p;
             p_world := prints out (p_world p); p_status := Running |}
      end
  | MainSpawn gpus k =>
      match gpus !! k with
      | Some (platform, device) =>
          {| p_main := MainSpawn gpus (S k);
             p_threads := p_threads p ++ [spawn platform device (Z.of_nat k)];
             p_world := p_world p; p_status := Running |}
      | None =>
          {| p_main := MainJoin 0; p_threads := p_threads p;
             p_world := p_world p; p_status := Running |}
      end
  | MainJoin k =>
      match p_threads p !! k with
      | Some t =>
          if decide (r_pc t = PcReturned) then
            {| p_main := MainJoin (S k); p_threads := p_threads p;
               p_world := p_world p; p_status := Running |}
          else p                       (* [t.join()] blocks *)
      | None =>
          {| p_main := MainReturned; p_threads := p_threads p;
             p_world := p_world p; p_status := Exited 0 |}
      end
  | MainReturned => p
  end.

Definition worker_step (drv : Driver) (i : nat) (p : Process) : Process :=
  match p_threads p !! i with
  | Some r =>
      let '(w', r') := Runner.step (drv_device drv (r_device r)) (p_world p) r in
      {| p_main := p_main p;
         p_threads := <[i := r']> (p_threads p);
         p_world := w';
         p_status := if is_thrown (r_pc r') then Terminated else Running |}
  | None => p
  end.

(** One step of the process: the thread [t] runs, if the process is
    still there. *)
Definition step (drv : Driver) (p : Process) (t : Thread) : Process :=
  match p_status p with
  | Running =>
      match t with
      | Main => main_step drv p
      | Worker i => worker_step drv i p
      end
  | _ => p
  end.

Definition run (drv : Driver) (sched : list Thread) (p : Process) : Process :=
  fold_left (step drv) sched p.

(** The device a runner was started on. *)
Definition target (r : Runner) : gpu := (r_platform r, r_device r).

(** No object of the runtime is held by two threads. *)
Record separated (p : Process) : Prop := {
  sep_bound : forall i r h,
    p_threads p !! i = Some r -> h ∈ handles r -> (h < w_next (p_world p))%nat;
  sep_disjoint : forall i j ri rj h,
    i <> j -> p_threads p !! i = Some ri -> p_threads p !! j = Some rj ->
    h ∈ handles ri -> h ∉ handles rj
}.

(** The threads are the runners of the first [k] devices of [gpus], in
    order, each with its position as [device_index]. *)
Definition started (gpus : list gpu) (k : nat) (threads : list Runner) : Prop :=
  map target threads = take k gpus /\
  forall i r, threads !! i = Some r -> r_index r = Z.of_nat i.

(** [main] has left the loop of lines 177-182. *)
Definition spawning_done (pc : MainPc) : bool :=
  match pc with
  | MainJoin _ | MainReturned => true
  | MainSetup | MainSpawn _ _ => false
  end.

(** What [main] has started, once its setup has found [gpus]. *)
Definition main_inv (gpus : list gpu) (p : Process) : Prop :=
  match p_main p with
  | MainSetup => p_threads p = []
  | MainSpawn gs k =>
      gs = gpus /\ (k <= length gpus)%nat /\ started gpus k (p_threads p)
  | MainJoin _ | MainReturned => started gpus (length gpus) (p_threads p)
  end.

End Proc.

(** ** Runtimes to run the program on *)

Module Examples.
Import CL Proc.

Definition healthy : DeviceDriver :=
  {| dd_name := "Intel(R) UHD Graphics";
     dd_createContext := CL_SUCCESS;
     dd_createCommandQueueWithProperties := CL_SUCCESS;
     dd_createCommandQueue := CL_SUCCESS;
     dd_createProgramWithSource := CL_SUCCESS;
     dd_buildProgram := CL_SUCCESS;
     dd_buildLog := EmptyString;
     dd_createKernel := CL_SUCCESS;
     dd_createBuffer := CL_SUCCESS;
     dd_setKernelArg0 := CL_SUCCESS;
     dd_setKernelArg1 := CL_SUCCESS;
     dd_enqueueNDRangeKernel := fun _ => CL_SUCCESS;
     dd_finish := fun _ => CL_SUCCESS |}.

(** [clBuildProgram] answers [CL_BUILD_PROGRAM_FAILURE]. *)
Definition broken_build : DeviceDriver :=
  {| dd_name := "Intel(R) Arc(TM) Graphics";
     dd_createContext := CL_SUCCESS;
     dd_createCommandQueueWithProperties := CL_SUCCESS;
     dd_createCommandQueue := CL_SUCCESS;
     dd_createProgramWithSource := CL_SUCCESS;
     dd_buildProgram := -11;
     dd_buildLog := "error: unsupported option";
     dd_createKernel := CL_SUCCESS;
     dd_createBuffer := CL_SUCCESS;
     dd_setKernelArg0 := CL_SUCCESS;
     dd_setKernelArg1 := CL_SUCCESS;
     dd_enqueueNDRangeKernel := fun _ => CL_SUCCESS;
     dd_finish := fun _ => CL_SUCCESS |}.

(** An OpenCL 1.2 runtime: [clCreateCommandQueueWithProperties]
    answers [CL_INVALID_VALUE]. *)
Definition legacy_queue : DeviceDriver :=
  {| dd_name := "Intel(R) HD Graphics";
     dd_createContext := CL_SUCCESS;
     dd_createCommandQueueWithProperties := -30;
     dd_createCommandQueue := CL_SUCCESS;
     dd_createProgramWithSource := CL_SUCCESS;
     dd_buildProgram := CL_SUCCESS;
     dd_buildLog := EmptyString;
     dd_createKernel := CL_SUCCESS;
     dd_createBuffer := CL_SUCCESS;
     dd_setKernelArg0 := CL_SUCCESS;
     dd_setKernelArg1 := CL_SUCCESS;
     dd_enqueueNDRangeKernel := fun _ => CL_SUCCESS;
     dd_finish := fun _ => CL_SUCCESS |}.

(** A runtime that accepts every dispatch and whose first [clFinish]
    answers [CL_OUT_OF_RESOURCES]. *)
Definition failing_sync : DeviceDriver :=
  {| dd_name := "Intel(R) UHD Graphics";
     dd_createContext := CL_SUCCESS;
     dd_createCommandQueueWithProperties := CL_SUCCESS;
     dd_createCommandQueue := CL_SUCCESS;
     dd_createProgramWithSource := CL_SUCCESS;
     dd_buildProgram := CL_SUCCESS;
     dd_buildLog := EmptyString;
     dd_createKernel := CL_SUCCESS;
     dd_createBuffer := CL_SUCCESS;
     dd_setKernelArg0 := CL_SUCCESS;
     dd_setKernelArg1 := CL_SUCCESS;
     dd_enqueueNDRangeKernel := fun _ => CL_SUCCESS;
     dd_finish := fun _ => -5 |}.

Definition intel (id : cl_platform_id) (devices : list cl_device_id) : PlatformDriver :=
  {| pd_id := id; pd_vendor := "Intel(R) Corporation";
     pd_deviceCount_err := CL_SUCCESS; pd_devices := devices;
     pd_deviceList_err := CL_SUCCESS |}.

Definition machine (platforms : list PlatformDriver)
    (device : cl_device_id -> DeviceDriver) : Driver :=
  {| drv_platformCount_err := CL_SUCCESS; drv_platforms := platforms;
     drv_platformList_err := CL_SUCCESS; drv_device := device |}.

(** Two GPUs on one platform; the kernel does not build on device 0. *)
Definition two_gpus_one_broken : Driver :=
  machine [intel 7%nat [0; 1]%nat]
    (fun device => if decide (device = 0%nat) then broken_build else healthy).

(** One GPU, whose first [clFinish] fails. *)
Definition one_gpu_failing_sync : Driver :=
  machine [intel 7%nat [0%nat]] (fun _ => failing_sync).

(** One GPU behind an OpenCL 1.2 runtime. *)
Definition one_gpu_legacy_queue : Driver :=
  machine [intel 7%nat [0%nat]] (fun _ => legacy_queue).


(** An Intel platform whose query for the number of devices succeeds
    and whose query for the devices answers [CL_OUT_OF_RESOURCES]. *)
Definition failing_list : PlatformDriver :=
  {| pd_id := 7%nat; pd_vendor := "Intel(R) Corporation";
     pd_deviceCount_err := CL_SUCCESS; pd_devices := [0%nat];
     pd_deviceList_err := -5 |}.

(** An Intel platform whose query for the number of devices answers
    [CL_OUT_OF_HOST_MEMORY]. *)
Definition failing_count : PlatformDriver :=
  {| pd_id := 7%nat; pd_vendor := "Intel(R) Corporation";
     pd_deviceCount_err := -6; pd_devices := [0%nat];
     pd_deviceList_err := CL_SUCCESS |}.

Definition list_query_fails : Driver :=
  machine [failing_list; intel 8%nat [1%nat]] (fun _ => healthy).

Definition count_query_fails : Driver :=
  machine [failing_count; intel 8%nat [1%nat]] (fun _ => healthy).

(** The runner of device 0 about to build its program, while the runner
    of device 1 is in its loop. *)
Definition before_build : Process :=
  run two_gpus_one_broken
    ([Main; Main; Main] ++ replicate 12 (Worker 1) ++ replicate 4 (Worker 0)) boot.

(** Stand-ins for the built-ins [sin] and [cos]: the sine and the cosine
    of 0. *)
Definition sin0 (x : F32.float) : F32.float := F32.zero.

Definition cos0 (x : F32.float) : F32.float := F32.one.

End Examples.

(** ** Numbers of a floating-point format

    What the properties of the arithmetic are stated with, for a format
    of precision [prec] and largest exponent [emax]. *)

Module Format.

(** Where [N / D] lies between the integer below it and the next. *)
Definition loc_of (N D : Z) : location :=
  if N mod D =? 0 then loc_Exact else loc_Inexact (2 * (N mod D) ?= D).

(** [m * 2 ^ e] is a number of the format. *)
Definition Zbounded (prec emax m e : Z) : Prop :=
  fexp prec emax (Zdigits2 m + e) = e /\ e <= emax - prec.

(** The float of sign [s] and magnitude [m * 2 ^ e], [m >= 0]. *)
Definition float_of (s : bool) (m e : Z) : spec_float :=
  match m with
  | Z0 => S754_zero s
  | Zpos p => S754_finite s p e
  | Zneg _ => S754_nan
  end.

(** [N / D * 2 ^ e] is below the middle of the last number of the format
    under [2 ^ K] and [2 ^ K]. *)
Definition below (prec K N D e : Z) : Prop :=
  e <= K - prec /\ 2 * N < (2 ^ (prec + 1) - 1) * 2 ^ (K - prec - e) * D.

(** The same of [p * 2 ^ e]; [a] is an exponent at which both sides are
    integers. *)
Definition below_any (prec K p e : Z) : Prop :=
  exists a, a <= e /\ a <= K - prec /\
    2 * p * 2 ^ (e - a) < (2 ^ (prec + 1) - 1) * 2 ^ (K - prec - a).

(** [x] is zero or a number of the format below [2 ^ K] in magnitude. *)
Definition within (prec emax K : Z) (x : spec_float) : Prop :=
  match x with
  | S754_zero _ => True
  | S754_finite _ m e => bounded prec emax m e = true /\ Zpos (digits2_pos m) + e <= K
  | S754_infinity _ | S754_nan => False
  end.

(** [x] is at least [2 ^ k] in magnitude. *)
Definition at_least (k : Z) (x : spec_float) : Prop :=
  match x with
  | S754_finite _ m e => k < Zpos (digits2_pos m) + e
  | _ => False
  end.

(** [x] is a number of the format and at most 1 in magnitude. *)
Definition at_most_1 (prec emax : Z) (x : spec_float) : Prop :=
  match x with
  | S754_zero _ => True
  | S754_finite _ m e => bounded prec emax m e = true /\ e <= 0 /\ Zpos m <= 2 ^ (- e)
  | S754_infinity _ | S754_nan => False
  end.

End Format.

(** ** The order and the integers of a format *)

Module Order.

(** [m1 * 2 ^ e1 <= m2 * 2 ^ e2]. *)
Definition value_le (m1 e1 m2 e2 : Z) : Prop :=
  m1 * 2 ^ (e1 - Z.min e1 e2) <= m2 * 2 ^ (e2 - Z.min e1 e2).

(** The integer that a float is, when it is one. *)
Definition int_value (x : spec_float) : option Z :=
  match x with
  | S754_zero _ => Some 0
  | S754_finite s m e =>
      if 0 <=? e then Some (cond_Zopp s (Zpos m * 2 ^ e))
      else if Zpos m mod 2 ^ (- e) =? 0 then Some (cond_Zopp s (Zpos m / 2 ^ (- e)))
      else None
  | S754_infinity _ | S754_nan => None
  end.

End Order.

(** ** The buffer on the device *)

Module Device.
Import F32 Kernel Host.

(** The global ids of a one-dimensional ND range of [global_work_size]
    work items. *)
Definition work_items (global_work_size : Z) : list Z :=
  map Z.of_nat (seq 0 (Z.to_nat global_work_size)).

Section WithMath.
Variables sinf cosf : float -> float.

(** The buffer after the passes of the loop of lines 96-113 that the
    runtime accepted: each pass runs the kernel over the buffer and
    waits for it; [scheds] is the order of the work items of each
    pass. *)
Fixpoint loop_buffer (count : Z) (scheds : list (list Z)) (data : list float)
  : option (list float) :=
  match scheds with
  | [] => Some data
  | sched :: rest =>
      match dispatch sinf cosf data count sched with
      | Some data' => loop_buffer count rest data'
      | None => None
      end
  end.

End WithMath.
End Device.

(** ** The life of a runner and of the process *)

Module Lifecycle.
Import CL Runner Proc.

(** The status code that line 54 checks: that of
    [clCreateCommandQueueWithProperties], or after the fallback that of
    [clCreateCommandQueue]. *)
Definition queue_err (d : DeviceDriver) : cl_int :=
  let err := dd_createCommandQueueWithProperties d in
  if err =? CL_SUCCESS then err else dd_createCommandQueue d.

(** The exception that ends the setup of lines 44-89, that of the first
    call that fails; [None] when the runner gets to its loop. *)
Definition setup_error (d : DeviceDriver) : option string :=
  check_cl_error (dd_createContext d) "clCreateContext"
  ∪ check_cl_error (queue_err d) "clCreateCommandQueue(WithProperties)"
  ∪ check_cl_error (dd_createProgramWithSource d) "clCreateProgramWithSource"
  ∪ check_cl_error (dd_buildProgram d) "clBuildProgram"
  ∪ check_cl_error (dd_createKernel d) "clCreateKernel"
  ∪ check_cl_error (dd_createBuffer d) "clCreateBuffer"
  ∪ check_cl_error (dd_setKernelArg0 d) "clSetKernelArg(buffer)"
  ∪ check_cl_error (dd_setKernelArg1 d) "clSetKernelArg(count)".


(** The program points of the loop and after it. *)
Definition past_setup (pc : Pc) : bool :=
  match pc with
  | PcEnqueue | PcFinish | PcLoopExit | PcReturned => true
  | _ => false
  end.

(** The dispatches a runner has made, by program point: one enqueued
    and not yet waited for at line 106, none outstanding at line 97. *)
Definition counts_inv (r : Runner) : Prop :=
  match r_pc r with
  | PcEnqueue => r_enqueued r = r_finished r
  | PcFinish => r_enqueued r = S (r_finished r)
  | PcLoopExit | PcReturned =>
      r_enqueued r = r_finished r \/ r_enqueued r = S (r_finished r)
  | _ => r_enqueued r = 0%nat /\ r_finished r = 0%nat
  end.

(** How many of context, queue, program, kernel and buffer were created
    before a program point; an exception can come at several. *)
Definition created (pc : Pc) : option nat :=
  match pc with
  | PcStart | PcContext => Some 0%nat
  | PcQueue => Some 1%nat
  | PcProgram => Some 2%nat
  | PcBuild | PcKernel => Some 3%nat
  | PcBuffer => Some 4%nat
  | PcArg0 | PcArg1 | PcLoopEntry | PcEnqueue | PcFinish | PcLoopExit | PcReturned =>
      Some 5%nat
  | PcThrown _ => None
  end.

(** The runner holds the first [n] of the five objects and no other. *)
Definition holds_first (n : nat) (r : Runner) : Prop :=
  (is_Some (r_context r) <-> (1 <= n)%nat) /\
  (is_Some (r_queue r) <-> (2 <= n)%nat) /\
  (is_Some (r_program r) <-> (3 <= n)%nat) /\
  (is_Some (r_kernel r) <-> (4 <= n)%nat) /\
  (is_Some (r_buffer r) <-> (5 <= n)%nat).

(** [run_load_on_device] has returned. *)
Definition returned (r : Runner) : Prop := r_pc r = PcReturned.

Global Instance Thread_eq_dec : EqDecision Thread.
Proof. solve_decision. Defined.

(** The objects of a runner at a program point, all different and all
    handed out before. *)
Definition objects_inv (w : World) (r : Runner) : Prop :=
  NoDup (handles r) /\
  (forall h, h ∈ handles r -> (h < w_next w)%nat) /\
  forall n, created (r_pc r) = Some n -> holds_first n r.

(** Where [main] is, what it has seen of its threads. *)
Definition exit_inv (drv : Driver) (p : Process) : Prop :=
  match p_main p with
  | MainSetup => p_threads p = [] /\ p_status p = Running
  | MainSpawn gpus _ =>
      (exists out, setup drv = (out, Start gpus)) /\ main_inv gpus p /\
      forall code, p_status p <> Exited code
  | MainJoin k =>
      (exists out gpus, setup drv = (out, Start gpus) /\ main_inv gpus p) /\
      Forall returned (take k (p_threads p)) /\
      forall code, p_status p <> Exited code
  | MainReturned =>
      (p_status p = Exited 1 /\ p_threads p = [] /\
       forall out gpus, setup drv <> (out, Start gpus)) \/
      (p_status p = Exited 0 /\ Forall returned (p_threads p) /\
       exists out gpus, setup drv = (out, Start gpus) /\ main_inv gpus p)
  end.

(** Either no thread has thrown, or the process was terminated by the
    one that has. *)
Definition thrown_inv (p : Process) : Prop :=
  (p_status p <> Terminated /\ Forall (fun r => is_thrown (r_pc r) = false) (p_threads p)) \/
  (p_status p = Terminated /\
   exists i r, p_threads p !! i = Some r /\ is_thrown (r_pc r) = true /\
     forall j rj, p_threads p !! j = Some rj -> is_thrown (r_pc rj) = true -> j = i).

(** A runtime that accepts every call made on a device. *)
Definition always_accepts (d : DeviceDriver) : Prop :=
  setup_error d = None /\
  forall k, dd_enqueueNDRangeKernel d k = CL_SUCCESS /\ dd_finish d k = CL_SUCCESS.

(** The program points of the setup and of the loop. *)
Definition at_work (pc : Pc) : bool :=
  match pc with
  | PcLoopExit | PcReturned | PcThrown _ => false
  | _ => true
  end.

End Lifecycle.

(** ** What the enumeration finds *)

Module Enumeration.
Import CL Proc.

(** A platform of the vendor whose devices were counted. *)
Definition usable (p : PlatformDriver) : bool :=
  vendor_matches (pd_vendor p) && (pd_deviceCount_err p =? CL_SUCCESS).

(** A platform of the vendor whose count failed with a warning. *)
Definition warned (p : PlatformDriver) : bool :=
  vendor_matches (pd_vendor p)
  && negb (pd_deviceCount_err p =? CL_DEVICE_NOT_FOUND)
  && negb (pd_deviceCount_err p =? CL_SUCCESS).

(** The pairs that lines 161-163 push for a platform. *)
Definition gpus_of (p : PlatformDriver) : list gpu :=
  map (fun dev => (pd_id p, dev)) (pd_devices p).

(** The listing of the devices of a platform is reached and fails. *)
Definition list_fails (p : PlatformDriver) : bool :=
  usable p && (0 <? length (pd_devices p))%nat
  && negb (pd_deviceList_err p =? CL_SUCCESS).

End Enumeration.

(** ** More runtimes and states *)

Module Scenarios.
Import CL Runner Proc Examples.


(** One healthy GPU. *)
Definition one_gpu : Driver := machine [intel 7%nat [0%nat]] (fun _ => healthy).

(** The process of [one_gpu] with its runner waiting in [clFinish] for
    its second dispatch. *)
Definition second_wait : list Thread :=
  [Main; Main; Main] ++ replicate 13 (Worker 0).

(** Its runner in that state. *)
Definition waiting_runner : Runner :=
  {| r_platform := 7%nat; r_device := 0%nat; r_index := 0; r_pc := PcFinish;
     r_context := Some 1%nat; r_queue := Some 2%nat; r_program := Some 3%nat;
     r_kernel := Some 4%nat; r_buffer := Some 5%nat;
     r_enqueued := 2%nat; r_finished := 1%nat |}.

(** The run of [one_gpu_failing_sync] to its end. *)
Definition to_the_end : list Thread :=
  [Main; Main; Main] ++ replicate 13 (Worker 0) ++ [Main; Main].

(** The run of [two_gpus_one_broken] in which the runner of device 0
    fails to build its program while that of device 1 is in its loop. *)
Definition build_fails : list Thread :=
  [Main; Main; Main] ++ replicate 12 (Worker 1) ++ replicate 5 (Worker 0).

(** The run of [two_gpus_one_broken] in which the runner of device 0
    comes to build its program while [main] waits, at line 181, to
    start the runner of device 1. *)
Definition early_build : list Thread :=
  [Main; Main] ++ replicate 4 (Worker 0).

(** Three platforms: one of Intel's whose count fails, one of Intel's
    with two GPUs, and one of another vendor, which is not looked at. *)
Definition three_platforms : list PlatformDriver :=
  [failing_count; intel 8%nat [1; 2]%nat;
   {| pd_id := 9%nat; pd_vendor := "NVIDIA Corporation";
      pd_deviceCount_err := -5; pd_devices := [3%nat];
      pd_deviceList_err := -5 |}].

End Scenarios.

(** * Properties *)

(** ** The kernel and the host buffer *)

Module KernelFacts.
Import F32 Kernel.

Section WithMath.
Variables sinf cosf : float -> float.

Local Abbreviation item := (load_kernel_n sinf cosf).
Local Abbreviation value := (kernel_value sinf cosf).

(** In range, the work item replaces its own element. *)
Lemma load_kernel_in_range iters (data : list float) count id val :
  0 <= id < count -> data !! Z.to_nat id = Some val ->
  item iters data count id = Some (<[Z.to_nat id := value iters id val]> data).
Proof.
  intros [Hlo Hhi] Hval. unfold load_kernel_n.
  destruct (Z.ltb_spec id count); [|lia].
  destruct (Z.ltb_spec id 0); [lia|].
  by rewrite Hval.
Qed.

Lemma load_kernel_guard iters (data : list float) count id :
  count <= id -> item iters data count id = Some data.
Proof.
  intros Hge. unfold load_kernel_n.
  destruct (Z.ltb_spec id count); [lia|done].
Qed.

(** Whatever a work item returns, it is the buffer with at most the
    item's own element replaced. *)
Lemma load_kernel_inv iters (data out : list float) count id :
  item iters data count id = Some out ->
  out = data \/
  exists val, 0 <= id < count /\ data !! Z.to_nat id = Some val /\
              out = <[Z.to_nat id := value iters id val]> data.
Proof.
  unfold load_kernel_n.
  destruct (Z.ltb_spec id count) as [Hlt|Hge]; [|intros [= <-]; by left].
  destruct (Z.ltb_spec id 0) as [Hneg|Hpos]; [done|].
  destruct (data !! Z.to_nat id) as [val|] eqn:Hval; [|done].
  intros [= <-]. right. exists val. repeat split; auto.
Qed.

Lemma load_kernel_length iters (data out : list float) count id :
  item iters data count id = Some out -> length out = length data.
Proof.
  intros H. apply load_kernel_inv in H as [->|(val & _ & _ & ->)]; [done|].
  apply length_insert.
Qed.

Lemma load_kernel_frame iters (data out : list float) count id (j : nat) :
  item iters data count id = Some out -> Z.of_nat j <> id -> out !! j = data !! j.
Proof.
  intros H Hne. apply load_kernel_inv in H as [->|(val & Hid & _ & ->)]; [done|].
  apply list_lookup_insert_ne. lia.
Qed.

Lemma load_kernel_own iters (data out : list float) count id val :
  id < count -> data !! Z.to_nat id = Some val ->
  item iters data count id = Some out ->
  0 <= id /\ out !! Z.to_nat id = Some (value iters id val).
Proof.
  intros Hlt Hval H. unfold load_kernel_n in H.
  destruct (Z.ltb_spec id count); [|lia].
  destruct (Z.ltb_spec id 0); [done|].
  rewrite Hval in H. injection H as <-. split; [done|].
  apply list_lookup_insert_eq. by eapply lookup_lt_Some.
Qed.

Lemma load_kernel_undefined iters (data : list float) count id :
  id < count -> id < 0 \/ data !! Z.to_nat id = None ->
  item iters data count id = None.
Proof.
  intros Hlt Hout. unfold load_kernel_n.
  destruct (Z.ltb_spec id count); [|lia].
  destruct (Z.ltb_spec id 0); [done|].
  destruct Hout as [? | ->]; [lia|done].
Qed.

(** Two work items commute, whichever elements they touch. *)
Lemma load_kernel_swap iters (data : list float) count a b :
  item iters data count a ≫= (fun d => item iters d count b)
  = item iters data count b ≫= (fun d => item iters d count a).
Proof.
  destruct (decide (a = b)) as [->|Hab]; [done|].
  destruct (Z.lt_ge_cases a count) as [Ha|Ha].
  2:{ rewrite (load_kernel_guard _ data count a) by done. simpl.
      destruct (item iters data count b); simpl; [|done].
      by rewrite load_kernel_guard. }
  destruct (Z.lt_ge_cases b count) as [Hb|Hb].
  2:{ rewrite (load_kernel_guard _ data count b) by done. simpl.
      destruct (item iters data count a); simpl; [|done].
      by rewrite load_kernel_guard. }
  destruct (Z.lt_ge_cases a 0) as [Ha0|Ha0].
  { rewrite (load_kernel_undefined _ data count a) by auto. simpl.
    destruct (item iters data count b); simpl; [|done].
    by rewrite load_kernel_undefined by auto. }
  destruct (Z.lt_ge_cases b 0) as [Hb0|Hb0].
  { rewrite (load_kernel_undefined _ data count b) by auto. simpl.
    destruct (item iters data count a); simpl; [|done].
    by rewrite load_kernel_undefined by auto. }
  assert (Hne : Z.to_nat a <> Z.to_nat b) by lia.
  destruct (data !! Z.to_nat a) as [va|] eqn:Hva.
  2:{ rewrite (load_kernel_undefined _ data count a) by auto. simpl.
      destruct (item iters data count b) as [d|] eqn:Hd; simpl; [|done].
      rewrite load_kernel_undefined; [done | lia | ]. right.
      by rewrite (load_kernel_frame _ _ _ _ _ _ Hd) by lia. }
  destruct (data !! Z.to_nat b) as [vb|] eqn:Hvb.
  2:{ rewrite (load_kernel_undefined _ data count b) by auto. simpl.
      destruct (item iters data count a) as [d|] eqn:Hd; simpl; [|done].
      rewrite load_kernel_undefined; [done | lia | ]. right.
      by rewrite (load_kernel_frame _ _ _ _ _ _ Hd) by lia. }
  rewrite (load_kernel_in_range _ data count a va),
          (load_kernel_in_range _ data count b vb) by auto. simpl.
  rewrite (load_kernel_in_range _ _ count b vb), (load_kernel_in_range _ _ count a va);
    rewrite ?list_lookup_insert_ne by done; auto.
  f_equal. by apply list_insert_insert_ne.
Qed.

Local Abbreviation run := (dispatch_n sinf cosf).

Lemma dispatch_cons iters (data : list float) count id rest :
  run iters data count (id :: rest)
  = item iters data count id ≫= (fun d => run iters d count rest).
Proof. simpl. by destruct (item iters data count id). Qed.

Lemma dispatch_perm iters count (s1 s2 : list Z) :
  s1 ≡ₚ s2 -> forall data : list float, run iters data count s1 = run iters data count s2.
Proof.
  induction 1 as [|x s1 s2 _ IH|x y s|s1 s2 s3 _ IH1 _ IH2]; intros data.
  - done.
  - rewrite !dispatch_cons. destruct (item iters data count x); simpl; auto.
  - pose proof (load_kernel_swap iters data count y x) as Hswap. simpl.
    destruct (item iters data count y) as [dy|],
             (item iters data count x) as [dx|]; simpl in Hswap.
    + rewrite Hswap. by destruct (item iters dx count y).
    + by rewrite Hswap.
    + by rewrite <- Hswap.
    + done.
  - by rewrite IH1.
Qed.

(** C10. Each work item writes only its own buffer element: past the
    guard [id < count] the buffer is returned as it is; otherwise the
    length and every element but [id] are kept, the element [id]
    becomes the recurrence's value on the old element [id] and on
    [id], and two buffers that agree at [id] give the same element
    [id]. *)
Theorem load_kernel_writes_own_element (data : list float) (count id : Z) :
  (count <= id -> load_kernel sinf cosf data count id = Some data) /\
  (forall out, load_kernel sinf cosf data count id = Some out ->
     length out = length data /\
     forall j : nat, Z.of_nat j <> id -> out !! j = data !! j) /\
  (forall val, 0 <= id < count -> data !! Z.to_nat id = Some val ->
     load_kernel sinf cosf data count id
     = Some (<[Z.to_nat id := kernel_value sinf cosf inner_iterations id val]> data)) /\
  (forall (data' out out' : list float),
     data' !! Z.to_nat id = data !! Z.to_nat id ->
     load_kernel sinf cosf data count id = Some out ->
     load_kernel sinf cosf data' count id = Some out' ->
     out' !! Z.to_nat id = out !! Z.to_nat id).
Proof.
  unfold load_kernel. split; [apply load_kernel_guard|].
  split.
  { intros out Hout. split; [by eapply load_kernel_length|].
    intros j Hj. by eapply load_kernel_frame. }
  split; [intros val; apply load_kernel_in_range|].
  intros data' out out' Hsame Hout Hout'.
  destruct (Z.lt_ge_cases id count) as [Hlt|Hge].
  - unfold load_kernel_n in Hout, Hout'.
    destruct (Z.ltb_spec id count); [|lia].
    destruct (Z.ltb_spec id 0); [done|].
    destruct (data' !! Z.to_nat id) as [val|] eqn:Hval'; [|done].
    rewrite <- Hsame in Hout. injection Hout as <-. injection Hout' as <-.
    rewrite !list_lookup_insert_eq; [done|..].
    + apply lookup_lt_is_Some. rewrite <- Hsame. eauto.
    + by eapply lookup_lt_Some.
  - rewrite load_kernel_guard in Hout, Hout' by done. congruence.
Qed.

(** C2. The kernel is deterministic: a work item is a function of the
    buffer, the count, its index and the iteration count, and an
    ND-range dispatch gives the same buffer in whatever order its
    work items run. *)
Theorem kernel_deterministic (iters : Z) (data : list float) (count : Z) :
  (forall id out1 out2,
     load_kernel_n sinf cosf iters data count id = out1 ->
     load_kernel_n sinf cosf iters data count id = out2 -> out1 = out2) /\
  (forall sched1 sched2 : list Z, sched1 ≡ₚ sched2 ->
     dispatch_n sinf cosf iters data count sched1
     = dispatch_n sinf cosf iters data count sched2).
Proof.
  split; [congruence|]. intros s1 s2 Hperm. by apply dispatch_perm.
Qed.

End WithMath.
End KernelFacts.

Module HostFacts.
Import F32 Host.

Lemma fill_loop_length n i (host : list float) :
  length (fill_loop n i host) = length host.
Proof.
  revert i host. induction n as [|n IH]; intros i host; simpl; [done|].
  by rewrite IH, length_insert.
Qed.

(** The loop invariant of line 79: the passes from [i] on seed the
    elements [i], ..., [i + n - 1] and keep the others. *)
Lemma fill_loop_lookup n i (host : list float) (j : nat) :
  0 <= i -> (Z.to_nat i + n <= length host)%nat ->
  fill_loop n i host !! j
  = if decide (i <= Z.of_nat j < i + Z.of_nat n) then Some (seed (Z.of_nat j))
    else host !! j.
Proof.
  revert i host. induction n as [|n IH]; intros i host Hi Hlen; simpl fill_loop.
  - case_decide; [lia|done].
  - rewrite IH by (rewrite ?length_insert; lia).
    destruct (decide (Z.of_nat j = i)) as [<-|Hne].
    + rewrite Nat2Z.id. repeat case_decide; try lia.
      apply list_lookup_insert_eq. lia.
    + rewrite list_lookup_insert_ne by lia.
      repeat case_decide; try lia; done.
Qed.

Lemma host_data_n_lookup size i :
  0 <= i < size -> host_data_n size !! Z.to_nat i = Some (seed i).
Proof.
  intros Hi. unfold host_data_n.
  rewrite fill_loop_lookup by (rewrite ?length_replicate; simpl; lia).
  rewrite Z2Nat.id by lia. case_decide; [done|lia].
Qed.

(** C7. The host buffer has [dataSizeElements] elements, and element [i]
    is [(float)(i % 100) + 0.1f]. *)
Theorem host_data_seeded (i : Z) :
  dataSizeElements = 8388608 /\
  length host_data = Z.to_nat dataSizeElements /\
  (0 <= i < dataSizeElements ->
   host_data !! Z.to_nat i = Some (add (of_Z (i mod 100)) c0_1)).
Proof.
  split; [reflexivity|]. split.
  - unfold host_data, host_data_n. rewrite fill_loop_length. apply length_replicate.
  - apply host_data_n_lookup.
Qed.

End HostFacts.

(** ** binary32 arithmetic *)

Module Digits.

Lemma digits2_pos_spec p :
  2 ^ (Zpos (digits2_pos p) - 1) <= Zpos p < 2 ^ Zpos (digits2_pos p).
Proof.
  induction p as [p IH|p IH|]; simpl digits2_pos;
    rewrite ?Pos2Z.inj_succ, ?Z.pow_succ_r by lia.
  - replace (Z.succ (Zpos (digits2_pos p)) - 1) with (Z.succ (Zpos (digits2_pos p) - 1)) by lia.
    rewrite Z.pow_succ_r by lia. lia.
  - replace (Z.succ (Zpos (digits2_pos p)) - 1) with (Z.succ (Zpos (digits2_pos p) - 1)) by lia.
    rewrite Z.pow_succ_r by lia. lia.
  - simpl. lia.
Qed.

Lemma Zdigits2_nonneg m : 0 <= Zdigits2 m.
Proof. destruct m; simpl; lia. Qed.

Lemma Zdigits2_pos m : 0 < m -> 0 < Zdigits2 m.
Proof. destruct m; simpl; lia. Qed.

Lemma Zdigits2_spec m :
  0 < m -> 2 ^ (Zdigits2 m - 1) <= m < 2 ^ Zdigits2 m.
Proof. destruct m as [|p|p]; try lia. intros _. apply digits2_pos_spec. Qed.

Lemma pow2_pos k : 0 <= k -> 0 < 2 ^ k.
Proof. intros. apply Z.pow_pos_nonneg; lia. Qed.

Lemma pow2_le a b : 0 <= a <= b -> 2 ^ a <= 2 ^ b.
Proof. intros. apply Z.pow_le_mono_r; lia. Qed.

Lemma pow2_lt a b : 0 <= a < b -> 2 ^ a < 2 ^ b.
Proof. intros. apply Z.pow_lt_mono_r; lia. Qed.

Lemma pow2_lt_inv a b : 0 <= a -> 0 <= b -> 2 ^ a < 2 ^ b -> a < b.
Proof.
  intros Ha Hb Hlt. destruct (Z.lt_ge_cases a b) as [|Hge]; [done|].
  pose proof (pow2_le b a). lia.
Qed.

Lemma pow2_add a b : 0 <= a -> 0 <= b -> 2 ^ (a + b) = 2 ^ a * 2 ^ b.
Proof. intros. apply Z.pow_add_r; lia. Qed.

(** [m] has at most [k] digits when it is below [2 ^ k]. *)
Lemma Zdigits2_le m k : 0 <= k -> 0 <= m < 2 ^ k -> Zdigits2 m <= k.
Proof.
  intros Hk [Hm Hlt]. destruct (Z.eq_dec m 0) as [->|Hne]; [simpl; lia|].
  pose proof (Zdigits2_spec m ltac:(lia)) as [Hlo _].
  pose proof (Zdigits2_pos m ltac:(lia)).
  destruct (Z.lt_ge_cases k (Zdigits2 m)) as [Hgt|]; [|lia].
  pose proof (pow2_le k (Zdigits2 m - 1)). lia.
Qed.

(** [m] has more than [k] digits when it is at least [2 ^ k]. *)
Lemma Zdigits2_gt m k : 0 <= k -> 2 ^ k <= m -> k < Zdigits2 m.
Proof.
  intros Hk Hle. pose proof (pow2_pos k Hk).
  pose proof (Zdigits2_spec m ltac:(lia)) as [_ Hhi].
  apply pow2_lt_inv; [lia|apply Zdigits2_nonneg|lia].
Qed.

Lemma Zdigits2_unique m d :
  0 < d -> 2 ^ (d - 1) <= m < 2 ^ d -> Zdigits2 m = d.
Proof.
  intros Hd [Hlo Hhi].
  pose proof (Zdigits2_le m d ltac:(lia)).
  pose proof (Zdigits2_gt m (d - 1) ltac:(lia) Hlo).
  pose proof (pow2_pos (d - 1)). lia.
Qed.

Lemma Zdigits2_mono a b : 0 <= a <= b -> Zdigits2 a <= Zdigits2 b.
Proof.
  intros [Ha Hab]. destruct (Z.eq_dec a 0) as [->|]; [apply Zdigits2_nonneg|].
  pose proof (Zdigits2_spec a ltac:(lia)) as [Hlo _].
  pose proof (Zdigits2_pos a ltac:(lia)).
  pose proof (Zdigits2_gt b (Zdigits2 a - 1) ltac:(lia) ltac:(lia)). lia.
Qed.

(** Dropping [n] low bits drops [n] digits. *)
Lemma Zdigits2_shiftr m n :
  0 <= m -> 0 <= n -> Zdigits2 (m / 2 ^ n) = Z.max 0 (Zdigits2 m - n).
Proof.
  intros Hm Hn. pose proof (pow2_pos n Hn) as Hpow.
  destruct (Z.eq_dec m 0) as [->|Hne].
  { rewrite Z.div_0_l by lia. simpl. lia. }
  pose proof (Zdigits2_spec m ltac:(lia)) as [Hlo Hhi].
  pose proof (Zdigits2_pos m ltac:(lia)) as Hd.
  destruct (Z.le_gt_cases (Zdigits2 m) n) as [Hsmall|Hbig].
  - rewrite Z.div_small; [simpl; lia|].
    pose proof (pow2_le (Zdigits2 m) n). lia.
  - rewrite Z.max_r by lia. apply Zdigits2_unique; [lia|]. split.
    + apply Z.div_le_lower_bound; [lia|].
      rewrite <- pow2_add by lia.
      replace (n + (Zdigits2 m - n - 1)) with (Zdigits2 m - 1) by lia. done.
    + apply Z.div_lt_upper_bound; [lia|].
      rewrite <- pow2_add by lia.
      replace (n + (Zdigits2 m - n)) with (Zdigits2 m) by lia. done.
Qed.

Lemma Zdigits2_shiftl m n :
  0 < m -> 0 <= n -> Zdigits2 (m * 2 ^ n) = Zdigits2 m + n.
Proof.
  intros Hm Hn. pose proof (pow2_pos n Hn) as Hpow.
  pose proof (Zdigits2_spec m Hm) as [Hlo Hhi].
  pose proof (Zdigits2_pos m Hm) as Hd.
  apply Zdigits2_unique; [lia|]. split.
  - replace (Zdigits2 m + n - 1) with ((Zdigits2 m - 1) + n) by lia.
    rewrite pow2_add by lia. nia.
  - rewrite pow2_add by lia. nia.
Qed.

(** The product of two numbers has the digits of both, or one less. *)
Lemma Zdigits2_mul a b :
  0 < a -> 0 < b ->
  Zdigits2 a + Zdigits2 b - 1 <= Zdigits2 (a * b) <= Zdigits2 a + Zdigits2 b.
Proof.
  intros Ha Hb.
  pose proof (Zdigits2_spec a Ha) as [Halo Hahi].
  pose proof (Zdigits2_spec b Hb) as [Hblo Hbhi].
  pose proof (Zdigits2_pos a Ha). pose proof (Zdigits2_pos b Hb).
  pose proof (pow2_pos (Zdigits2 a - 1)). pose proof (pow2_pos (Zdigits2 b - 1)).
  split.
  - assert (Zdigits2 a + Zdigits2 b - 2 < Zdigits2 (a * b)); [|lia].
    apply Zdigits2_gt; [lia|].
    replace (Zdigits2 a + Zdigits2 b - 2) with ((Zdigits2 a - 1) + (Zdigits2 b - 1)) by lia.
    rewrite pow2_add by lia. nia.
  - apply Zdigits2_le; [lia|]. rewrite pow2_add by lia. nia.
Qed.

End Digits.

Module Locations.
Import Format Digits.

Lemma shr_1_halves m r s :
  0 <= m ->
  shr_1 {| shr_m := m; shr_r := r; shr_s := s |}
  = {| shr_m := m / 2; shr_r := Z.odd m; shr_s := r || s |}.
Proof.
  intros Hm. rewrite <- Z.div2_div.
  destruct m as [|[p|p|]|p]; try lia; reflexivity.
Qed.

Lemma shr_record_of_loc_m m l : shr_m (shr_record_of_loc m l) = m.
Proof. by destruct l as [|[]]. Qed.

Lemma loc_of_shr_record_of_loc m l : loc_of_shr_record (shr_record_of_loc m l) = l.
Proof. by destruct l as [|[]]. Qed.

Lemma shr_1_spec N D :
  0 <= N -> 0 < D ->
  shr_1 (shr_record_of_loc (N / D) (loc_of N D))
  = shr_record_of_loc (N / (2 * D)) (loc_of N (2 * D)).
Proof.
  intros HN HD.
  assert (Hm : 0 <= N / D) by (apply Z.div_pos; lia).
  pose proof (Z.mod_pos_bound N D HD) as Hr.
  assert (Hdiv : N / (2 * D) = N / D / 2).
  { rewrite (Z.mul_comm 2 D). by rewrite Z.div_div by lia. }
  assert (Hmod : N mod (2 * D) = N mod D + D * (if Z.odd (N / D) then 1 else 0)).
  { rewrite (Z.mul_comm 2 D), Z.rem_mul_r by lia. by rewrite Zmod_odd. }
  assert (Hloc : forall x c, 0 <= x -> (x = 0 -> False) -> (2 * x ?= 2 * D) = c ->
            (if x =? 0 then loc_Exact else loc_Inexact (2 * x ?= 2 * D)) = loc_Inexact c).
  { intros x c Hx Hnz <-. by destruct (Z.eqb_spec x 0). }
  unfold loc_of at 2. rewrite Hmod, Hdiv. unfold loc_of.
  destruct (Z.eqb_spec (N mod D) 0) as [Hz|Hnz].
  - cbn [shr_record_of_loc]. rewrite shr_1_halves by done. rewrite Hz.
    destruct (Z.odd (N / D)).
    + rewrite (Hloc _ Eq); [done|lia|lia|]. apply Z.compare_eq_iff. lia.
    + by replace (0 + D * 0) with 0 by lia.
  - assert (Hbits : forall c,
              shr_1 (shr_record_of_loc (N / D) (loc_Inexact c))
              = {| shr_m := N / D / 2; shr_r := Z.odd (N / D); shr_s := true |}).
    { intros [| |]; cbn [shr_record_of_loc]; rewrite shr_1_halves by done;
        f_equal; by destruct (Z.odd _). }
    rewrite Hbits. destruct (Z.odd (N / D)).
    + rewrite (Hloc _ Gt); [done|lia|lia|]. apply Z.compare_gt_iff. lia.
    + rewrite (Hloc _ Lt); [done|lia|lia|]. apply Z.compare_lt_iff. lia.
Qed.

Lemma iter_pos_nat {A} (f : A -> A) p x :
  SpecFloat.iter_pos f p x = @Nat.iter (Pos.to_nat p) A f x.
Proof.
  revert x. induction p as [p IH|p IH|]; intros x; simpl SpecFloat.iter_pos.
  - rewrite !IH, Pos2Nat.inj_xI.
    replace (S (2 * Pos.to_nat p))%nat with (Pos.to_nat p + (Pos.to_nat p + 1))%nat by lia.
    rewrite !Nat.iter_add. done.
  - rewrite !IH, Pos2Nat.inj_xO.
    replace (2 * Pos.to_nat p)%nat with (Pos.to_nat p + Pos.to_nat p)%nat by lia.
    by rewrite Nat.iter_add.
  - done.
Qed.

Lemma shr_1_iter N D (k : nat) :
  0 <= N -> 0 < D ->
  @Nat.iter k shr_record shr_1 (shr_record_of_loc (N / D) (loc_of N D))
  = shr_record_of_loc (N / (2 ^ Z.of_nat k * D)) (loc_of N (2 ^ Z.of_nat k * D)).
Proof.
  intros HN HD. induction k as [|k IH].
  - simpl Nat.iter. change (2 ^ Z.of_nat 0) with 1. by rewrite Z.mul_1_l.
  - simpl Nat.iter. rewrite IH.
    pose proof (pow2_pos (Z.of_nat k) ltac:(lia)).
    rewrite shr_1_spec by lia.
    rewrite Nat2Z.inj_succ, Z.pow_succ_r, Z.mul_assoc by lia. done.
Qed.

(** [shr] by [n] places divides by [2 ^ n] and keeps the location. *)
Lemma shr_spec N D e n :
  0 <= N -> 0 < D ->
  shr (shr_record_of_loc (N / D) (loc_of N D)) e n
  = (shr_record_of_loc (N / (2 ^ Z.max 0 n * D)) (loc_of N (2 ^ Z.max 0 n * D)),
     e + Z.max 0 n).
Proof.
  intros HN HD. destruct n as [|p|p]; simpl shr.
  - change (2 ^ Z.max 0 0) with 1. by rewrite Z.mul_1_l, Z.add_0_r.
  - rewrite iter_pos_nat, shr_1_iter, positive_nat_Z by done.
    by rewrite Z.max_r by lia.
  - rewrite Z.max_l by lia. change (2 ^ 0) with 1. by rewrite Z.mul_1_l, Z.add_0_r.
Qed.

(** Rounding to nearest, ties to even, of [N / D]. *)
Lemma round_nearest_even_bounds N D :
  0 <= N -> 0 < D ->
  N / D <= round_nearest_even (N / D) (loc_of N D) <= N / D + 1.
Proof.
  intros HN HD. unfold loc_of.
  destruct (N mod D =? 0); simpl; [lia|].
  destruct (2 * (N mod D) ?= D); [destruct (Z.even _)| |]; lia.
Qed.

Lemma round_nearest_even_exact N D :
  N mod D = 0 -> round_nearest_even (N / D) (loc_of N D) = N / D.
Proof. intros H. unfold loc_of. by rewrite H. Qed.

(** Below the middle of [M] and [M + 1], the rounding is at most [M]. *)
Lemma round_nearest_even_le N D M :
  0 <= N -> 0 < D -> 2 * N < (2 * M + 1) * D ->
  round_nearest_even (N / D) (loc_of N D) <= M.
Proof.
  intros HN HD Hlt.
  pose proof (round_nearest_even_bounds N D HN HD) as [_ Hhi].
  pose proof (Z.mod_pos_bound N D HD) as Hr.
  pose proof (Z.div_mod N D ltac:(lia)) as Hdm.
  destruct (Z.lt_ge_cases (N / D) M) as [|Hge]; [lia|].
  assert (N / D = M) as HM by nia.
  unfold loc_of. destruct (N mod D =? 0); simpl; [lia|].
  replace (2 * (N mod D) ?= D) with Lt; [simpl; lia|].
  symmetry. apply Z.compare_lt_iff. nia.
Qed.

End Locations.

Module Rounding.
Import Format Digits Locations.

Section WithFormat.
Variables prec emax : Z.
Hypothesis Hprec : 0 < prec.
Hypothesis Hemax : prec < emax.
Set Default Proof Using "All".

Local Abbreviation emin := (SpecFloat.emin prec emax).
Local Abbreviation fexp := (SpecFloat.fexp prec emax).
Local Abbreviation Zbounded := (Format.Zbounded prec emax).
Local Abbreviation below := (Format.below prec).

Lemma fexp_ge_emin x : emin <= fexp x.
Proof. unfold SpecFloat.fexp. lia. Qed.

Lemma fexp_mono x y : x <= y -> fexp x <= fexp y.
Proof. unfold SpecFloat.fexp. lia. Qed.

Lemma emin_le : emin <= emax - prec.
Proof. unfold SpecFloat.emin. lia. Qed.

Lemma bounded_Zbounded p e : bounded prec emax p e = true <-> Zbounded (Zpos p) e.
Proof.
  unfold bounded, canonical_mantissa, Zbounded. simpl Zdigits2.
  rewrite andb_true_iff, Z.eqb_eq, Z.leb_le. done.
Qed.

Lemma shr_fexp_spec N D e :
  0 <= N -> 0 < D ->
  let n := Z.max 0 (fexp (Zdigits2 (N / D) + e) - e) in
  shr_fexp prec emax (N / D) e (loc_of N D)
  = (shr_record_of_loc (N / (2 ^ n * D)) (loc_of N (2 ^ n * D)), e + n).
Proof. intros HN HD n. unfold shr_fexp. by apply shr_spec. Qed.

Lemma shr_fexp_exact m e :
  0 <= m ->
  let n := Z.max 0 (fexp (Zdigits2 m + e) - e) in
  shr_m (shr_fexp prec emax m e loc_Exact).1 = m / 2 ^ n /\
  (shr_fexp prec emax m e loc_Exact).2 = e + n.
Proof.
  intros Hm n.
  pose proof (shr_fexp_spec m 1 e Hm ltac:(lia)) as H.
  rewrite Z.div_1_r in H. unfold loc_of in H. rewrite Z.mod_1_r in H.
  simpl (0 =? 0) in H. cbv iota in H. cbv zeta in H. fold n in H. rewrite H.
  cbn [fst snd]. by rewrite shr_record_of_loc_m, Z.mul_1_r.
Qed.

(** What [binary_round_aux] makes of [N / D * 2 ^ e], given as the
    integer part of [N / D] and the location of the rest. *)
Lemma binary_round_aux_spec s N D e K :
  0 <= N -> 0 < D ->
  e <= fexp (Zdigits2 (N / D) + e) ->
  emin + prec <= K <= emax ->
  below K N D e ->
  exists m' e',
    binary_round_aux prec emax s (N / D) e (loc_of N D) = float_of s m' e' /\
    0 <= m' /\
    (0 < m' -> Zbounded m' e' /\ Zdigits2 m' + e' <= K) /\
    (forall k, e <= k -> emin <= k -> 2 ^ (k - e) * D <= N ->
               0 < m' /\ k < Zdigits2 m' + e').
Proof.
  intros HN HD Hreg HK [HeK Hbelow].
  set (m := N / D) in *. set (d := Zdigits2 m) in *.
  set (f := fexp (d + e)) in *.
  assert (Hm : 0 <= m) by (apply Z.div_pos; lia).
  assert (Hd : 0 <= d) by apply Zdigits2_nonneg.
  assert (HmD : m * D <= N < (m + 1) * D).
  { pose proof (Z.div_mod N D ltac:(lia)). pose proof (Z.mod_pos_bound N D HD).
    fold m in H. nia. }
  set (n := f - e). assert (Hn : 0 <= n) by (unfold n; lia).
  set (D1 := 2 ^ n * D).
  assert (Hpn : 0 < 2 ^ n) by (by apply pow2_pos).
  assert (HD1 : 0 < D1) by (unfold D1; nia).
  set (m1 := N / D1).
  assert (Hm1 : m1 = m / 2 ^ n).
  { unfold m1, D1, m. rewrite (Z.mul_comm (2 ^ n) D). by rewrite Z.div_div by lia. }
  assert (Hd1 : Zdigits2 m1 = Z.max 0 (d - n)).
  { rewrite Hm1. by apply Zdigits2_shiftr. }
  set (mr := round_nearest_even m1 (loc_of N D1)).
  pose proof (round_nearest_even_bounds N D1 HN HD1) as Hmr. fold m1 mr in Hmr.
  assert (Hm1pos : 0 <= m1) by (unfold m1; apply Z.div_pos; lia).
  (* the two shifts *)
  assert (Hbra : forall n2, n2 = Z.max 0 (fexp (Zdigits2 mr + f) - f) ->
            binary_round_aux prec emax s m e (loc_of N D)
            = match mr / 2 ^ n2 with
              | Z0 => S754_zero s
              | Zpos p => if f + n2 <=? emax - prec
                          then S754_finite s p (f + n2) else S754_infinity s
              | Zneg _ => S754_nan
              end).
  { intros n2 Hn2. unfold binary_round_aux.
    pose proof (shr_fexp_spec N D e HN HD) as H1. cbv zeta in H1.
    fold m d f in H1. rewrite Z.max_r in H1 by lia. fold n D1 m1 in H1.
    rewrite H1. rewrite shr_record_of_loc_m, loc_of_shr_record_of_loc. fold mr.
    replace (e + n) with f by (unfold n; lia).
    destruct (shr_fexp_exact mr f ltac:(lia)) as [H2 H3]. rewrite <- Hn2 in H2, H3.
    destruct (shr_fexp prec emax mr f loc_Exact) as [mrs'' e'']. cbn [fst snd] in H2, H3.
    cbv beta iota. by rewrite H2, H3. }
  pose proof (fexp_ge_emin (d + e)) as Hfmin. fold f in Hfmin.
  pose proof emin_le as Hemin.
  destruct (Z.lt_ge_cases (d + e - prec) emin) as [HB|HA].
  - (* below the normal range: the exponent is [emin] *)
    assert (Hf : f = emin) by (unfold f, SpecFloat.fexp; lia).
    assert (Hd1' : Zdigits2 m1 <= prec - 1) by lia.
    assert (Hm1lt : m1 < 2 ^ (prec - 1)).
    { destruct (Z.eq_dec m1 0) as [->|]; [apply pow2_pos; lia|].
      pose proof (Zdigits2_spec m1 ltac:(lia)) as [_ Hhi].
      pose proof (pow2_le (Zdigits2 m1) (prec - 1) ltac:(pose proof (Zdigits2_nonneg m1); lia)).
      lia. }
    assert (Hdr : Zdigits2 mr <= prec).
    { apply Zdigits2_le; [lia|]. split; [lia|].
      replace prec with (Z.succ (prec - 1)) at 1 by lia.
      rewrite Z.pow_succ_r by lia. lia. }
    pose proof (Zdigits2_nonneg mr) as Hdr0.
    assert (Hfr : fexp (Zdigits2 mr + f) = f) by (unfold SpecFloat.fexp; lia).
    rewrite (Hbra 0) by (rewrite Hfr; lia).
    change (2 ^ 0) with 1. rewrite Z.div_1_r, Z.add_0_r.
    exists mr, f. split; [|split; [lia|split]].
    + destruct mr as [|p|p]; [done| |lia].
      by destruct (Z.leb_spec f (emax - prec)); [|lia].
    + intros Hpos. split; [split; [done|lia]|lia].
    + intros k Hek Hkmin Hlow.
      assert (2 ^ (k - emin) <= m1).
      { unfold m1, D1. apply Z.div_le_lower_bound; [lia|].
        replace (k - e) with (n + (k - emin)) in Hlow by lia.
        rewrite pow2_add in Hlow by lia. nia. }
      pose proof (pow2_pos (k - emin) ltac:(lia)).
      pose proof (Zdigits2_gt m1 (k - emin) ltac:(lia) ltac:(lia)).
      pose proof (Zdigits2_mono m1 mr ltac:(lia)). lia.
  - (* in the normal range: [prec] digits *)
    assert (Hf : f = d + e - prec) by (unfold f, SpecFloat.fexp; lia).
    assert (Hmpos : 0 < m).
    { destruct (Z.eq_dec m 0) as [Hz|]; [|lia].
      unfold d in Hf. rewrite Hz in Hf. simpl in Hf.
      unfold f, d in Hreg. rewrite Hz in Hreg. simpl in Hreg.
      unfold d in HA. rewrite Hz in HA. simpl in HA. lia. }
    pose proof (Zdigits2_spec m Hmpos) as [Hmlo Hmhi]. fold d in Hmlo, Hmhi.
    assert (Hdpos : 0 < d) by (unfold d; by apply Zdigits2_pos).
    assert (Hd1' : Zdigits2 m1 = prec) by lia.
    assert (Hm1pos' : 0 < m1).
    { destruct (Z.eq_dec m1 0) as [Hz|]; [|lia]. rewrite Hz in Hd1'. simpl in Hd1'. lia. }
    pose proof (Zdigits2_spec m1 Hm1pos') as [Hm1lo Hm1hi]. rewrite Hd1' in Hm1lo, Hm1hi.
    assert (HEK : d + e <= K).
    { assert (Hlt : 2 ^ d < 2 ^ (K + 1 - e)); [|apply pow2_lt_inv in Hlt; lia].
      pose proof (pow2_pos (d - 1) ltac:(lia)).
      pose proof (pow2_pos (K - prec - e) ltac:(lia)).
      pose proof (pow2_pos (prec + 1) ltac:(lia)).
      replace d with (Z.succ (d - 1)) by lia. rewrite Z.pow_succ_r by lia.
      replace (K + 1 - e) with ((prec + 1) + (K - prec - e)) by lia.
      rewrite pow2_add by lia. nia. }
    assert (Hlower : forall k, e <= k -> 2 ^ (k - e) * D <= N -> k < d + e).
    { intros k Hek Hlow.
      assert (2 ^ (k - e) <= m).
      { unfold m. apply Z.div_le_lower_bound; [lia|]. lia. }
      pose proof (Zdigits2_gt m (k - e) ltac:(lia) ltac:(lia)). fold d in H0. lia. }
    assert (Hcarry : mr < 2 ^ prec \/ (mr = 2 ^ prec /\ d + e < K)).
    { destruct (Z.lt_ge_cases mr (2 ^ prec)) as [|Hge]; [by left|right].
      split; [lia|]. destruct (Z.eq_dec (d + e) K) as [HE|]; [|lia].
      assert (mr <= 2 ^ prec - 1); [|lia].
      apply round_nearest_even_le; [done..|].
      unfold D1. replace n with (K - prec - e) by lia.
      replace (2 * (2 ^ prec - 1) + 1) with (2 ^ (prec + 1) - 1)
        by (rewrite Z.pow_add_r by lia; lia).
      lia. }
    destruct Hcarry as [Hnc|[Hc HEK']].
    + assert (Hdr : Zdigits2 mr = prec) by (apply Zdigits2_unique; lia).
      assert (Hfr : fexp (Zdigits2 mr + f) = f) by (unfold SpecFloat.fexp; lia).
      rewrite (Hbra 0) by (rewrite Hfr; lia).
      change (2 ^ 0) with 1. rewrite Z.div_1_r, Z.add_0_r.
      exists mr, f. split; [|split; [lia|split]].
      * destruct mr as [|p|p]; [lia| |lia].
        by destruct (Z.leb_spec f (emax - prec)); [|lia].
      * intros _. split; [split; [done|lia]|lia].
      * intros k Hek _ Hlow. specialize (Hlower k Hek Hlow). lia.
    + assert (Hdr : Zdigits2 mr = prec + 1).
      { apply Zdigits2_unique; [lia|]. rewrite Hc.
        replace (prec + 1 - 1) with prec by lia.
        split; [lia|]. apply pow2_lt. lia. }
      assert (Hfr : fexp (Zdigits2 mr + f) = f + 1) by (unfold SpecFloat.fexp; lia).
      rewrite (Hbra 1) by (rewrite Hfr; lia).
      assert (Hhalf : mr / 2 ^ 1 = 2 ^ (prec - 1)).
      { rewrite Hc. change (2 ^ 1) with 2.
        replace prec with (Z.succ (prec - 1)) at 1 by lia.
        rewrite Z.pow_succ_r by lia. rewrite Z.mul_comm. apply Z.div_mul. lia. }
      rewrite Hhalf.
      pose proof (pow2_pos (prec - 1) ltac:(lia)) as Hpp.
      assert (Hdh : Zdigits2 (2 ^ (prec - 1)) = prec).
      { apply Zdigits2_unique; [lia|]. split; [lia|]. apply pow2_lt. lia. }
      exists (2 ^ (prec - 1)), (f + 1). split; [|split; [lia|split]].
      * destruct (2 ^ (prec - 1)) as [|p|p]; [lia| |lia].
        by destruct (Z.leb_spec (f + 1) (emax - prec)); [|lia].
      * intros _. rewrite Hdh. split; [split; [unfold SpecFloat.fexp|]|]; lia.
      * intros k Hek _ Hlow. specialize (Hlower k Hek Hlow). rewrite Hdh. lia.
Qed.

Unset Default Proof Using.
End WithFormat.
End Rounding.

Module Operations.
Import Format Digits Locations Rounding.

Lemma pos_iter_xO p d : Zpos (Pos.iter xO p d) = Zpos p * 2 ^ Zpos d.
Proof.
  induction d as [|d IH] using Pos.peano_ind.
  - simpl. lia.
  - rewrite Pos.iter_succ, Pos2Z.inj_xO, IH, Pos2Z.inj_succ, Z.pow_succ_r by lia. lia.
Qed.

Lemma shl_align_spec p e e' :
  Zpos (shl_align p e e').1 = Zpos p * 2 ^ (e - Z.min e e') /\
  (shl_align p e e').2 = Z.min e e'.
Proof.
  unfold shl_align. destruct (e' - e) as [|d|d] eqn:Hd; cbn [fst snd].
  - rewrite Z.min_l by lia. rewrite Z.sub_diag. simpl. lia.
  - rewrite Z.min_l by lia. rewrite Z.sub_diag. simpl. lia.
  - rewrite Z.min_r by lia. rewrite pos_iter_xO. split; [|done]. f_equal. f_equal. lia.
Qed.

Lemma pow2_cancel_lt x y c : 0 <= c -> x * 2 ^ c < y * 2 ^ c -> x < y.
Proof. intros Hc H. pose proof (pow2_pos c Hc). nia. Qed.

Lemma new_location_spec D r :
  0 < D -> 0 <= r < D ->
  new_location D r = if r =? 0 then loc_Exact else loc_Inexact (2 * r ?= D).
Proof.
  intros HD Hr. unfold new_location, new_location_even, new_location_odd.
  destruct (Z.even D) eqn:Heven; [done|].
  destruct (r =? 0); [done|]. f_equal.
  assert (Hodd : Z.odd D = true) by (by rewrite <- Z.negb_even, Heven).
  apply Z.odd_spec in Hodd as [h Hh].
  destruct (Z.compare_spec (2 * r + 1) D), (Z.compare_spec (2 * r) D); try done; lia.
Qed.

Section WithFormat.
Variables prec emax : Z.
Hypothesis Hprec : 0 < prec.
Hypothesis Hemax : prec < emax.
Set Default Proof Using "All".

Local Abbreviation emin := (SpecFloat.emin prec emax).
Local Abbreviation fexp := (SpecFloat.fexp prec emax).
Local Abbreviation Zbounded := (Format.Zbounded prec emax).
Local Abbreviation below_any := (Format.below_any prec).

Lemma below_any_digits K p e : 0 < p -> below_any K p e -> Zdigits2 p + e <= K.
Proof.
  intros Hp (a & Hae & HaK & Hlt).
  assert (Hd : Zdigits2 (p * 2 ^ (e - a)) <= K - a).
  { pose proof (pow2_pos (e - a) ltac:(lia)). pose proof (pow2_pos (K - prec - a) ltac:(lia)).
    pose proof (pow2_pos (prec + 1) ltac:(lia)).
    apply Zdigits2_le; [lia|]. split; [nia|].
    replace (K - a) with (prec + (K - prec - a)) by lia. rewrite pow2_add by lia.
    replace (prec + 1) with (Z.succ prec) in * by lia. rewrite Z.pow_succ_r in * by lia. nia. }
  rewrite Zdigits2_shiftl in Hd by lia. lia.
Qed.

Lemma binary_round_spec s p e K :
  emin + prec <= K <= emax ->
  below_any K (Zpos p) e ->
  exists m' e',
    binary_round prec emax s p e = float_of s m' e' /\
    0 <= m' /\
    (0 < m' -> Zbounded m' e' /\ Zdigits2 m' + e' <= K) /\
    (forall k, e <= k -> emin <= k -> 2 ^ (k - e) <= Zpos p ->
               0 < m' /\ k < Zdigits2 m' + e').
Proof.
  intros HK Hbelow. unfold binary_round.
  pose proof (below_any_digits K (Zpos p) e ltac:(lia) Hbelow) as HdK.
  set (f := fexp (Zpos (digits2_pos p) + e)).
  destruct (shl_align_spec p e f) as [Hmz Hez].
  destruct (shl_align p e f) as [mz ez]. cbn [fst snd] in Hmz, Hez.
  rewrite <- Hez in Hmz.
  assert (Hf : f <= K - prec) by (unfold f, SpecFloat.fexp, SpecFloat.emin in *; simpl in HdK; lia).
  assert (Hshift : 0 <= e - ez) by lia.
  assert (Hdz : Zdigits2 (Zpos mz) + ez = Zpos (digits2_pos p) + e).
  { rewrite Hmz, Zdigits2_shiftl by lia. simpl Zdigits2. lia. }
  pose proof (binary_round_aux_spec prec emax Hprec Hemax s (Zpos mz) 1 ez K) as Haux.
  rewrite Z.div_1_r in Haux. unfold loc_of in Haux. rewrite Z.mod_1_r in Haux.
  simpl (0 =? 0) in Haux. cbv iota in Haux.
  destruct Haux as (m' & e' & Heq & Hm' & Hup & Hlow); [lia|lia| |done| |].
  - rewrite Hdz. fold f. lia.
  - split; [lia|]. rewrite Z.mul_1_r.
    destruct Hbelow as (a & Hae & HaK & Hlt). rewrite Hmz.
    destruct (Z.le_gt_cases a ez) as [Hle|Hgt].
    + replace (e - a) with ((e - ez) + (ez - a)) in Hlt by lia.
      replace (K - prec - a) with ((K - prec - ez) + (ez - a)) in Hlt by lia.
      rewrite (pow2_add (e - ez)), (pow2_add (K - prec - ez)) in Hlt by lia.
      pose proof (pow2_pos (ez - a) ltac:(lia)) as HC.
      generalize dependent (2 ^ (ez - a)). generalize (2 ^ (e - ez)).
      generalize (2 ^ (K - prec - ez)). generalize (2 ^ (prec + 1) - 1).
      intros T B A C Hlt HC. apply (Z.mul_lt_mono_pos_r C); [lia|]. nia.
    + replace (e - ez) with ((e - a) + (a - ez)) by lia.
      replace (K - prec - ez) with ((K - prec - a) + (a - ez)) by lia.
      rewrite (pow2_add (e - a)), (pow2_add (K - prec - a)) by lia.
      pose proof (pow2_pos (a - ez) ltac:(lia)) as HC.
      generalize dependent (2 ^ (a - ez)). generalize dependent (2 ^ (e - a)).
      generalize (2 ^ (K - prec - a)). generalize (2 ^ (prec + 1) - 1).
      intros T B A Hlt C HC.
      apply (Z.mul_lt_mono_pos_r C) in Hlt; [|lia]. nia.
  - exists m', e'. split; [done|]. split; [done|]. split; [done|].
    intros k Hek Hkmin Hk. apply Hlow; [lia|done|].
    rewrite Z.mul_1_r, Hmz.
    replace (k - ez) with ((k - e) + (e - ez)) by lia. rewrite pow2_add by lia.
    pose proof (pow2_pos (e - ez) ltac:(lia)). nia.
Qed.

Unset Default Proof Using.
End WithFormat.
End Operations.

Module Bounds.
Import Format Digits Locations Rounding Operations.

Section WithFormat.
Variables prec emax : Z.
Hypothesis Hprec : 0 < prec.
Hypothesis Hemax : prec < emax.
Set Default Proof Using "All".

Local Abbreviation emin := (SpecFloat.emin prec emax).
Local Abbreviation fexp := (SpecFloat.fexp prec emax).
Local Abbreviation Zbounded := (Format.Zbounded prec emax).
Local Abbreviation below_any := (Format.below_any prec).
Local Abbreviation within := (Format.within prec emax).
Local Abbreviation unit := (Format.at_most_1 prec emax).

Lemma bounded_inv m e :
  bounded prec emax m e = true ->
  let d := Zpos (digits2_pos m) in
  d <= prec /\ emin <= e <= emax - prec /\ (e = emin \/ d = prec) /\ d + e <= emax /\
  Zpos m < 2 ^ prec.
Proof.
  intros Hb d. apply (bounded_Zbounded prec emax Hprec Hemax) in Hb as [Hcanon Hle].
  simpl Zdigits2 in Hcanon. fold d in Hcanon.
  unfold SpecFloat.fexp in Hcanon.
  assert (Hd : d <= prec) by lia.
  repeat split; try lia.
  pose proof (digits2_pos_spec m) as [_ Hhi]. fold d in Hhi.
  pose proof (pow2_le d prec ltac:(lia)). lia.
Qed.

Lemma within_weaken K K' x : K <= K' -> within K x -> within K' x.
Proof. intros HK. destruct x as [| | |s m e]; simpl; try done. intros [? ?]. split; [done|lia]. Qed.

Lemma within_float_of s m e K :
  0 <= m -> (0 < m -> Zbounded m e /\ Zdigits2 m + e <= K) ->
  within K (float_of s m e).
Proof.
  intros Hm H. destruct m as [|p|p]; simpl; [done| |lia].
  destruct H as [Hb HK]; [lia|]. by apply (bounded_Zbounded prec emax Hprec Hemax) in Hb.
Qed.

Lemma at_least_float_of s m e k :
  0 < m -> k < Zdigits2 m + e -> at_least k (float_of s m e).
Proof. intros Hm H. destruct m as [|p|p]; simpl in *; lia. Qed.

Lemma within_finite_valid x :
  within emax x <->
  (match x with S754_zero _ | S754_finite _ _ _ => true | _ => false end) = true /\
  valid_binary prec emax x = true.
Proof.
  destruct x as [s|s| |s m e]; simpl; try (split; [done|intros [? ?]; done]).
  - split; [intros [Hb _]; done|]. intros [_ Hb]. split; [done|].
    by apply bounded_inv in Hb as (_ & _ & _ & ? & _).
Qed.

(** *** Normalisation *)

Lemma binary_normalize_spec S e K szero :
  emin + prec <= K <= emax ->
  below_any K (Z.abs S) e ->
  within K (binary_normalize prec emax S e szero) /\
  forall k, e <= k -> emin <= k -> 2 ^ (k - e) <= Z.abs S ->
            at_least k (binary_normalize prec emax S e szero).
Proof.
  intros HK Hbelow. destruct S as [|p|p]; simpl binary_normalize.
  - split; [done|]. intros k Hek _ Hk. simpl in Hk.
    pose proof (pow2_pos (k - e) ltac:(lia)). lia.
  - destruct (binary_round_spec prec emax Hprec Hemax false p e K HK Hbelow)
      as (m' & e' & -> & Hm' & Hup & Hlow).
    split; [by apply within_float_of|].
    intros k Hek Hkmin Hk. destruct (Hlow k Hek Hkmin Hk). by apply at_least_float_of.
  - destruct (binary_round_spec prec emax Hprec Hemax true p e K HK Hbelow)
      as (m' & e' & -> & Hm' & Hup & Hlow).
    split; [by apply within_float_of|].
    intros k Hek Hkmin Hk. destruct (Hlow k Hek Hkmin Hk). by apply at_least_float_of.
Qed.

(** *** Conversion from integers *)

Lemma of_Z_within n k :
  0 <= k -> k + 1 <= emax -> Z.abs n <= 2 ^ k ->
  within (k + 1) (binary_normalize prec emax n 0 false).
Proof.
  intros Hk HkK Hn. apply binary_normalize_spec.
  - unfold SpecFloat.emin. lia.
  - exists (Z.min 0 (k + 1 - prec)). split; [lia|]. split; [lia|].
    set (a := Z.min 0 (k + 1 - prec)).
    pose proof (pow2_pos (0 - a) ltac:(lia)) as Ha.
    pose proof (pow2_pos (k + 1 - prec - a) ltac:(lia)) as Hb.
    pose proof (pow2_pos prec ltac:(lia)) as Hp.
    assert (Hpow : 2 ^ k * 2 ^ (0 - a) * 2 = 2 ^ prec * 2 ^ (k + 1 - prec - a)).
    { rewrite <- (pow2_add k (0 - a)), <- (pow2_add prec (k + 1 - prec - a)) by lia.
      replace (2 ^ (k + (0 - a)) * 2) with (2 ^ Z.succ (k + (0 - a)))
        by (rewrite Z.pow_succ_r by lia; lia).
      f_equal. lia. }
    replace (prec + 1) with (Z.succ prec) by lia. rewrite Z.pow_succ_r by lia.
    assert (Hp2 : 2 <= 2 ^ prec) by (apply (pow2_le 1 prec); lia).
    assert (HnA : Z.abs n * 2 ^ (0 - a) <= 2 ^ k * 2 ^ (0 - a))
      by (apply Z.mul_le_mono_nonneg_r; lia).
    generalize dependent (2 ^ (0 - a)). generalize dependent (2 ^ (k + 1 - prec - a)).
    generalize dependent (2 ^ prec). generalize dependent (2 ^ k). intros. nia.
Qed.

(** *** Addition and subtraction *)

Lemma SFadd_finite sx mx ex sy my ey :
  SFadd prec emax (S754_finite sx mx ex) (S754_finite sy my ey)
  = binary_normalize prec emax
      (cond_Zopp sx (Zpos mx * 2 ^ (ex - Z.min ex ey))
       + cond_Zopp sy (Zpos my * 2 ^ (ey - Z.min ex ey)))
      (Z.min ex ey) false.
Proof.
  unfold SFadd. cbv zeta.
  destruct (shl_align_spec mx ex (Z.min ex ey)) as [-> _].
  destruct (shl_align_spec my ey (Z.min ex ey)) as [-> _].
  by rewrite (Z.min_r ex (Z.min ex ey)), (Z.min_r ey (Z.min ex ey)) by lia.
Qed.

Lemma SFsub_finite sx mx ex sy my ey :
  SFsub prec emax (S754_finite sx mx ex) (S754_finite sy my ey)
  = binary_normalize prec emax
      (cond_Zopp sx (Zpos mx * 2 ^ (ex - Z.min ex ey))
       - cond_Zopp sy (Zpos my * 2 ^ (ey - Z.min ex ey)))
      (Z.min ex ey) false.
Proof.
  unfold SFsub. cbv zeta.
  destruct (shl_align_spec mx ex (Z.min ex ey)) as [-> _].
  destruct (shl_align_spec my ey (Z.min ex ey)) as [-> _].
  by rewrite (Z.min_r ex (Z.min ex ey)), (Z.min_r ey (Z.min ex ey)) by lia.
Qed.

(** A mantissa aligned to a lower exponent. *)
Lemma aligned_lt m e ez K :
  ez <= e -> Zpos (digits2_pos m) + e <= K ->
  0 < Zpos m * 2 ^ (e - ez) < 2 ^ (K - ez).
Proof.
  intros Hez HK. pose proof (digits2_pos_spec m) as [_ Hhi].
  pose proof (pow2_pos (e - ez) ltac:(lia)).
  split; [lia|].
  apply Z.lt_le_trans with (2 ^ Zpos (digits2_pos m) * 2 ^ (e - ez)); [nia|].
  rewrite <- pow2_add by lia. apply pow2_le. lia.
Qed.

Lemma aligned_max m e ez :
  ez <= e -> bounded prec emax m e = true ->
  Zpos m * 2 ^ (e - ez) <= (2 ^ prec - 1) * 2 ^ (emax - prec - ez).
Proof.
  intros Hez (_ & He & _ & _ & Hm)%bounded_inv.
  pose proof (pow2_pos (e - ez) ltac:(lia)).
  pose proof (pow2_le (e - ez) (emax - prec - ez) ltac:(lia)).
  pose proof (pow2_pos prec ltac:(lia)). nia.
Qed.

Lemma cond_Zopp_abs s x : Z.abs (cond_Zopp s x) = Z.abs x.
Proof. destruct s; simpl; lia. Qed.

(** The sum or difference of two numbers below [2 ^ a] and [2 ^ b]. *)
Lemma below_any_sum a b K ez S X Y :
  Z.abs S <= X + Y -> 0 < X < 2 ^ (a - ez) -> 0 < Y < 2 ^ (b - ez) ->
  ez <= K - prec -> a + 2 <= K -> b + 2 <= K ->
  below_any K (Z.abs S) ez.
Proof.
  intros HS HX HY Hez Ha Hb. exists ez. split; [lia|]. split; [lia|].
  rewrite Z.sub_diag, Z.mul_1_r.
  assert (0 <= a - ez).
  { destruct (Z.lt_ge_cases (a - ez) 0) as [Hneg|]; [|lia].
    rewrite Z.pow_neg_r in HX by lia. lia. }
  assert (0 <= b - ez).
  { destruct (Z.lt_ge_cases (b - ez) 0) as [Hneg|]; [|lia].
    rewrite Z.pow_neg_r in HY by lia. lia. }
  pose proof (pow2_le (a - ez) (K - 2 - ez) ltac:(lia)).
  pose proof (pow2_le (b - ez) (K - 2 - ez) ltac:(lia)).
  assert (Hpow : 4 * 2 ^ (K - 2 - ez) = 2 ^ prec * 2 ^ (K - prec - ez)).
  { rewrite <- (pow2_add prec) by lia. change 4 with (2 ^ 2).
    rewrite <- pow2_add by lia. f_equal. lia. }
  replace (prec + 1) with (Z.succ prec) by lia. rewrite Z.pow_succ_r by lia.
  assert (Hp2 : 2 <= 2 ^ prec) by (apply (pow2_le 1 prec); lia).
  pose proof (pow2_pos (K - prec - ez) ltac:(lia)).
  generalize dependent (2 ^ (K - prec - ez)). generalize dependent (2 ^ prec).
  generalize dependent (2 ^ (K - 2 - ez)). intros. nia.
Qed.

(** The sum or difference of a number of the format and a number below
    [2 ^ c], [c] well under the largest exponent. *)
Lemma below_any_absorb c ez S X Y :
  Z.abs S <= X + Y ->
  0 < X <= (2 ^ prec - 1) * 2 ^ (emax - prec - ez) -> 0 < Y < 2 ^ (c - ez) ->
  ez <= emax - prec -> c + 1 <= emax - prec ->
  below_any emax (Z.abs S) ez.
Proof.
  intros HS HX HY Hez Hc. exists ez. split; [lia|]. split; [lia|].
  rewrite Z.sub_diag, Z.mul_1_r.
  assert (0 <= c - ez).
  { destruct (Z.lt_ge_cases (c - ez) 0) as [Hneg|]; [|lia].
    rewrite Z.pow_neg_r in HY by lia. lia. }
  pose proof (pow2_le (c - ez + 1) (emax - prec - ez) ltac:(lia)) as Hle.
  rewrite pow2_add in Hle by lia. change (2 ^ 1) with 2 in Hle.
  replace (prec + 1) with (Z.succ prec) by lia. rewrite Z.pow_succ_r by lia.
  generalize dependent (2 ^ (emax - prec - ez)). generalize dependent (2 ^ prec).
  generalize dependent (2 ^ (c - ez)). intros. nia.
Qed.

Lemma SFadd_coarse a b x y :
  within a x -> within b y ->
  emin + prec <= a -> emin + prec <= b -> Z.max a b + 2 <= emax ->
  within (Z.max a b + 2) (SFadd prec emax x y).
Proof.
  intros Hx Hy Ha Hb HK.
  destruct x as [sx|sx| |sx mx ex], y as [sy|sy| |sy my ey]; try done.
  - simpl. by destruct sx, sy.
  - cbn [SFadd]. eapply within_weaken; [|exact Hy]. lia.
  - cbn [SFadd]. eapply within_weaken; [|exact Hx]. lia.
  - destruct Hx as [Hbx Hdx], Hy as [Hby Hdy]. rewrite SFadd_finite.
    pose proof (bounded_inv _ _ Hbx) as (? & ? & ? & ? & _).
    pose proof (bounded_inv _ _ Hby) as (? & ? & ? & ? & _).
    pose proof (aligned_lt mx ex (Z.min ex ey) a ltac:(lia) Hdx) as HX.
    pose proof (aligned_lt my ey (Z.min ex ey) b ltac:(lia) Hdy) as HY.
    set (X := Zpos mx * 2 ^ (ex - Z.min ex ey)) in *.
    set (Y := Zpos my * 2 ^ (ey - Z.min ex ey)) in *.
    apply binary_normalize_spec; [lia|].
    apply (below_any_sum a b _ _ _ X Y); [destruct sx, sy; simpl; lia|done|done|lia..].
Qed.

Lemma SFsub_coarse a b x y :
  within a x -> within b y ->
  emin + prec <= a -> emin + prec <= b -> Z.max a b + 2 <= emax ->
  within (Z.max a b + 2) (SFsub prec emax x y).
Proof.
  intros Hx Hy Ha Hb HK.
  destruct x as [sx|sx| |sx mx ex], y as [sy|sy| |sy my ey]; try done.
  - simpl. by destruct sx, sy.
  - simpl. destruct Hy. split; [done|lia].
  - cbn [SFsub]. eapply within_weaken; [|exact Hx]. lia.
  - destruct Hx as [Hbx Hdx], Hy as [Hby Hdy]. rewrite SFsub_finite.
    pose proof (bounded_inv _ _ Hbx) as (? & ? & ? & ? & _).
    pose proof (bounded_inv _ _ Hby) as (? & ? & ? & ? & _).
    pose proof (aligned_lt mx ex (Z.min ex ey) a ltac:(lia) Hdx) as HX.
    pose proof (aligned_lt my ey (Z.min ex ey) b ltac:(lia) Hdy) as HY.
    set (X := Zpos mx * 2 ^ (ex - Z.min ex ey)) in *.
    set (Y := Zpos my * 2 ^ (ey - Z.min ex ey)) in *.
    apply binary_normalize_spec; [lia|].
    apply (below_any_sum a b _ _ _ X Y); [destruct sx, sy; simpl; lia|done|done|lia..].
Qed.

(** A number of the format plus a number well under the largest
    exponent does not overflow. *)
Lemma SFadd_absorb c x y :
  within emax x -> within c y -> c + 1 <= emax - prec ->
  within emax (SFadd prec emax x y) /\ within emax (SFadd prec emax y x).
Proof.
  intros Hx Hy Hc.
  destruct x as [sx|sx| |sx mx ex], y as [sy|sy| |sy my ey]; try done.
  - simpl. by destruct sx, sy.
  - cbn [SFadd]. split; (eapply within_weaken; [|exact Hy]; lia).
  - destruct Hx as [Hbx Hdx], Hy as [Hby Hdy]. rewrite !SFadd_finite.
    pose proof (bounded_inv _ _ Hbx) as (? & ? & ? & ? & _).
    pose proof (bounded_inv _ _ Hby) as (? & ? & ? & ? & _).
    pose proof (aligned_lt mx ex (Z.min ex ey) emax ltac:(lia) ltac:(lia)) as [HX _].
    pose proof (aligned_max mx ex (Z.min ex ey) ltac:(lia) Hbx) as HXm.
    pose proof (aligned_lt my ey (Z.min ex ey) c ltac:(lia) Hdy) as HY.
    rewrite (Z.min_comm ey ex).
    split; apply binary_normalize_spec; try (unfold SpecFloat.emin; lia);
      eapply (below_any_absorb c); try exact HY; try (split; [exact HX|exact HXm]);
      try lia; destruct sx, sy; simpl; lia.
Qed.

(** Adding a non-negative number to a number that is at least 1. *)
Lemma SFadd_at_least_1 c m e y :
  within c (S754_finite false m e) -> c + 1 <= emax - prec ->
  at_least 0 (S754_finite false m e) -> e <= 0 ->
  within emax y ->
  (match y with S754_finite true _ _ => False | _ => True end) ->
  within emax (SFadd prec emax (S754_finite false m e) y) /\
  at_least 0 (SFadd prec emax (S754_finite false m e) y).
Proof.
  intros Hx Hc Hone He Hy Hsign.
  split; [by apply (SFadd_absorb c y (S754_finite false m e))|].
  destruct y as [sy|sy| |sy my ey]; try done.
  destruct sy; [done|]. clear Hsign.
  destruct Hx as [Hbx Hdx], Hy as [Hby Hdy]. rewrite SFadd_finite.
  pose proof (bounded_inv _ _ Hbx) as (? & ? & ? & ? & _).
  pose proof (bounded_inv _ _ Hby) as (? & ? & ? & ? & _).
  pose proof (aligned_lt m e (Z.min e ey) emax ltac:(lia) ltac:(lia)) as [HX _].
  pose proof (aligned_max m e (Z.min e ey) ltac:(lia) Hbx) as HXm.
  pose proof (aligned_lt my ey (Z.min e ey) emax ltac:(lia) ltac:(lia)) as [HY _].
  pose proof (aligned_max my ey (Z.min e ey) ltac:(lia) Hby) as HYm.
  pose proof (aligned_lt m e (Z.min e ey) c ltac:(lia) Hdx) as [_ HXc].
  unfold cond_Zopp.
  set (X := Zpos m * 2 ^ (e - Z.min e ey)) in *.
  set (Y := Zpos my * 2 ^ (ey - Z.min e ey)) in *.
  assert (Hbelow : below_any emax (Z.abs (X + Y)) (Z.min e ey)).
  { apply (below_any_absorb c _ _ Y X); [lia|lia|lia|lia|lia]. }
  destruct (binary_normalize_spec (X + Y) (Z.min e ey) emax false
              ltac:(unfold SpecFloat.emin; lia) Hbelow) as [_ Hlow].
  apply Hlow; [lia|unfold SpecFloat.emin; lia|].
  simpl in Hone. pose proof (digits2_pos_spec m) as [Hlo _].
  pose proof (pow2_pos (e - Z.min e ey) ltac:(lia)).
  apply Z.le_trans with (2 ^ (Zpos (digits2_pos m) - 1) * 2 ^ (e - Z.min e ey));
    [|unfold X in *; nia].
  rewrite <- pow2_add by lia. apply pow2_le. lia.
Qed.

(** *** Multiplication *)

Lemma SFmul_spec sx mx ex sy my ey K :
  bounded prec emax mx ex = true -> bounded prec emax my ey = true ->
  emin + prec <= K <= emax ->
  Format.below prec K (Zpos mx * Zpos my) 1 (ex + ey) ->
  within K (SFmul prec emax (S754_finite sx mx ex) (S754_finite sy my ey)).
Proof.
  intros Hbx Hby HK Hbelow. cbn [SFmul].
  pose proof (bounded_inv _ _ Hbx) as (Hdx & Hex & Hcx & _ & _).
  pose proof (bounded_inv _ _ Hby) as (Hdy & Hey & Hcy & _ & _).
  pose proof (binary_round_aux_spec prec emax Hprec Hemax (xorb sx sy)
                (Zpos mx * Zpos my) 1 (ex + ey) K) as Haux.
  rewrite Z.div_1_r in Haux. unfold loc_of in Haux. rewrite Z.mod_1_r in Haux.
  simpl (0 =? 0) in Haux. cbv iota in Haux.
  destruct Haux as (m' & e' & Heq & Hm' & Hup & _); [lia|lia| |done|done|].
  - pose proof (Zdigits2_mul (Zpos mx) (Zpos my) ltac:(lia) ltac:(lia)) as [Hlo _].
    simpl Zdigits2 in Hlo at 1 2.
    pose proof (Pos2Z.is_pos (digits2_pos mx)). pose proof (Pos2Z.is_pos (digits2_pos my)).
    unfold SpecFloat.fexp, SpecFloat.emin in *. lia.
  - change (Zpos (mx * my)) with (Zpos mx * Zpos my). rewrite Heq.
    by apply within_float_of.
Qed.

Lemma exponent_le m e a :
  bounded prec emax m e = true -> Zpos (digits2_pos m) + e <= a -> emin + prec <= a ->
  e <= a - prec.
Proof. intros (_ & _ & Hc & _ & _)%bounded_inv Hd Ha. lia. Qed.

Lemma SFmul_coarse a b x y :
  within a x -> within b y ->
  emin + prec <= a -> emin + prec <= b -> emin + prec <= a + b + 1 <= emax ->
  within (a + b + 1) (SFmul prec emax x y).
Proof.
  intros Hx Hy Ha Hb HK.
  destruct x as [sx|sx| |sx mx ex], y as [sy|sy| |sy my ey]; try done.
  destruct Hx as [Hbx Hdx], Hy as [Hby Hdy].
  pose proof (exponent_le _ _ _ Hbx Hdx Ha). pose proof (exponent_le _ _ _ Hby Hdy Hb).
  apply SFmul_spec; [done..|]. split; [lia|]. rewrite Z.mul_1_r.
  pose proof (aligned_lt mx ex ex (a + 0) ltac:(lia) ltac:(lia)) as [HX0 HX].
  pose proof (aligned_lt my ey ey (b + 0) ltac:(lia) ltac:(lia)) as [HY0 HY].
  rewrite Z.sub_diag, Z.mul_1_r in HX0, HX, HY0, HY.
  assert (0 <= a + 0 - ex) by (pose proof (Pos2Z.is_pos (digits2_pos mx)); lia).
  assert (0 <= b + 0 - ey) by (pose proof (Pos2Z.is_pos (digits2_pos my)); lia).
  assert (Hpow : 2 * (2 ^ (a + 0 - ex) * 2 ^ (b + 0 - ey))
                 = 2 ^ prec * 2 ^ (a + b + 1 - prec - (ex + ey))).
  { rewrite <- !pow2_add by lia.
    replace (2 * 2 ^ (a + 0 - ex + (b + 0 - ey))) with (2 ^ Z.succ (a + 0 - ex + (b + 0 - ey)))
      by (rewrite Z.pow_succ_r by lia; lia).
    f_equal. lia. }
  replace (prec + 1) with (Z.succ prec) by lia. rewrite Z.pow_succ_r by lia.
  assert (Hp2 : 2 <= 2 ^ prec) by (apply (pow2_le 1 prec); lia).
  pose proof (pow2_pos (a + b + 1 - prec - (ex + ey)) ltac:(lia)).
  generalize dependent (2 ^ (a + b + 1 - prec - (ex + ey))).
  generalize dependent (2 ^ prec).
  generalize dependent (2 ^ (a + 0 - ex)). generalize dependent (2 ^ (b + 0 - ey)).
  intros. nia.
Qed.

(** Multiplying by a number of magnitude at most 1 does not overflow. *)
Lemma SFmul_unit x y :
  within emax x -> unit y -> within emax (SFmul prec emax x y).
Proof.
  intros Hx Hy.
  destruct x as [sx|sx| |sx mx ex], y as [sy|sy| |sy my ey]; try done.
  destruct Hx as [Hbx Hdx], Hy as (Hby & Hey & Hmy).
  pose proof (bounded_inv _ _ Hbx) as (_ & Hex & _ & _ & Hmx).
  apply SFmul_spec; [done|done|unfold SpecFloat.emin; lia|].
  split; [lia|]. rewrite Z.mul_1_r.
  replace (emax - prec - (ex + ey)) with ((emax - prec - ex) + - ey) by lia.
  rewrite (pow2_add (emax - prec - ex) (- ey)) by lia.
  pose proof (pow2_pos (emax - prec - ex) ltac:(lia)).
  pose proof (pow2_pos (- ey) ltac:(lia)).
  replace (prec + 1) with (Z.succ prec) by lia. rewrite Z.pow_succ_r by lia.
  generalize dependent (2 ^ (emax - prec - ex)). generalize dependent (2 ^ (- ey)).
  generalize dependent (2 ^ prec). intros P HmxP B HmyB HB A HA.
  assert (H1 : Zpos mx * Zpos my <= (P - 1) * B) by (apply Z.mul_le_mono_nonneg; lia).
  assert (H2 : (P - 1) * B <= (P - 1) * (A * B)) by (apply Z.mul_le_mono_nonneg_l; nia).
  assert (H3 : 0 < A * B) by nia.
  generalize dependent (A * B). generalize dependent (Zpos mx * Zpos my).
  generalize dependent ((P - 1) * B). intros. nia.
Qed.

(** *** Division *)

Lemma SFdiv_core_binary_spec m1 e1 m2 e2 :
  let e' := Z.min (fexp (Zpos (digits2_pos m1) + e1 - (Zpos (digits2_pos m2) + e2))) (e1 - e2) in
  let N := Zpos m1 * 2 ^ (e1 - e2 - e') in
  SFdiv_core_binary prec emax (Zpos m1) e1 (Zpos m2) e2 = (N / Zpos m2, e', loc_of N (Zpos m2)).
Proof.
  intros e' N. unfold SFdiv_core_binary. simpl Zdigits2. fold e'.
  assert (Hs : 0 <= e1 - e2 - e') by (unfold e'; lia).
  assert (HN : match e1 - e2 - e' with
               | Zpos _ => Z.shiftl (Zpos m1) (e1 - e2 - e')
               | Z0 => Zpos m1
               | Zneg _ => 0
               end = N).
  { unfold N. destruct (e1 - e2 - e') as [|p|p] eqn:Hp; [simpl; lia| |lia].
    by rewrite Z.shiftl_mul_pow2 by lia. }
  rewrite HN.
  assert (Hpos : 0 <= N) by (unfold N; pose proof (pow2_pos _ Hs); lia).
  pose proof (Z.mod_pos_bound N (Zpos m2) ltac:(lia)) as Hr.
  unfold loc_of, Z.div, Z.modulo in *.
  destruct (Z.div_eucl N (Zpos m2)) as [q r].
  by rewrite new_location_spec by lia.
Qed.

(** Dividing by a number of magnitude at least 1 does not overflow. *)
Lemma SFdiv_at_least_1 x y :
  within emax x -> within emax y -> at_least 0 y ->
  within emax (SFdiv prec emax x y).
Proof.
  intros Hx Hy Hone.
  destruct x as [sx|sx| |sx mx ex], y as [sy|sy| |sy my ey]; try done.
  destruct Hx as [Hbx Hdx], Hy as [Hby Hdy]. simpl in Hone.
  pose proof (bounded_inv _ _ Hbx) as (_ & Hex & _ & _ & Hmx).
  pose proof (bounded_inv _ _ Hby) as (_ & Hey & _ & _ & Hmy).
  cbn [SFdiv]. rewrite SFdiv_core_binary_spec.
  set (d1 := Zpos (digits2_pos mx)) in *. set (d2 := Zpos (digits2_pos my)) in *.
  set (e' := Z.min (fexp (d1 + ex - (d2 + ey))) (ex - ey)).
  set (s := ex - ey - e'). set (N := Zpos mx * 2 ^ s).
  assert (Hs : 0 <= s) by (unfold s, e'; lia).
  pose proof (pow2_pos s Hs) as Hps.
  pose proof (digits2_pos_spec mx) as [Hxlo Hxhi]. fold d1 in Hxlo, Hxhi.
  pose proof (digits2_pos_spec my) as [Hylo Hyhi]. fold d2 in Hylo, Hyhi.
  assert (Hd1 : 0 < d1) by (unfold d1; lia). assert (Hd2 : 0 < d2) by (unfold d2; lia).
  pose proof (binary_round_aux_spec prec emax Hprec Hemax (xorb sx sy) N (Zpos my) e' emax)
    as Haux.
  destruct Haux as (m' & e'' & Heq & Hm' & Hup & _).
  - unfold N. lia.
  - lia.
  - assert (Hq : d1 + s - d2 <= Zdigits2 (N / Zpos my)).
    { destruct (Z.le_gt_cases (d1 + s - d2) 0) as [|Hpos];
        [pose proof (Zdigits2_nonneg (N / Zpos my)); lia|].
      assert (d1 + s - d2 - 1 < Zdigits2 (N / Zpos my)); [|lia].
      apply Zdigits2_gt; [lia|]. apply Z.div_le_lower_bound; [lia|].
      apply Z.le_trans with (2 ^ d2 * 2 ^ (d1 + s - d2 - 1)).
      { pose proof (pow2_pos (d1 + s - d2 - 1) ltac:(lia)). nia. }
      rewrite <- pow2_add by lia. replace (d2 + (d1 + s - d2 - 1)) with ((d1 - 1) + s) by lia.
      rewrite pow2_add by lia. unfold N. nia. }
    pose proof (fexp_mono prec emax Hprec Hemax (d1 + ex - (d2 + ey)) (Zdigits2 (N / Zpos my) + e')
                  ltac:(unfold s in Hq; lia)).
    unfold e' at 1. lia.
  - unfold SpecFloat.emin. lia.
  - assert (He' : e' <= emax - prec).
    { unfold e', SpecFloat.fexp, SpecFloat.emin. lia. }
    split; [done|].
    assert (Hle : 2 ^ s <= 2 ^ (emax - prec - e') * Zpos my).
    { apply Z.le_trans with (2 ^ (emax - prec - e') * 2 ^ (d2 - 1)).
      - rewrite <- pow2_add by lia. apply pow2_le. unfold s. lia.
      - pose proof (pow2_pos (emax - prec - e') ltac:(lia)). nia. }
    replace (prec + 1) with (Z.succ prec) by lia. rewrite Z.pow_succ_r by lia.
    pose proof (pow2_pos (emax - prec - e') ltac:(lia)).
    unfold N. generalize dependent (2 ^ (emax - prec - e')). generalize dependent (2 ^ s).
    generalize dependent (2 ^ prec). intros. nia.
  - rewrite Heq. by apply within_float_of.
Qed.

Lemma within_SFabs K x : within K x -> within K (SFabs x).
Proof. by destruct x. Qed.

Lemma SFabs_sign x : match SFabs x with S754_finite true _ _ => False | _ => True end.
Proof. by destruct x. Qed.

Unset Default Proof Using.
End WithFormat.
End Bounds.

(** ** The kernel keeps finite values finite *)

Module KernelBounds.
Import Format Digits Locations Rounding Operations Bounds.
Import F32 Kernel.

Local Abbreviation within := (Format.within prec emax).
Local Abbreviation unit := (Format.at_most_1 prec emax).

Lemma prec_pos : 0 < prec.
Proof. done. Qed.

Lemma prec_lt_emax : prec < emax.
Proof. done. Qed.

Lemma within_iff x : within emax x <-> is_finite x = true /\ valid x = true.
Proof. apply (within_finite_valid prec emax prec_pos prec_lt_emax). Qed.

(** [|x| <= 1], read on the mantissa and the exponent. *)
Lemma compare_cont_le m n :
  match Pos.compare_cont Eq m n with Lt | Eq => true | Gt => false end = true ->
  Zpos m <= Zpos n.
Proof.
  intros Hle.
  destruct (Pos.compare_cont Eq m n) eqn:Hc; [| |discriminate Hle].
  - apply Pos.compare_eq in Hc. rewrite Hc. apply Z.le_refl.
  - apply Z.lt_le_incl. exact Hc.
Qed.

Lemma abs_le_one_unit x : valid x = true -> abs_le_one x = true -> unit x.
Proof.
  destruct x as [s|s| |s m e]; try done. intros Hvalid Hle.
  change (bounded prec emax m e = true) in Hvalid.
  split; [exact Hvalid|].
  pose proof (bounded_inv prec emax prec_pos prec_lt_emax m e Hvalid) as (_ & _ & _ & _ & Hm).
  unfold abs_le_one, SFleb, fabs, SFabs, one, SFcompare in Hle.
  destruct (Z.compare_spec e (-23)) as [->|Hlt|Hgt].
  - split; [apply Z.leb_le; vm_compute; reflexivity|].
    replace (2 ^ (- (-23))) with (Zpos 8388608) by (vm_compute; reflexivity).
    exact (compare_cont_le m 8388608 Hle).
  - split; [lia|]. apply Z.lt_le_incl, Z.lt_le_trans with (2 ^ prec); [exact Hm|].
    apply pow2_le. unfold prec. lia.
  - discriminate Hle.
Qed.

Lemma unit_within x : unit x -> within 1 x.
Proof.
  destruct x as [s|s| |s m e]; try done. intros (Hb & He & Hm). split; [done|].
  assert (Zdigits2 (Zpos m) <= - e + 1); [|simpl in *; lia].
  apply Zdigits2_le; [lia|]. split; [lia|].
  rewrite pow2_add by lia. pose proof (pow2_pos (- e) ltac:(lia)). simpl (2 ^ 1). lia.
Qed.

(** Closed comparisons of integers, by computation. *)
Ltac compare_Z :=
  repeat split; vm_compute; first [reflexivity | discriminate | intro; discriminate].

Lemma of_Z_int n : - 2 ^ 31 <= n <= 2 ^ 31 -> within 32 (of_Z n).
Proof.
  intros Hn. apply (of_Z_within prec emax prec_pos prec_lt_emax n 31);
    [compare_Z|compare_Z|lia].
Qed.

Lemma c0_01_within : within (-6) c0_01.
Proof. compare_Z. Qed.

Lemma c0_001_within : within (-9) c0_001.
Proof. compare_Z. Qed.

Lemma c0_02_within : within (-5) c0_02.
Proof. compare_Z. Qed.

Lemma c0_002_within : within (-8) c0_002.
Proof. compare_Z. Qed.

Lemma c1_0001_within : within 1 c1_0001 /\ at_least 0 c1_0001.
Proof. compare_Z. Qed.

Section WithMath.
Variables sinf cosf : float -> float.
Hypothesis sinf_unit : forall x,
  is_finite x = true -> valid x = true -> valid (sinf x) = true /\ abs_le_one (sinf x) = true.
Hypothesis cosf_unit : forall x,
  is_finite x = true -> valid x = true -> valid (cosf x) = true /\ abs_le_one (cosf x) = true.

(** The arguments of [sin] and [cos] are finite. *)
Lemma sin_argument id i :
  - 2 ^ 31 <= id <= 2 ^ 31 -> - 2 ^ 31 <= i <= 2 ^ 31 ->
  within emax (add (mul (of_Z id) c0_01) (mul (of_Z i) c0_001)).
Proof.
  intros Hid Hi.
  assert (H1 : within 27 (mul (of_Z id) c0_01)).
  { apply (SFmul_coarse prec emax prec_pos prec_lt_emax 32 (-6));
      [by apply of_Z_int|apply c0_01_within|compare_Z..]. }
  assert (H2 : within 24 (mul (of_Z i) c0_001)).
  { apply (SFmul_coarse prec emax prec_pos prec_lt_emax 32 (-9));
      [by apply of_Z_int|apply c0_001_within|compare_Z..]. }
  apply (within_weaken prec emax prec_pos prec_lt_emax 29); [compare_Z|].
  apply (SFadd_coarse prec emax prec_pos prec_lt_emax 27 24 _ _ H1 H2); compare_Z.
Qed.

Lemma cos_argument id i :
  - 2 ^ 31 <= id <= 2 ^ 31 -> - 2 ^ 31 <= i <= 2 ^ 31 ->
  within emax (sub (mul (of_Z id) c0_02) (mul (of_Z i) c0_002)).
Proof.
  intros Hid Hi.
  assert (H1 : within 28 (mul (of_Z id) c0_02)).
  { apply (SFmul_coarse prec emax prec_pos prec_lt_emax 32 (-5));
      [by apply of_Z_int|apply c0_02_within|compare_Z..]. }
  assert (H2 : within 25 (mul (of_Z i) c0_002)).
  { apply (SFmul_coarse prec emax prec_pos prec_lt_emax 32 (-8));
      [by apply of_Z_int|apply c0_002_within|compare_Z..]. }
  apply (within_weaken prec emax prec_pos prec_lt_emax 30); [compare_Z|].
  apply (SFsub_coarse prec emax prec_pos prec_lt_emax 28 25 _ _ H1 H2); compare_Z.
Qed.

(** One pass of the loop keeps the value finite. *)
Lemma recurrence_within id i val :
  - 2 ^ 31 <= id <= 2 ^ 31 -> - 2 ^ 31 <= i <= 2 ^ 31 ->
  within emax val -> within emax (recurrence sinf cosf id i val).
Proof.
  intros Hid Hi Hval. unfold recurrence.
  pose proof (sin_argument id i Hid Hi) as [Hsf Hsv]%within_iff.
  pose proof (cos_argument id i Hid Hi) as [Hcf Hcv]%within_iff.
  destruct (sinf_unit _ Hsf Hsv) as [Hs1 Hs2].
  destruct (cosf_unit _ Hcf Hcv) as [Hc1 Hc2].
  pose proof (abs_le_one_unit _ Hs1 Hs2) as Hsin.
  pose proof (unit_within _ (abs_le_one_unit _ Hc1 Hc2)) as Hcos.
  set (s := sinf _) in *. set (c := cosf _) in *.
  pose proof (SFmul_unit prec emax prec_pos prec_lt_emax val s Hval Hsin) as Hprod.
  assert (Hsmall : 1 + 1 <= emax - prec) by compare_Z.
  destruct (SFadd_absorb prec emax prec_pos prec_lt_emax 1 (mul val s) c Hprod Hcos Hsmall)
    as [Hsum _].
  fold (mul val s) in *. fold (add (mul val s) c) in Hsum.
  set (t := add (mul val s) c) in *.
  destruct c1_0001_within as [Hk1 Hk2].
  destruct (SFadd_at_least_1 prec emax prec_pos prec_lt_emax 1 8389447 (-23) (fabs t)
              Hk1 Hsmall Hk2 ltac:(compare_Z)
              (within_SFabs prec emax prec_pos prec_lt_emax emax t Hsum)
              (SFabs_sign prec emax prec_pos prec_lt_emax t))
    as [Hden Hone].
  by apply (SFdiv_at_least_1 prec emax prec_pos prec_lt_emax).
Qed.

Lemma for_loop_within n id i val :
  - 2 ^ 31 <= id <= 2 ^ 31 -> 0 <= i -> i + Z.of_nat n <= 2 ^ 31 ->
  within emax val -> within emax (for_loop sinf cosf n id i val).
Proof.
  revert i val. induction n as [|n IH]; intros i val Hid Hi Hn Hval; [done|].
  simpl for_loop. apply IH; [done|lia|lia|].
  apply recurrence_within; [done|lia|done].
Qed.

End WithMath.

(** C3. With [sin] and [cos] returning numbers of magnitude at most 1 on
    finite arguments, the value a work item leaves after its 1000 passes
    is finite, neither NaN nor infinite, whatever finite value it starts
    from; so a work item keeps a buffer of finite values finite. *)
Theorem kernel_output_finite (sinf cosf : float -> float) :
  (forall x, is_finite x = true -> valid x = true ->
             valid (sinf x) = true /\ abs_le_one (sinf x) = true) ->
  (forall x, is_finite x = true -> valid x = true ->
             valid (cosf x) = true /\ abs_le_one (cosf x) = true) ->
  (forall id val,
     - 2 ^ 31 <= id < 2 ^ 31 -> is_finite val = true -> valid val = true ->
     let out := kernel_value sinf cosf inner_iterations id val in
     is_finite out = true /\ is_nan out = false /\ is_infinite out = false /\
     valid out = true) /\
  (forall (data out : list float) count id,
     - 2 ^ 31 <= id < 2 ^ 31 ->
     Forall (fun val => is_finite val = true /\ valid val = true) data ->
     load_kernel sinf cosf data count id = Some out ->
     Forall (fun val => is_finite val = true /\ valid val = true) out).
Proof.
  intros Hsin Hcos.
  assert (Hvalue : forall id val,
            - 2 ^ 31 <= id < 2 ^ 31 -> is_finite val = true -> valid val = true ->
            within emax (kernel_value sinf cosf inner_iterations id val)).
  { intros id val Hid Hfin Hvalid. unfold kernel_value.
    apply for_loop_within; [done|done|lia|lia| |by apply within_iff].
    unfold inner_iterations. rewrite Z2Nat.id by lia. lia. }
  split.
  - intros id val Hid Hfin Hvalid. cbv zeta.
    pose proof (Hvalue id val Hid Hfin Hvalid) as Hout.
    generalize dependent (kernel_value sinf cosf inner_iterations id val).
    intros out [Hf Hv]%within_iff.
    destruct out; try discriminate Hf; repeat split; exact Hv.
  - intros data out count id Hid Hdata Hout.
    unfold load_kernel in Hout.
    destruct (KernelFacts.load_kernel_inv sinf cosf inner_iterations data out count id Hout)
      as [->|(val & _ & Hval & ->)]; [exact Hdata|].
    apply Forall_insert; [exact Hdata|].
    rewrite Forall_lookup in Hdata. destruct (Hdata _ _ Hval) as [Hf Hv].
    by apply within_iff, Hvalue.
Qed.

End KernelBounds.

(** ** The runner *)

Module RunnerFacts.
Import CL Runner.

Lemma check_cl_error_success operation : check_cl_error CL_SUCCESS operation = None.
Proof. done. Qed.

Lemma check_cl_error_failure err operation :
  err <> CL_SUCCESS ->
  check_cl_error err operation
  = Some (operation +:+ " failed with error code " +:+ pretty err).
Proof. intros H. unfold check_cl_error. by destruct (Z.eqb_spec err CL_SUCCESS). Qed.

Lemma check_cl_error_cases err operation :
  (err = CL_SUCCESS /\ check_cl_error err operation = None) \/
  (err <> CL_SUCCESS /\ exists what, check_cl_error err operation = Some what).
Proof.
  destruct (decide (err = CL_SUCCESS)) as [->|Hne]; [by left|right].
  split; [done|]. eexists. by apply check_cl_error_failure.
Qed.

(** Case analysis on one step: the program point, then the status
    codes the step looks at. *)
Ltac step_cases r :=
  unfold step, checked;
  destruct (r_pc r);
  repeat match goal with
    | |- context [check_cl_error ?e ?o] => destruct (check_cl_error e o)
    | |- context [?a =? ?b] => destruct (a =? b)
    end;
  intros Hstep; injection Hstep as ? ?; subst.

Lemma handles_goto pc r : handles (goto pc r) = handles r.
Proof. done. Qed.

Lemma handles_count_enqueue r : handles (count_enqueue r) = handles r.
Proof. done. Qed.

Lemma handles_count_finish r : handles (count_finish r) = handles r.
Proof. done. Qed.

Lemma handles_set_context h r x :
  x ∈ handles (set_context h r) -> x = h \/ x ∈ handles r.
Proof.
  unfold handles; cbn. repeat (rewrite elem_of_cons || rewrite elem_of_app || rewrite elem_of_nil). tauto.
Qed.

Lemma handles_set_queue h r x :
  x ∈ handles (set_queue h r) -> x = h \/ x ∈ handles r.
Proof.
  unfold handles; cbn. repeat (rewrite elem_of_cons || rewrite elem_of_app || rewrite elem_of_nil). tauto.
Qed.

Lemma handles_set_program h r x :
  x ∈ handles (set_program h r) -> x = h \/ x ∈ handles r.
Proof.
  unfold handles; cbn. repeat (rewrite elem_of_cons || rewrite elem_of_app || rewrite elem_of_nil). tauto.
Qed.

Lemma handles_set_kernel h r x :
  x ∈ handles (set_kernel h r) -> x = h \/ x ∈ handles r.
Proof.
  unfold handles; cbn. repeat (rewrite elem_of_cons || rewrite elem_of_app || rewrite elem_of_nil). tauto.
Qed.

Lemma handles_set_buffer h r x :
  x ∈ handles (set_buffer h r) -> x = h \/ x ∈ handles r.
Proof.
  unfold handles; cbn. repeat (rewrite elem_of_cons || rewrite elem_of_app || rewrite elem_of_nil). tauto.
Qed.

(** A step takes at most one new object from the runtime, and a runner
    gets hold of no object but that one. *)
Lemma step_handles d w r w' r' :
  step d w r = (w', r') ->
  (w_next w <= w_next w')%nat /\
  forall h, h ∈ handles r' ->
    h ∈ handles r \/ (h = w_next w /\ w_next w' = S (w_next w)).
Proof.
  step_cases r; (split; [simpl; lia|]); intros h;
    rewrite ?handles_goto, ?handles_count_enqueue, ?handles_count_finish;
    auto;
    intros [->|Hh]%handles_set_context
    || intros [->|Hh]%handles_set_queue
    || intros [->|Hh]%handles_set_program
    || intros [->|Hh]%handles_set_kernel
    || intros [->|Hh]%handles_set_buffer; auto.
Qed.

(** Neither the status codes nor the objects a step gets depend on what
    was printed so far. *)
Lemma step_next_only d w1 w2 r :
  w_next w1 = w_next w2 ->
  (step d w1 r).2 = (step d w2 r).2 /\
  w_next (step d w1 r).1 = w_next (step d w2 r).1.
Proof.
  intros Hnext. unfold step, checked.
  destruct (r_pc r);
    repeat match goal with
      | |- context [check_cl_error ?e ?o] => destruct (check_cl_error e o)
      | |- context [?a =? ?b] => destruct (a =? b)
      end; simpl; rewrite ?Hnext; done.
Qed.

Lemma steps_succ d n w r :
  steps d (S n) w r = steps d n (step d w r).1 (step d w r).2.
Proof. simpl. by destruct (step d w r). Qed.

Lemma steps_add d n m w r :
  steps d (n + m) w r = steps d m (steps d n w r).1 (steps d n w r).2.
Proof.
  revert w r. induction n as [|n IH]; intros w r; [done|].
  change (S n + m)%nat with (S (n + m)). by rewrite !steps_succ, IH.
Qed.

(** A runner that has returned, or thrown, stays where it is. *)
Lemma steps_returned d n w r : r_pc r = PcReturned -> steps d n w r = (w, r).
Proof.
  intros Hpc. induction n as [|n IH]; [done|].
  rewrite steps_succ. unfold step. by rewrite Hpc.
Qed.

Lemma steps_thrown d n w r : is_thrown (r_pc r) = true -> steps d n w r = (w, r).
Proof.
  intros Hpc. induction n as [|n IH]; [done|].
  rewrite steps_succ. unfold step. by destruct (r_pc r).
Qed.

(** *** One step at each program point *)

Section Step.
Variables (d : DeviceDriver) (w : World) (r : Runner).

Lemma step_start :
  r_pc r = PcStart ->
  step d w r
  = (print (Cout, "Starting load on Device " +:+ pretty (r_index r) +:+ ": " +:+ dd_name d) w,
     goto PcContext r).
Proof. intros Hpc. unfold step. by rewrite Hpc. Qed.

Lemma step_context :
  r_pc r = PcContext -> dd_createContext d = CL_SUCCESS ->
  step d w r = (alloc w, goto PcQueue (set_context (w_next w) r)).
Proof. intros Hpc Herr. unfold step, checked. by rewrite Hpc, Herr. Qed.

Lemma step_queue_modern :
  r_pc r = PcQueue ->
  dd_createCommandQueueWithProperties d = CL_SUCCESS ->
  step d w r = (alloc w, goto PcProgram (set_queue (w_next w) r)).
Proof. intros Hpc Hmodern. unfold step. by rewrite Hpc, Hmodern. Qed.

Lemma step_queue_fallback :
  r_pc r = PcQueue ->
  dd_createCommandQueueWithProperties d <> CL_SUCCESS ->
  dd_createCommandQueue d = CL_SUCCESS ->
  step d w r
  = (alloc (print (fallback_notice r (dd_createCommandQueueWithProperties d)) w),
     goto PcProgram (set_queue (w_next w) r)).
Proof.
  intros Hpc Hmodern Hlegacy. unfold step, checked. rewrite Hpc, Hlegacy.
  by destruct (Z.eqb_spec (dd_createCommandQueueWithProperties d) CL_SUCCESS).
Qed.

Lemma step_program :
  r_pc r = PcProgram -> dd_createProgramWithSource d = CL_SUCCESS ->
  step d w r = (alloc w, goto PcBuild (set_program (w_next w) r)).
Proof. intros Hpc Herr. unfold step, checked. by rewrite Hpc, Herr. Qed.

Lemma step_build :
  r_pc r = PcBuild -> dd_buildProgram d = CL_SUCCESS ->
  step d w r = (w, goto PcKernel r).
Proof. intros Hpc Herr. unfold step. by rewrite Hpc, Herr. Qed.

Lemma step_build_failure :
  r_pc r = PcBuild -> dd_buildProgram d <> CL_SUCCESS ->
  step d w r
  = (print (build_log_line r (dd_buildLog d)) w,
     goto (PcThrown ("clBuildProgram failed with error code "
                     +:+ pretty (dd_buildProgram d))) r).
Proof.
  intros Hpc Herr. unfold step, checked. rewrite Hpc.
  rewrite check_cl_error_failure by done.
  by destruct (Z.eqb_spec (dd_buildProgram d) CL_SUCCESS).
Qed.

Lemma step_kernel :
  r_pc r = PcKernel -> dd_createKernel d = CL_SUCCESS ->
  step d w r = (alloc w, goto PcBuffer (set_kernel (w_next w) r)).
Proof. intros Hpc Herr. unfold step, checked. by rewrite Hpc, Herr. Qed.

Lemma step_buffer :
  r_pc r = PcBuffer -> dd_createBuffer d = CL_SUCCESS ->
  step d w r = (alloc w, goto PcArg0 (set_buffer (w_next w) r)).
Proof. intros Hpc Herr. unfold step, checked. by rewrite Hpc, Herr. Qed.

Lemma step_arg0 :
  r_pc r = PcArg0 -> dd_setKernelArg0 d = CL_SUCCESS ->
  step d w r = (w, goto PcArg1 r).
Proof. intros Hpc Herr. unfold step, checked. by rewrite Hpc, Herr. Qed.

Lemma step_arg1 :
  r_pc r = PcArg1 -> dd_setKernelArg1 d = CL_SUCCESS ->
  step d w r = (w, goto PcLoopEntry r).
Proof. intros Hpc Herr. unfold step, checked. by rewrite Hpc, Herr. Qed.

Lemma step_loop_entry :
  r_pc r = PcLoopEntry ->
  step d w r
  = (print (Cout, device_tag r +:+ ": Entering continuous kernel execution loop...") w,
     goto PcEnqueue r).
Proof. intros Hpc. unfold step. by rewrite Hpc. Qed.






End Step.

(** With the fallback a runner goes, step for step, through the states
    it goes through when the modern call is accepted, and gets the same
    objects. *)
Lemma fallback_simulation d n w1 w2 r :
  dd_createCommandQueueWithProperties d <> CL_SUCCESS ->
  dd_createCommandQueue d = CL_SUCCESS ->
  w_next w1 = w_next w2 ->
  (steps d n w1 r).2 = (steps (with_modern_queue d) n w2 r).2 /\
  w_next (steps d n w1 r).1 = w_next (steps (with_modern_queue d) n w2 r).1.
Proof.
  intros Hmodern Hlegacy. revert w1 w2 r.
  induction n as [|n IH]; intros w1 w2 r Hnext; [done|].
  rewrite !steps_succ.
  assert ((step d w1 r).2 = (step (with_modern_queue d) w2 r).2 /\
          w_next (step d w1 r).1 = w_next (step (with_modern_queue d) w2 r).1)
    as [Hr Hw].
  { destruct (decide (r_pc r = PcQueue)) as [Hpc|Hpc].
    - rewrite step_queue_fallback, step_queue_modern by done. simpl. by rewrite Hnext.
    - destruct (step_next_only d w1 w2 r Hnext) as [-> ->].
      unfold step. by destruct (r_pc r). }
  rewrite Hr. by apply IH.
Qed.

Section Setup.
Variable d : DeviceDriver.
Hypothesis Hsetup : setup_calls_succeed d.
Variables (platform : cl_platform_id) (device : cl_device_id) (index : Z).
Variable w : World.

Ltac one_step lem := rewrite steps_succ, lem by done; cbn [fst snd].

Lemma setup_modern :
  dd_createCommandQueueWithProperties d = CL_SUCCESS ->
  steps d 10 w (spawn platform device index)
  = ({| w_out := w_out w ++ [starting_line d index; entering_line index];
        w_next := (5 + w_next w)%nat |}, in_loop platform device index w).
Proof.
  destruct Hsetup as (Hc & Hp & Hb & Hk & Hm & Ha0 & Ha1). intros Hq.
  one_step step_start. one_step step_context. one_step step_queue_modern.
  one_step step_program. one_step step_build. one_step step_kernel.
  one_step step_buffer. one_step step_arg0. one_step step_arg1.
  one_step step_loop_entry.
  unfold print, alloc, in_loop; cbn [steps w_out w_next]. by rewrite <- !app_assoc.
Qed.

Lemma setup_fallback :
  dd_createCommandQueueWithProperties d <> CL_SUCCESS ->
  dd_createCommandQueue d = CL_SUCCESS ->
  steps d 10 w (spawn platform device index)
  = ({| w_out := w_out w ++
                 [starting_line d index;
                  fallback_notice (spawn platform device index)
                    (dd_createCommandQueueWithProperties d);
                  entering_line index];
        w_next := (5 + w_next w)%nat |}, in_loop platform device index w).
Proof.
  destruct Hsetup as (Hc & Hp & Hb & Hk & Hm & Ha0 & Ha1). intros Hq Hl.
  one_step step_start. one_step step_context. one_step step_queue_fallback.
  one_step step_program. one_step step_build. one_step step_kernel.
  one_step step_buffer. one_step step_arg0. one_step step_arg1.
  one_step step_loop_entry.
  unfold print, alloc, in_loop; cbn [steps w_out w_next]. by rewrite <- !app_assoc.
Qed.

End Setup.

Lemma step_identity d w r w' r' :
  step d w r = (w', r') ->
  r_platform r' = r_platform r /\ r_device r' = r_device r /\ r_index r' = r_index r.
Proof. by step_cases r. Qed.

End RunnerFacts.

(** ** The process *)

Module ProcFacts.
Import CL Runner Proc RunnerFacts.

Lemma run_app drv s1 s2 p : run drv (s1 ++ s2) p = run drv s2 (run drv s1 p).
Proof. apply fold_left_app. Qed.

Lemma run_cons drv t s p : run drv (t :: s) p = run drv s (step drv p t).
Proof. done. Qed.

(** A process that has exited or was terminated takes no step. *)
Lemma step_stopped drv p t : p_status p <> Running -> step drv p t = p.
Proof. unfold step. by destruct (p_status p). Qed.

Lemma run_stopped drv sched p : p_status p <> Running -> run drv sched p = p.
Proof.
  intros Hstop. induction sched as [|t sched IH]; [done|].
  by rewrite run_cons, step_stopped.
Qed.

Lemma setup_start_nonempty drv out gpus : setup drv = (out, Start gpus) -> gpus <> [].
Proof.
  unfold setup.
  destruct (_ || _); [done|].
  destruct (check_cl_error _ _); [done|].
  destruct (enumerate_platforms _ _) as [o [[|g gs]|what]]; by intros [= _ <-].
Qed.

(** *** Separation of the runtime objects *)

Lemma separated_boot : separated boot.
Proof. split; simpl; intros *; by rewrite ?lookup_nil. Qed.

Lemma main_step_next drv p :
  w_next (p_world (main_step drv p)) = w_next (p_world p).
Proof.
  unfold main_step.
  destruct (p_main p) as [|gpus k|k|]; [| |  |done].
  - by destruct (setup drv) as [out [code|what|gpus]].
  - by destruct (gpus !! k) as [[pf dev]|].
  - destruct (p_threads p !! k) as [t|]; [|done]. by case_decide.
Qed.

Lemma main_step_threads drv p :
  p_threads (main_step drv p) = p_threads p \/
  exists gpus k platform device,
    p_main p = MainSpawn gpus k /\ gpus !! k = Some (platform, device) /\
    p_main (main_step drv p) = MainSpawn gpus (S k) /\
    p_threads (main_step drv p) = p_threads p ++ [spawn platform device (Z.of_nat k)].
Proof.
  unfold main_step.
  destruct (p_main p) as [|gpus k|k|] eqn:Hmain; [| | |by left].
  - left. by destruct (setup drv) as [out [code|what|gpus]].
  - destruct (gpus !! k) as [[pf dev]|] eqn:Hk; [|by left].
    right. by exists gpus, k, pf, dev.
  - left. destruct (p_threads p !! k) as [t|]; [|done]. by case_decide.
Qed.

Lemma separated_main_step drv p : separated p -> separated (main_step drv p).
Proof.
  intros [Hbound Hdisj].
  destruct (main_step_threads drv p) as [Hsame|(gpus & k & pf & dev & _ & _ & _ & Happ)].
  - split; rewrite ?main_step_next, Hsame; eauto.
  - assert (Hnew : forall i r, (p_threads p ++ [spawn pf dev (Z.of_nat k)]) !! i = Some r ->
              p_threads p !! i = Some r \/ handles r = []).
    { intros i r [?|[_ H]]%lookup_app_Some; [by left|right].
      apply list_lookup_singleton_Some in H as [_ <-]. done. }
    split; rewrite ?main_step_next, Happ.
    + intros i r h [Hi|Hi]%Hnew Hh; [eauto|]. rewrite Hi in Hh. by apply elem_of_nil in Hh.
    + intros i j ri rj h Hij [Hi|Hi]%Hnew [Hj|Hj]%Hnew Hh;
        rewrite ?Hj; rewrite ?Hi in Hh; try (by apply elem_of_nil in Hh);
        try apply not_elem_of_nil. eauto.
Qed.

Lemma separated_worker_step drv i p : separated p -> separated (worker_step drv i p).
Proof.
  intros [Hbound Hdisj]. unfold worker_step.
  destruct (p_threads p !! i) as [r|] eqn:Hi; [|done].
  destruct (Runner.step _ _ r) as [w' r'] eqn:Hstep.
  apply step_handles in Hstep as [Hnext Hnew].
  assert (Hlt : (i < length (p_threads p))%nat) by (by eapply lookup_lt_Some).
  split; simpl.
  - intros j rj h Hj Hh.
    destruct (decide (i = j)) as [<-|Hne].
    + rewrite list_lookup_insert_eq in Hj by done. injection Hj as <-.
      destruct (Hnew h Hh) as [Hold|[-> ->]]; [|lia].
      specialize (Hbound i r h Hi Hold). lia.
    + rewrite list_lookup_insert_ne in Hj by done.
      specialize (Hbound j rj h Hj Hh). lia.
  - intros j k rj rk h Hjk Hj Hk Hh Hh'.
    destruct (decide (i = j)) as [<-|Hij].
    + rewrite list_lookup_insert_eq in Hj by done. injection Hj as <-.
      rewrite list_lookup_insert_ne in Hk by done.
      destruct (Hnew h Hh) as [Hold|[-> _]].
      * by eapply (Hdisj i k r rk h).
      * specialize (Hbound k rk _ Hk Hh'). lia.
    + rewrite list_lookup_insert_ne in Hj by done.
      destruct (decide (i = k)) as [<-|Hik].
      * rewrite list_lookup_insert_eq in Hk by done. injection Hk as <-.
        destruct (Hnew h Hh') as [Hold|[-> _]].
        -- by eapply (Hdisj j i rj r h).
        -- specialize (Hbound j rj _ Hj Hh). lia.
      * rewrite list_lookup_insert_ne in Hk by done.
        by eapply (Hdisj j k rj rk h).
Qed.

Lemma separated_step drv p t : separated p -> separated (step drv p t).
Proof.
  intros Hsep. unfold step. destruct (p_status p); [|done..].
  destruct t; [by apply separated_main_step|by apply separated_worker_step].
Qed.

Lemma separated_run drv sched p : separated p -> separated (run drv sched p).
Proof.
  revert p. induction sched as [|t sched IH]; intros p Hsep; [done|].
  rewrite run_cons. by apply IH, separated_step.
Qed.

(** *** One runner for each device *)

Lemma started_length gpus k threads :
  (k <= length gpus)%nat -> started gpus k threads -> length threads = k.
Proof.
  intros Hk [Hmap _]. apply (f_equal length) in Hmap.
  rewrite length_map, length_take in Hmap. lia.
Qed.

Lemma started_spawn gpus k threads platform device :
  (k <= length gpus)%nat -> gpus !! k = Some (platform, device) ->
  started gpus k threads ->
  started gpus (S k) (threads ++ [spawn platform device (Z.of_nat k)]).
Proof.
  intros Hk Hgpu Hstarted. pose proof (started_length _ _ _ Hk Hstarted) as Hlen.
  destruct Hstarted as [Hmap Hidx]. split.
  - rewrite map_app, Hmap. simpl. by erewrite take_S_r.
  - intros i r [?|[Hi H]]%lookup_app_Some; [eauto|].
    apply list_lookup_singleton_Some in H as [Hi' <-]. simpl. f_equal. lia.
Qed.

Lemma started_update gpus k threads i r r' :
  threads !! i = Some r -> target r' = target r -> r_index r' = r_index r ->
  started gpus k threads -> started gpus k (<[i := r']> threads).
Proof.
  intros Hi Htarget Hindex [Hmap Hidx]. split.
  - rewrite list_fmap_insert, Htarget, <- Hmap.
    apply list_insert_id. by rewrite list_lookup_fmap, Hi.
  - intros j rj Hj. destruct (decide (i = j)) as [<-|Hne].
    + rewrite list_lookup_insert_eq in Hj by (by eapply lookup_lt_Some).
      injection Hj as <-. rewrite Hindex. eauto.
    + rewrite list_lookup_insert_ne in Hj by done. eauto.
Qed.

Section Started.
Variable drv : Driver.
Variable out : list line.
Variable gpus : list gpu.
Hypothesis Hsetup : setup drv = (out, Start gpus).

Lemma main_inv_boot : main_inv gpus boot.
Proof. done. Qed.

Lemma main_inv_main_step p : main_inv gpus p -> main_inv gpus (main_step drv p).
Proof.
  unfold main_inv, main_step.
  destruct (p_main p) as [|gs k|k|] eqn:Hmain; [| | |by rewrite Hmain].
  - rewrite Hsetup. simpl. intros ->. split; [done|]. split; [lia|].
    split; [by rewrite take_0|]. intros i r. by rewrite lookup_nil.
  - intros (-> & Hk & Hstarted).
    destruct (gpus !! k) as [[pf dev]|] eqn:Hgpu; simpl.
    + split; [done|]. split; [apply lookup_lt_Some in Hgpu; lia|].
      by apply started_spawn.
    + apply lookup_ge_None in Hgpu. by replace (length gpus) with k by lia.
  - intros Hstarted. destruct (p_threads p !! k) as [t|]; [|done].
    case_decide; [done|by rewrite Hmain].
Qed.

Lemma main_inv_worker_step i p : main_inv gpus p -> main_inv gpus (worker_step drv i p).
Proof.
  unfold worker_step.
  destruct (p_threads p !! i) as [r|] eqn:Hi; [|done].
  destruct (Runner.step _ _ r) as [w' r'] eqn:Hstep.
  apply step_identity in Hstep as (Hpf & Hdev & Hidx).
  assert (Htarget : target r' = target r) by (unfold target; congruence).
  unfold main_inv. simpl. destruct (p_main p) as [|gs k|k|].
  - intros Hnil. by rewrite Hnil in Hi.
  - intros (-> & Hk & Hstarted). eauto using started_update.
  - eauto using started_update.
  - eauto using started_update.
Qed.

Lemma main_inv_run sched p : main_inv gpus p -> main_inv gpus (run drv sched p).
Proof.
  revert p. induction sched as [|t sched IH]; intros p Hinv; [done|].
  rewrite run_cons. apply IH. unfold step.
  destruct (p_status p); [|done..].
  destruct t; [by apply main_inv_main_step|by apply main_inv_worker_step].
Qed.

(** With no other thread running in between, [main] starts the
    runner of every device and goes on to join them. *)
Lemma spawn_loop_runs k p :
  p_status p = Running -> p_main p = MainSpawn gpus k -> (k <= length gpus)%nat ->
  let p' := run drv (replicate (S (length gpus - k)) Main) p in
  p_status p' = Running /\ p_main p' = MainJoin 0.
Proof.
  remember (length gpus - k)%nat as n eqn:Hn.
  revert k p Hn. induction n as [|n IH]; intros k p Hn Hrun Hmain Hk p'; subst p'.
  - simpl. unfold step, main_step. rewrite Hrun, Hmain.
    rewrite (proj2 (lookup_ge_None gpus k)) by lia. done.
  - change (replicate (S (S n)) Main) with (Main :: replicate (S n) Main).
    rewrite run_cons.
    destruct (lookup_lt_is_Some_2 gpus k) as [[pf dev] Hgpu]; [lia|].
    apply (IH (S k)); [lia| | |lia];
      unfold step, main_step; rewrite Hrun, Hmain, Hgpu; done.
Qed.

Lemma step_boot_main :
  step drv boot Main
  = {| p_main := MainSpawn gpus 0; p_threads := [];
       p_world := prints out (p_world boot); p_status := Running |}.
Proof.
  unfold step. change (p_status boot) with Running. cbv iota beta.
  unfold main_step. change (p_main boot) with MainSetup. cbv iota beta.
  by rewrite Hsetup.
Qed.

Lemma all_started :
  let p := run drv (replicate (2 + length gpus) Main) boot in
  p_status p = Running /\ p_main p = MainJoin 0 /\
  started gpus (length gpus) (p_threads p).
Proof.
  intros p.
  assert (Hp : p = run drv (replicate (S (length gpus - 0)) Main) (step drv boot Main)).
  { subst p. rewrite Nat.sub_0_r. done. }
  destruct (spawn_loop_runs 0 (step drv boot Main)) as [Hrun Hmain].
  - by rewrite step_boot_main.
  - by rewrite step_boot_main.
  - lia.
  - rewrite <- Hp in Hrun, Hmain. split; [done|]. split; [done|].
    pose proof (main_inv_run (replicate (2 + length gpus) Main) boot main_inv_boot) as Hinv.
    fold p in Hinv. unfold main_inv in Hinv. by rewrite Hmain in Hinv.
Qed.

End Started.

(** *** A thread on its own *)

Lemma worker_step_eq drv i p r :
  p_threads p !! i = Some r ->
  let d := drv_device drv (r_device r) in
  worker_step drv i p
  = {| p_main := p_main p;
       p_threads := <[i := (Runner.step d (p_world p) r).2]> (p_threads p);
       p_world := (Runner.step d (p_world p) r).1;
       p_status := if is_thrown (r_pc (Runner.step d (p_world p) r).2)
                   then Terminated else Running |}.
Proof.
  intros Hi d. unfold worker_step. rewrite Hi. fold d.
  by destruct (Runner.step d (p_world p) r).
Qed.


(** *** Failures inside the loop *)


Lemma left_loop_not_thrown r0 r : left_loop r0 r -> is_thrown (r_pc r) = false.
Proof. by intros ([-> | ->] & _). Qed.



(** C6. When [clCreateCommandQueueWithProperties] is refused and
    [clCreateCommandQueue] succeeds, the runner prints the notice, takes
    the queue and goes on: step for step it is in the state, and holds
    the objects, of a run in which the first call was accepted; after a
    setup without another error it is at the head of its loop, and the
    notice is all that was printed in addition; the process keeps
    running. *)
Theorem queue_fallback_proceeds d :
  dd_createCommandQueueWithProperties d <> CL_SUCCESS ->
  dd_createCommandQueue d = CL_SUCCESS ->
  (forall w r, r_pc r = PcQueue ->
     Runner.step d w r
     = (alloc (print (fallback_notice r (dd_createCommandQueueWithProperties d)) w),
        goto PcProgram (set_queue (w_next w) r)) /\
     Runner.step (with_modern_queue d) w r
     = (alloc w, goto PcProgram (set_queue (w_next w) r))) /\
  (forall n w r,
     (steps d n w r).2 = (steps (with_modern_queue d) n w r).2 /\
     w_next (steps d n w r).1 = w_next (steps (with_modern_queue d) n w r).1) /\
  (setup_calls_succeed d ->
   forall platform device index w,
     steps d 10 w (spawn platform device index)
     = ({| w_out := w_out w ++
                    [starting_line d index;
                     fallback_notice (spawn platform device index)
                       (dd_createCommandQueueWithProperties d);
                     entering_line index];
           w_next := (5 + w_next w)%nat |},
        in_loop platform device index w) /\
     steps (with_modern_queue d) 10 w (spawn platform device index)
     = ({| w_out := w_out w ++ [starting_line d index; entering_line index];
           w_next := (5 + w_next w)%nat |},
        in_loop platform device index w)) /\
  (forall drv p i r,
     drv_device drv (r_device r) = d ->
     p_status p = Running -> p_threads p !! i = Some r -> r_pc r = PcQueue ->
     p_status (step drv p (Worker i)) = Running).
Proof.
  intros Hmodern Hlegacy. split; [|split; [|split]].
  - intros w r Hpc. split; [by apply step_queue_fallback|by apply step_queue_modern].
  - intros n w r. by apply fallback_simulation.
  - intros Hcalls platform device index w. split.
    + by apply setup_fallback.
    + by apply (setup_modern (with_modern_queue d)).
  - intros drv p i r Hd Hrun Hi Hpc. unfold step. rewrite Hrun.
    rewrite (worker_step_eq drv i p r Hi), Hd.
    by rewrite step_queue_fallback.
Qed.

(** C1, as the program has it.  A failed [clBuildProgram] in one thread:
    the thread prints the build log and throws; nothing in
    [run_load_on_device] catches the exception, so it leaves the thread
    and the process is terminated, whatever the other threads were
    doing. *)
Theorem build_failure_terminates_process drv p i r :
  p_status p = Running -> p_threads p !! i = Some r -> r_pc r = PcBuild ->
  let d := drv_device drv (r_device r) in
  dd_buildProgram d <> CL_SUCCESS ->
  let p' := step drv p (Worker i) in
  p_world p' = print (build_log_line r (dd_buildLog d)) (p_world p) /\
  p_threads p'
  = <[i := goto (PcThrown ("clBuildProgram failed with error code "
                           +:+ pretty (dd_buildProgram d))) r]> (p_threads p) /\
  p_status p' = Terminated /\
  forall sched, run drv sched p' = p'.
Proof.
  intros Hrun Hi Hpc d Herr p'.
  assert (Hp' : p' = {| p_main := p_main p;
             p_threads := <[i := goto (PcThrown ("clBuildProgram failed with error code "
                                                 +:+ pretty (dd_buildProgram d))) r]>
                            (p_threads p);
             p_world := print (build_log_line r (dd_buildLog d)) (p_world p);
             p_status := Terminated |}).
  { subst p'. unfold step. rewrite Hrun, (worker_step_eq drv i p r Hi). fold d.
    by rewrite step_build_failure. }
  rewrite Hp'. do 3 (split; [done|]). intros sched. by apply run_stopped.
Qed.

(** *** Enumeration *)


Lemma setup_enumerated drv :
  drv_platformCount_err drv = CL_SUCCESS -> drv_platforms drv <> [] ->
  drv_platformList_err drv = CL_SUCCESS ->
  setup drv
  = match enumerate_platforms (drv_platforms drv) [] with
    | (out, Throw what) => (out, Caught what)
    | (out, Ok []) => (out ++ [no_gpus_line], Return 1)
    | (out, Ok gpus) => (out ++ [found_line (length gpus)], Start gpus)
    end.
Proof.
  intros Hcount Hsome Hlist. unfold setup. rewrite Hcount, Hlist. simpl.
  by destruct (drv_platforms drv).
Qed.


(** C9, as the program has it.  A failed count of the platforms, no
    platform, or a failed listing of the platforms ends [main] with
    status 1 and no thread.  On a platform of the vendor, a failed count
    of the devices is a warning and the loop goes on with the next
    platform as if this one were not there ([CL_DEVICE_NOT_FOUND] does
    the same without a warning); a failed listing of the devices throws,
    which ends the loop and [main] with status 1. *)
Theorem enumeration_failures :
  (forall drv,
     drv_platformCount_err drv <> CL_SUCCESS \/ drv_platforms drv = [] \/
     drv_platformList_err drv <> CL_SUCCESS ->
     p_status (step drv boot Main) = Exited 1 /\
     p_threads (step drv boot Main) = []) /\
  (forall p rest found,
     vendor_matches (pd_vendor p) = true ->
     (pd_deviceCount_err p <> CL_SUCCESS ->
      enumerate_platforms (p :: rest) found
      = if decide (pd_deviceCount_err p = CL_DEVICE_NOT_FOUND)
        then enumerate_platforms rest found
        else say (count_warning p) (enumerate_platforms rest found)) /\
     (pd_deviceCount_err p = CL_SUCCESS -> pd_devices p <> [] ->
      pd_deviceList_err p <> CL_SUCCESS ->
      enumerate_platforms (p :: rest) found
      = ([], Throw ("clGetDeviceIDs (list) failed with error code "
                    +:+ pretty (pd_deviceList_err p))))) /\
  (forall drv out what,
     drv_platformCount_err drv = CL_SUCCESS -> drv_platforms drv <> [] ->
     drv_platformList_err drv = CL_SUCCESS ->
     enumerate_platforms (drv_platforms drv) [] = (out, Throw what) ->
     step drv boot Main
     = {| p_main := MainReturned; p_threads := [];
          p_world := {| w_out := out ++ [runtime_error_line what]; w_next := 1%nat |};
          p_status := Exited 1 |}).
Proof.
  split; [|split].
  - intros drv Hfail. unfold step. change (p_status boot) with Running. cbv iota beta.
    unfold main_step. change (p_main boot) with MainSetup. cbv iota beta.
    unfold setup.
    destruct (Z.eqb_spec (drv_platformCount_err drv) CL_SUCCESS) as [Hcount|Hcount];
      [|done].
    destruct (drv_platforms drv) as [|pf pfs] eqn:Hpfs; [done|]. simpl.
    destruct Hfail as [?|[?|Hlist]]; [done..|].
    by rewrite check_cl_error_failure.
  - intros p rest found Hvendor. split.
    + intros Hcount. simpl. rewrite Hvendor.
      destruct (Z.eqb_spec (pd_deviceCount_err p) CL_DEVICE_NOT_FOUND) as [Hnf|Hnf];
        case_decide; try done.
      by destruct (Z.eqb_spec (pd_deviceCount_err p) CL_SUCCESS).
    + intros Hcount Hdevices Hlist. simpl. rewrite Hvendor, Hcount. simpl.
      destruct (pd_devices p); [done|]. simpl.
      by rewrite check_cl_error_failure.
  - intros drv out what Hcount Hsome Hlist Henum.
    unfold step. change (p_status boot) with Running. cbv iota beta.
    unfold main_step. change (p_main boot) with MainSetup. cbv iota beta.
    by rewrite setup_enumerated, Henum.
Qed.

(** C8, as the program has it. Once a device was discovered, the
    threads are at every moment the runners of the first devices of
    the list, one each and in order, with all of them there once
    [main] has left the loop that starts them, which it does when no
    other thread runs in between; and no two threads hold the same
    context, queue, program, kernel or buffer. But a runner that
    throws while [main] is still in that loop, at its device [k], ends
    the process there: whatever is scheduled afterwards, [main] stays
    in the loop and the threads stay the runners of the first [k]
    devices, fewer than were discovered. *)
Theorem runners_of_discovered_devices drv sched out gpus :
  setup drv = (out, Start gpus) ->
  let p := run drv sched boot in
  gpus <> [] /\
  (exists k, (k <= length gpus)%nat /\ started gpus k (p_threads p) /\
             (spawning_done (p_main p) = true -> k = length gpus)) /\
  (let q := run drv (replicate (2 + length gpus) Main) boot in
   p_main q = MainJoin 0 /\ started gpus (length gpus) (p_threads q)) /\
  (forall i j ri rj, i <> j ->
     p_threads p !! i = Some ri -> p_threads p !! j = Some rj ->
     forall h, h ∈ handles ri -> h ∉ handles rj) /\
  (forall k i r,
     p_status p = Running -> p_main p = MainSpawn gpus k ->
     (k < length gpus)%nat -> p_threads p !! i = Some r ->
     is_thrown (r_pc (Runner.step (drv_device drv (r_device r)) (p_world p) r).2) = true ->
     forall rest,
       let q := run drv (Worker i :: rest) p in
       p_status q = Terminated /\ p_main q = MainSpawn gpus k /\
       started gpus k (p_threads q) /\
       (length (p_threads q) < length gpus)%nat).
Proof.
  intros Hsetup p.
  pose proof (main_inv_run drv out gpus Hsetup sched boot (main_inv_boot gpus)) as Hinv.
  fold p in Hinv.
  split; [by eapply setup_start_nonempty|]. split; [|split; [|split]].
  - unfold main_inv in Hinv.
    destruct (p_main p) as [|gs k|k|].
    + exists 0%nat. split; [lia|]. split; [|done].
      rewrite Hinv. split; [by rewrite take_0|]. intros i r. by rewrite lookup_nil.
    + destruct Hinv as (_ & Hk & Hstarted). exists k. by split; [|split].
    + exists (length gpus). by split; [|split].
    + exists (length gpus). by split; [|split].
  - destruct (all_started drv out gpus Hsetup) as (_ & Hmain & Hstarted). by split.
  - intros i j ri rj Hij Hi Hj h.
    pose proof (separated_run drv sched boot separated_boot) as [_ Hdisj]. eauto.
  - intros k i r Hrun Hmain Hk Hi Hthrown rest q.
    assert (Hstep : step drv p (Worker i) = worker_step drv i p)
      by (unfold step; by rewrite Hrun).
    assert (Hstatus : p_status (worker_step drv i p) = Terminated).
    { rewrite (worker_step_eq drv i p r Hi). cbn [p_status]. by rewrite Hthrown. }
    assert (Hq : q = worker_step drv i p).
    { subst q. rewrite run_cons, Hstep. apply run_stopped. by rewrite Hstatus. }
    assert (Hmain' : p_main q = MainSpawn gpus k).
    { rewrite Hq, (worker_step_eq drv i p r Hi). done. }
    pose proof (main_inv_worker_step drv gpus i p Hinv) as Hinv'.
    rewrite <- Hq in Hinv', Hstatus. unfold main_inv in Hinv'. rewrite Hmain' in Hinv'.
    destruct Hinv' as (_ & Hle & Hstarted).
    split; [done|]. split; [done|]. split; [done|].
    rewrite (started_length gpus k _ Hle Hstarted). done.
Qed.

End ProcFacts.

(** ** A dispatch and the loop of dispatches *)

Module DispatchFacts.
Import F32 Kernel Host Device KernelFacts.

Section WithMath.
Variables sinf cosf : float -> float.

Lemma load_kernel_None iters (data : list float) count id :
  load_kernel_n sinf cosf iters data count id = None
  <-> id < count /\ (id < 0 \/ Z.of_nat (length data) <= id).
Proof.
  unfold load_kernel_n.
  destruct (Z.ltb_spec id count) as [Hlt|Hge]; [|split; [done|lia]].
  destruct (Z.ltb_spec id 0) as [Hneg|Hpos]; [split; [auto|done]|].
  destruct (data !! Z.to_nat id) as [val|] eqn:Hval.
  - apply lookup_lt_Some in Hval. split; [done|lia].
  - apply lookup_ge_None in Hval. split; [lia|done].
Qed.

Lemma dispatch_defined iters (data : list float) count sched :
  count <= Z.of_nat (length data) -> Forall (fun id => 0 <= id) sched ->
  exists out, dispatch_n sinf cosf iters data count sched = Some out /\
              length out = length data.
Proof.
  intros Hcount Hsched. revert data Hcount.
  induction Hsched as [|id sched Hid _ IH]; intros data Hcount; [by exists data|].
  rewrite dispatch_cons.
  destruct (load_kernel_n sinf cosf iters data count id) as [d|] eqn:Hd.
  - pose proof (load_kernel_length _ _ _ _ _ _ _ Hd) as Hlen. simpl.
    destruct (IH d) as (out & Hout & Hlen'); [lia|].
    exists out. split; [done|lia].
  - apply load_kernel_None in Hd. lia.
Qed.

(** X1. The guard [id < count] keeps a dispatch inside the buffer
    exactly when [count] is at most the length of the buffer: then every
    work item of a non-negative id, whatever the size of the ND range,
    runs and the buffer keeps its length; a work item below [count] and
    outside the buffer is an undefined access. *)
Theorem dispatch_in_bounds iters (data : list float) count :
  (forall sched,
     count <= Z.of_nat (length data) -> Forall (fun id => 0 <= id) sched ->
     exists out, dispatch_n sinf cosf iters data count sched = Some out /\
                 length out = length data) /\
  (forall id rest,
     id < count -> id < 0 \/ Z.of_nat (length data) <= id ->
     dispatch_n sinf cosf iters data count (id :: rest) = None).
Proof.
  split; [apply dispatch_defined|].
  intros id rest Hlt Hout. rewrite dispatch_cons.
  by rewrite (proj2 (load_kernel_None iters data count id)).
Qed.

Lemma load_kernel_lookup iters (data out : list float) count id (j : nat) val :
  load_kernel_n sinf cosf iters data count id = Some out ->
  data !! j = Some val ->
  out !! j = Some (if decide (Z.of_nat j = id /\ id < count)
                   then kernel_value sinf cosf iters id val else val).
Proof.
  intros Hout Hval.
  destruct (load_kernel_inv _ _ _ _ _ _ _ Hout) as [->|(v & Hid & Hv & ->)].
  - case_decide as H; [|done]. destruct H as [<- Hlt].
    destruct (load_kernel_own _ _ _ _ _ _ _ val Hlt ltac:(by rewrite Nat2Z.id) Hout) as [_ H].
    rewrite Nat2Z.id in H. by rewrite H.
  - case_decide as H.
    + destruct H as [<- _]. rewrite Nat2Z.id in *.
      assert (v = val) as -> by congruence.
      apply list_lookup_insert_eq. by eapply lookup_lt_Some.
    + rewrite list_lookup_insert_ne by lia. done.
Qed.

Lemma dispatch_lookup iters count (sched : list Z) (data out : list float) :
  NoDup sched ->
  dispatch_n sinf cosf iters data count sched = Some out ->
  forall (j : nat) val, data !! j = Some val ->
    out !! j = Some (if decide (Z.of_nat j ∈ sched /\ Z.of_nat j < count)
                     then kernel_value sinf cosf iters (Z.of_nat j) val else val).
Proof.
  intros Hnodup. revert data.
  induction Hnodup as [|id sched Hnotin _ IH]; intros data Hout j val Hval.
  - injection Hout as <-. case_decide as H; [|done]. destruct H as [H _].
    by apply elem_of_nil in H.
  - rewrite dispatch_cons in Hout.
    destruct (load_kernel_n sinf cosf iters data count id) as [d|] eqn:Hd; [|done].
    simpl in Hout.
    pose proof (load_kernel_lookup _ _ _ _ _ _ _ Hd Hval) as Hj.
    rewrite (IH d Hout j _ Hj).
    f_equal. pose proof (elem_of_cons sched (Z.of_nat j) id) as Hcons.
    destruct (decide (Z.of_nat j = id)) as [<-|Hne];
      repeat case_decide; try done; exfalso; tauto.
Qed.

Lemma dispatch_length iters count (sched : list Z) (data out : list float) :
  dispatch_n sinf cosf iters data count sched = Some out -> length out = length data.
Proof.
  revert data. induction sched as [|id sched IH]; intros data Hout.
  - by injection Hout as <-.
  - rewrite dispatch_cons in Hout.
    destruct (load_kernel_n sinf cosf iters data count id) as [d|] eqn:Hd; [|done].
    rewrite (IH d Hout). by eapply load_kernel_length.
Qed.

(** X2. A dispatch of distinct work items gives a buffer of the same
    length in which the element [j] is the recurrence's value on the
    old element [j] when [j] is one of the work items and below
    [count], and the old element otherwise. *)
Theorem dispatch_pointwise iters count (sched : list Z) (data out : list float) :
  NoDup sched ->
  dispatch_n sinf cosf iters data count sched = Some out ->
  length out = length data /\
  forall (j : nat) val, data !! j = Some val ->
    out !! j = Some (if decide (Z.of_nat j ∈ sched /\ Z.of_nat j < count)
                     then kernel_value sinf cosf iters (Z.of_nat j) val else val).
Proof.
  intros Hnodup Hout. split.
  - by eapply dispatch_length.
  - by apply dispatch_lookup.
Qed.

End WithMath.
End DispatchFacts.

Module LoopFacts.
Import F32 Kernel Host Device KernelFacts HostFacts KernelBounds DispatchFacts.

Local Abbreviation finite := (fun val : float => is_finite val = true /\ valid val = true).

Lemma work_items_spec n id : id ∈ work_items n <-> 0 <= id < n.
Proof.
  unfold work_items. rewrite list_elem_of_fmap. split.
  - intros (k & -> & Hk%elem_of_seq). lia.
  - intros Hid. exists (Z.to_nat id). split; [lia|]. apply elem_of_seq. lia.
Qed.

Lemma work_items_NoDup n : NoDup (work_items n).
Proof.
  unfold work_items. apply NoDup_fmap_2; [|apply NoDup_seq].
  intros a b. lia.
Qed.

Lemma work_items_length n : length (work_items n) = Z.to_nat n.
Proof. unfold work_items. by rewrite length_map, length_seq. Qed.

(** A property checked on [0, ..., n - 1] holds of every number of the
    range. *)
Lemma checked_below (P : Z -> bool) n r :
  forallb P (work_items n) = true -> 0 <= r < n -> P r = true.
Proof.
  intros Hall Hr. rewrite forallb_forall in Hall. apply Hall.
  apply list_elem_of_In, work_items_spec. done.
Qed.

Lemma seed_finite i : finite (seed i).
Proof.
  pose proof (Z.mod_pos_bound i 100 ltac:(lia)) as Hr.
  pose proof (checked_below (fun r => is_finite (seed r) && valid (seed r)) 100 (i mod 100))
    as H.
  cbv beta in H. apply andb_true_iff in H; [|by vm_compute|done].
  unfold seed in *. by rewrite Z.mod_mod in H.
Qed.

Lemma host_data_finite size : Forall finite (host_data_n size).
Proof.
  apply Forall_lookup. intros j val Hj.
  assert (Hlt : (j < Z.to_nat size)%nat).
  { apply lookup_lt_Some in Hj. unfold host_data_n in Hj.
    by rewrite fill_loop_length, length_replicate in Hj. }
  rewrite <- (Nat2Z.id j), host_data_n_lookup in Hj by lia.
  injection Hj as <-. apply seed_finite.
Qed.

Lemma host_data_length size : length (host_data_n size) = Z.to_nat size.
Proof. unfold host_data_n. by rewrite fill_loop_length, length_replicate. Qed.

Section WithMath.
Variables sinf cosf : float -> float.
Hypothesis sinf_unit : forall x,
  is_finite x = true -> valid x = true -> valid (sinf x) = true /\ abs_le_one (sinf x) = true.
Hypothesis cosf_unit : forall x,
  is_finite x = true -> valid x = true -> valid (cosf x) = true /\ abs_le_one (cosf x) = true.

Lemma kernel_value_finite id val :
  - 2 ^ 31 <= id < 2 ^ 31 -> finite val ->
  finite (kernel_value sinf cosf inner_iterations id val).
Proof.
  intros Hid Hval. apply within_iff. unfold kernel_value.
  apply for_loop_within; [done|done|lia|lia| |by apply within_iff].
  unfold inner_iterations. rewrite Z2Nat.id by lia. lia.
Qed.

Lemma dispatch_finite (sched : list Z) (data out : list float) count :
  Forall (fun id => - 2 ^ 31 <= id < 2 ^ 31) sched -> Forall finite data ->
  dispatch sinf cosf data count sched = Some out -> Forall finite out.
Proof.
  unfold dispatch. intros Hsched. revert data.
  induction Hsched as [|id sched Hid _ IH]; intros data Hdata Hout.
  - by injection Hout as <-.
  - rewrite dispatch_cons in Hout.
    destruct (load_kernel_n sinf cosf inner_iterations data count id) as [d|] eqn:Hd; [|done].
    apply (IH d); [|done].
    destruct (load_kernel_inv _ _ _ _ _ _ _ Hd) as [->|(val & _ & Hval & ->)]; [done|].
    apply Forall_insert; [done|]. apply kernel_value_finite; [done|].
    rewrite Forall_lookup in Hdata. eauto.
Qed.

(** X3. With [sin] and [cos] returning numbers of magnitude at most 1 on
    finite arguments: the passes of the loop, each over the whole range
    and in any order of its work items, never leave the buffer, keep its
    length and keep every element finite, starting from the buffer the
    host has seeded. *)
Theorem loop_keeps_buffer_finite size (scheds : list (list Z)) :
  0 <= size < 2 ^ 31 ->
  Forall (fun sched => sched ≡ₚ work_items size) scheds ->
  exists out,
    loop_buffer sinf cosf size scheds (host_data_n size) = Some out /\
    length out = Z.to_nat size /\
    Forall (fun val => is_finite val = true /\ valid val = true) out.
Proof.
  intros Hsize Hscheds.
  assert (Hgen : forall data, length data = Z.to_nat size -> Forall finite data ->
            exists out, loop_buffer sinf cosf size scheds data = Some out /\
                        length out = Z.to_nat size /\ Forall finite out).
  { induction Hscheds as [|sched scheds Hperm _ IH]; intros data Hlen Hdata.
    - by exists data.
    - assert (Hids : Forall (fun id => 0 <= id < size) sched).
      { apply Forall_forall. intros id Hin. apply work_items_spec. by rewrite <- Hperm. }
      destruct (dispatch_defined sinf cosf inner_iterations data size sched)
        as (d & Hd & Hlen'); [lia|by eapply Forall_impl; [done|]; simpl; lia|].
      simpl. unfold dispatch at 1. rewrite Hd.
      apply IH; [lia|].
      apply (dispatch_finite sched data d size); [|done|done].
      eapply Forall_impl; [done|]. simpl. lia. }
  apply Hgen; [apply host_data_length|apply host_data_finite].
Qed.

End WithMath.
End LoopFacts.

Module SeedFacts.
Import F32 Host Device HostFacts LoopFacts.

(** X4. Every element of the buffer the host has seeded is a finite
    number from [0.1f] up and below 100, and the buffer repeats with
    period 100. *)
Theorem host_data_values size :
  Forall (fun val => is_finite val = true /\ valid val = true /\
                     SFleb c0_1 val = true /\ SFltb val (of_Z 100) = true)
    (host_data_n size) /\
  (forall i, 0 <= i -> i + 100 < size ->
     host_data_n size !! Z.to_nat (i + 100) = host_data_n size !! Z.to_nat i).
Proof.
  split.
  - apply Forall_lookup. intros j val Hj.
    assert (Hlt : (j < Z.to_nat size)%nat).
    { apply lookup_lt_Some in Hj. by rewrite host_data_length in Hj. }
    rewrite <- (Nat2Z.id j), host_data_n_lookup in Hj by lia.
    injection Hj as <-.
    pose proof (Z.mod_pos_bound (Z.of_nat j) 100 ltac:(lia)) as Hr.
    pose proof (checked_below
                  (fun r => is_finite (seed r) && valid (seed r)
                            && SFleb c0_1 (seed r) && SFltb (seed r) (of_Z 100))
                  100 (Z.of_nat j mod 100)) as H.
    cbv beta in H.
    assert (Hseed : seed (Z.of_nat j mod 100) = seed (Z.of_nat j))
      by (unfold seed; by rewrite Z.mod_mod).
    rewrite Hseed in H.
    specialize (H ltac:(by vm_compute) Hr).
    by repeat (apply andb_true_iff in H as [H ?]).
  - intros i Hi Hsize. rewrite !host_data_n_lookup by lia.
    unfold seed. do 3 f_equal.
    replace (i + 100) with (i + 1 * 100) by lia. apply Z_mod_plus_full.
Qed.

End SeedFacts.

(** ** Rounding to nearest, by value *)

Module Values.
Import Format Digits Locations Rounding Operations Bounds Order.

Lemma value_le_at a m1 e1 m2 e2 :
  a <= e1 -> a <= e2 ->
  value_le m1 e1 m2 e2 <-> m1 * 2 ^ (e1 - a) <= m2 * 2 ^ (e2 - a).
Proof.
  intros H1 H2. unfold value_le. set (mn := Z.min e1 e2).
  replace (e1 - a) with ((e1 - mn) + (mn - a)) by lia.
  replace (e2 - a) with ((e2 - mn) + (mn - a)) by lia.
  rewrite !pow2_add by lia.
  pose proof (pow2_pos (mn - a) ltac:(lia)) as Hc.
  generalize dependent (2 ^ (mn - a)). generalize (2 ^ (e1 - mn)). generalize (2 ^ (e2 - mn)).
  intros B A C HC. split; intros H; nia.
Qed.

Section WithFormat.
Variables prec emax : Z.
Hypothesis Hprec : 0 < prec.
Hypothesis Hemax : prec < emax.
Set Default Proof Using "All".

Local Abbreviation emin := (SpecFloat.emin prec emax).
Local Abbreviation fexp := (SpecFloat.fexp prec emax).
Local Abbreviation Zbounded := (Format.Zbounded prec emax).
Local Abbreviation below := (Format.below prec).

(** The value that [binary_round_aux] makes of [N / D * 2 ^ e]: with
    [f] the exponent of the format at that magnitude, it is [N / D]
    rounded to an integer at the exponent [f]. *)
Lemma binary_round_aux_value s N D e K :
  0 <= N -> 0 < D ->
  e <= fexp (Zdigits2 (N / D) + e) ->
  emin + prec <= K <= emax ->
  below K N D e ->
  let f := fexp (Zdigits2 (N / D) + e) in
  let D1 := 2 ^ (f - e) * D in
  exists m' e',
    binary_round_aux prec emax s (N / D) e (loc_of N D) = float_of s m' e' /\
    0 <= m' /\ (0 < m' -> Zbounded m' e') /\
    f <= e' /\ m' * 2 ^ (e' - f) = round_nearest_even (N / D1) (loc_of N D1) /\
    (emin + prec <= Zdigits2 (N / D) + e -> 2 ^ (prec - 1) <= N / D1).
Proof.
  intros HN HD Hreg HK [HeK Hbelow].
  set (m := N / D) in *. set (d := Zdigits2 m) in *.
  set (f := fexp (d + e)) in *. cbv zeta.
  assert (Hm : 0 <= m) by (apply Z.div_pos; lia).
  assert (Hd : 0 <= d) by apply Zdigits2_nonneg.
  assert (HmD : m * D <= N < (m + 1) * D).
  { pose proof (Z.div_mod N D ltac:(lia)). pose proof (Z.mod_pos_bound N D HD).
    fold m in H. nia. }
  set (n := f - e). assert (Hn : 0 <= n) by (unfold n; lia).
  set (D1 := 2 ^ n * D).
  assert (Hpn : 0 < 2 ^ n) by (by apply pow2_pos).
  assert (HD1 : 0 < D1) by (unfold D1; nia).
  set (m1 := N / D1).
  assert (Hm1 : m1 = m / 2 ^ n).
  { unfold m1, D1, m. rewrite (Z.mul_comm (2 ^ n) D). by rewrite Z.div_div by lia. }
  assert (Hd1 : Zdigits2 m1 = Z.max 0 (d - n)).
  { rewrite Hm1. by apply Zdigits2_shiftr. }
  set (mr := round_nearest_even m1 (loc_of N D1)).
  pose proof (round_nearest_even_bounds N D1 HN HD1) as Hmr. fold m1 mr in Hmr.
  assert (Hm1pos : 0 <= m1) by (unfold m1; apply Z.div_pos; lia).
  assert (Hbra : forall n2, n2 = Z.max 0 (fexp (Zdigits2 mr + f) - f) ->
            binary_round_aux prec emax s m e (loc_of N D)
            = match mr / 2 ^ n2 with
              | Z0 => S754_zero s
              | Zpos p => if f + n2 <=? emax - prec
                          then S754_finite s p (f + n2) else S754_infinity s
              | Zneg _ => S754_nan
              end).
  { intros n2 Hn2. unfold binary_round_aux.
    pose proof (shr_fexp_spec prec emax Hprec Hemax N D e HN HD) as H1. cbv zeta in H1.
    fold m d f in H1. rewrite Z.max_r in H1 by lia. fold n D1 m1 in H1.
    rewrite H1. rewrite shr_record_of_loc_m, loc_of_shr_record_of_loc. fold mr.
    replace (e + n) with f by (unfold n; lia).
    destruct (shr_fexp_exact prec emax Hprec Hemax mr f ltac:(lia)) as [H2 H3]. rewrite <- Hn2 in H2, H3.
    destruct (shr_fexp prec emax mr f loc_Exact) as [mrs'' e'']. cbn [fst snd] in H2, H3.
    cbv beta iota. by rewrite H2, H3. }
  pose proof (fexp_ge_emin prec emax Hprec Hemax (d + e)) as Hfmin. fold f in Hfmin.
  pose proof (emin_le prec emax Hprec Hemax) as Hemin.
  destruct (Z.lt_ge_cases (d + e - prec) emin) as [HB|HA].
  - assert (Hf : f = emin) by (unfold f, SpecFloat.fexp; lia).
    assert (Hd1' : Zdigits2 m1 <= prec - 1) by lia.
    assert (Hm1lt : m1 < 2 ^ (prec - 1)).
    { destruct (Z.eq_dec m1 0) as [->|]; [apply pow2_pos; lia|].
      pose proof (Zdigits2_spec m1 ltac:(lia)) as [_ Hhi].
      pose proof (pow2_le (Zdigits2 m1) (prec - 1) ltac:(pose proof (Zdigits2_nonneg m1); lia)).
      lia. }
    assert (Hdr : Zdigits2 mr <= prec).
    { apply Zdigits2_le; [lia|]. split; [lia|].
      replace prec with (Z.succ (prec - 1)) at 1 by lia.
      rewrite Z.pow_succ_r by lia. lia. }
    pose proof (Zdigits2_nonneg mr) as Hdr0.
    assert (Hfr : fexp (Zdigits2 mr + f) = f) by (unfold SpecFloat.fexp; lia).
    rewrite (Hbra 0) by (rewrite Hfr; lia).
    change (2 ^ 0) with 1. rewrite Z.div_1_r, Z.add_0_r.
    exists mr, f. split; [|split; [lia|split; [|split; [lia|split]]]].
    + destruct mr as [|p|p]; [done| |lia].
      by destruct (Z.leb_spec f (emax - prec)); [|lia].
    + intros Hpos. split; [done|lia].
    + rewrite Z.sub_diag. simpl. lia.
    + lia.
  - assert (Hf : f = d + e - prec) by (unfold f, SpecFloat.fexp; lia).
    assert (Hmpos : 0 < m).
    { destruct (Z.eq_dec m 0) as [Hz|]; [|lia].
      unfold d in Hf. rewrite Hz in Hf. simpl in Hf.
      unfold f, d in Hreg. rewrite Hz in Hreg. simpl in Hreg.
      unfold d in HA. rewrite Hz in HA. simpl in HA. lia. }
    pose proof (Zdigits2_spec m Hmpos) as [Hmlo Hmhi]. fold d in Hmlo, Hmhi.
    assert (Hdpos : 0 < d) by (unfold d; by apply Zdigits2_pos).
    assert (Hd1' : Zdigits2 m1 = prec) by lia.
    assert (Hm1pos' : 0 < m1).
    { destruct (Z.eq_dec m1 0) as [Hz|]; [|lia]. rewrite Hz in Hd1'. simpl in Hd1'. lia. }
    pose proof (Zdigits2_spec m1 Hm1pos') as [Hm1lo Hm1hi]. rewrite Hd1' in Hm1lo, Hm1hi.
    assert (HEK : d + e <= K).
    { assert (Hlt : 2 ^ d < 2 ^ (K + 1 - e)); [|apply pow2_lt_inv in Hlt; lia].
      pose proof (pow2_pos (d - 1) ltac:(lia)).
      pose proof (pow2_pos (K - prec - e) ltac:(lia)).
      pose proof (pow2_pos (prec + 1) ltac:(lia)).
      replace d with (Z.succ (d - 1)) by lia. rewrite Z.pow_succ_r by lia.
      replace (K + 1 - e) with ((prec + 1) + (K - prec - e)) by lia.
      rewrite pow2_add by lia. nia. }
    assert (Hcarry : mr < 2 ^ prec \/ (mr = 2 ^ prec /\ d + e < K)).
    { destruct (Z.lt_ge_cases mr (2 ^ prec)) as [|Hge]; [by left|right].
      split; [lia|]. destruct (Z.eq_dec (d + e) K) as [HE|]; [|lia].
      assert (mr <= 2 ^ prec - 1); [|lia].
      apply round_nearest_even_le; [done..|].
      unfold D1. replace n with (K - prec - e) by lia.
      replace (2 * (2 ^ prec - 1) + 1) with (2 ^ (prec + 1) - 1)
        by (rewrite Z.pow_add_r by lia; lia).
      lia. }
    destruct Hcarry as [Hnc|[Hc HEK']].
    + assert (Hdr : Zdigits2 mr = prec) by (apply Zdigits2_unique; lia).
      assert (Hfr : fexp (Zdigits2 mr + f) = f) by (unfold SpecFloat.fexp; lia).
      rewrite (Hbra 0) by (rewrite Hfr; lia).
      change (2 ^ 0) with 1. rewrite Z.div_1_r, Z.add_0_r.
      exists mr, f. split; [|split; [lia|split; [|split; [lia|split]]]].
      * destruct mr as [|p|p]; [lia| |lia].
        by destruct (Z.leb_spec f (emax - prec)); [|lia].
      * intros _. split; [done|lia].
      * rewrite Z.sub_diag. simpl. lia.
      * intros _. replace (prec - 1) with (prec - 1) by lia. lia.
    + assert (Hdr : Zdigits2 mr = prec + 1).
      { apply Zdigits2_unique; [lia|]. rewrite Hc.
        replace (prec + 1 - 1) with prec by lia.
        split; [lia|]. apply pow2_lt. lia. }
      assert (Hfr : fexp (Zdigits2 mr + f) = f + 1) by (unfold SpecFloat.fexp; lia).
      rewrite (Hbra 1) by (rewrite Hfr; lia).
      assert (Hhalf : mr / 2 ^ 1 = 2 ^ (prec - 1)).
      { rewrite Hc. change (2 ^ 1) with 2.
        replace prec with (Z.succ (prec - 1)) at 1 by lia.
        rewrite Z.pow_succ_r by lia. rewrite Z.mul_comm. apply Z.div_mul. lia. }
      rewrite Hhalf.
      pose proof (pow2_pos (prec - 1) ltac:(lia)) as Hpp.
      assert (Hdh : Zdigits2 (2 ^ (prec - 1)) = prec).
      { apply Zdigits2_unique; [lia|]. split; [lia|]. apply pow2_lt. lia. }
      exists (2 ^ (prec - 1)), (f + 1). split; [|split; [lia|split; [|split; [lia|split]]]].
      * destruct (2 ^ (prec - 1)) as [|p|p]; [lia| |lia].
        by destruct (Z.leb_spec (f + 1) (emax - prec)); [|lia].
      * intros _. unfold Format.Zbounded. rewrite Hdh. split; [unfold SpecFloat.fexp|]; lia.
      * replace (f + 1 - f) with 1 by lia. rewrite Hc. change (2 ^ 1) with 2.
        replace prec with (Z.succ (prec - 1)) at 2 by lia.
        rewrite Z.pow_succ_r by lia. lia.
      * intros _. lia.
Qed.

(** The same of [binary_round]. *)
Lemma binary_round_value s p e K :
  emin + prec <= K <= emax -> below_any prec K (Zpos p) e ->
  let f := fexp (Zpos (digits2_pos p) + e) in
  let ez := Z.min e f in
  let N := Zpos p * 2 ^ (e - ez) in
  exists m' e',
    binary_round prec emax s p e = float_of s m' e' /\
    0 <= m' /\ (0 < m' -> Zbounded m' e') /\ f <= e' /\
    m' * 2 ^ (e' - f) = round_nearest_even (N / 2 ^ (f - ez)) (loc_of N (2 ^ (f - ez))) /\
    (emin + prec <= Zpos (digits2_pos p) + e -> 2 ^ (prec - 1) <= N / 2 ^ (f - ez)).
Proof.
  intros HK Hbelow f ez N. unfold binary_round.
  pose proof (below_any_digits prec emax Hprec Hemax K (Zpos p) e ltac:(lia) Hbelow) as HdK.
  fold f.
  destruct (shl_align_spec p e f) as [Hmz Hez].
  destruct (shl_align p e f) as [mz ez']. cbn [fst snd] in Hmz, Hez.
  fold ez in Hmz, Hez. subst ez'. fold N in Hmz.
  assert (Hf : f <= K - prec) by (unfold f, SpecFloat.fexp, SpecFloat.emin in *; simpl in HdK; lia).
  assert (Hshift : 0 <= e - ez) by (unfold ez; lia).
  assert (Hdz : Zdigits2 (Zpos mz) + ez = Zpos (digits2_pos p) + e).
  { rewrite Hmz. unfold N. rewrite Zdigits2_shiftl by lia. simpl Zdigits2. lia. }
  pose proof (binary_round_aux_value s (Zpos mz) 1 ez K) as Haux.
  rewrite Z.div_1_r in Haux. unfold loc_of at 1 in Haux. rewrite Z.mod_1_r in Haux.
  simpl (0 =? 0) in Haux. cbv iota in Haux. cbv zeta in Haux.
  rewrite Hdz in Haux. fold f in Haux. rewrite Z.mul_1_r in Haux. rewrite Hmz in Haux.
  rewrite Hmz. apply Haux; [unfold N; lia|lia|unfold ez; lia|done|].
  split; [unfold ez; lia|]. rewrite Z.mul_1_r.
  destruct Hbelow as (a & Hae & HaK & Hlt). unfold N.
  destruct (Z.le_gt_cases a ez) as [Hle|Hgt].
  - replace (e - a) with ((e - ez) + (ez - a)) in Hlt by lia.
    replace (K - prec - a) with ((K - prec - ez) + (ez - a)) in Hlt by lia.
    rewrite (pow2_add (e - ez)), (pow2_add (K - prec - ez)) in Hlt by lia.
    pose proof (pow2_pos (ez - a) ltac:(lia)) as HC.
    generalize dependent (2 ^ (ez - a)). generalize (2 ^ (e - ez)).
    generalize (2 ^ (K - prec - ez)). generalize (2 ^ (prec + 1) - 1).
    intros T B A C Hlt HC. apply (Z.mul_lt_mono_pos_r C); [lia|]. nia.
  - replace (e - ez) with ((e - a) + (a - ez)) by lia.
    replace (K - prec - ez) with ((K - prec - a) + (a - ez)) by lia.
    rewrite (pow2_add (e - a)), (pow2_add (K - prec - a)) by lia.
    pose proof (pow2_pos (a - ez) ltac:(lia)) as HC.
    generalize dependent (2 ^ (a - ez)). generalize dependent (2 ^ (e - a)).
    generalize (2 ^ (K - prec - a)). generalize (2 ^ (prec + 1) - 1).
    intros T B A Hlt C HC.
    apply (Z.mul_lt_mono_pos_r C) in Hlt; [|lia]. nia.
Qed.

(** Rounding is monotone: the rounding of a number is not below a
    number of the format that the number is not below. *)
Lemma binary_round_ge s p e K m0 e0 :
  emin + prec <= K <= emax -> below_any prec K (Zpos p) e ->
  Zbounded m0 e0 -> 0 < m0 -> value_le m0 e0 (Zpos p) e ->
  exists p' e',
    binary_round prec emax s p e = S754_finite s p' e' /\
    value_le m0 e0 (Zpos p') e'.
Proof.
  intros HK Hbelow [Hcanon _] Hm0 Hle.
  destruct (binary_round_value s p e K HK Hbelow)
    as (m' & e' & Heq & Hm' & _ & Hfe & Hval & Hnormal).
  set (f := fexp (Zpos (digits2_pos p) + e)) in *.
  set (ez := Z.min e f) in *. set (N := Zpos p * 2 ^ (e - ez)) in *.
  assert (Hez : ez <= e /\ ez <= f) by (unfold ez; lia).
  pose proof (pow2_pos (f - ez) ltac:(lia)) as Hpf.
  assert (HN : 0 <= N) by (unfold N; pose proof (pow2_pos (e - ez) ltac:(lia)); lia).
  pose proof (round_nearest_even_bounds N (2 ^ (f - ez)) HN Hpf) as [HR _].
  rewrite <- Hval in HR.
  assert (Hgoal : 0 < m' /\ value_le m0 e0 m' e').
  { destruct (Z.le_gt_cases f e0) as [HA|HB].
    - apply (value_le_at ez) in Hle; [|lia..]. fold N in Hle.
      assert (Hlow : m0 * 2 ^ (e0 - f) <= N / 2 ^ (f - ez)).
      { apply Z.div_le_lower_bound; [lia|].
        replace (e0 - ez) with ((e0 - f) + (f - ez)) in Hle by lia.
        rewrite pow2_add in Hle by lia. lia. }
      pose proof (pow2_pos (e0 - f) ltac:(lia)).
      pose proof (pow2_pos (e' - f) ltac:(lia)).
      split; [nia|]. apply (value_le_at f); lia.
    - set (d0 := Zdigits2 m0) in *. set (dp := Zpos (digits2_pos p)) in *.
      assert (Hd : d0 + e0 < dp + e).
      { destruct (Z.lt_ge_cases (d0 + e0) (dp + e)) as [|Hge]; [done|].
        pose proof (fexp_mono prec emax Hprec Hemax (dp + e) (d0 + e0) ltac:(lia)).
        fold f in H. lia. }
      pose proof (fexp_ge_emin prec emax Hprec Hemax (d0 + e0)) as Hmin.
      assert (Hf : f = dp + e - prec) by (unfold f, SpecFloat.fexp in *; lia).
      specialize (Hnormal ltac:(lia)).
      pose proof (Zdigits2_spec m0 Hm0) as [_ Hhi]. fold d0 in Hhi.
      pose proof (Zdigits2_pos m0 Hm0) as Hd0. fold d0 in Hd0.
      pose proof (pow2_pos (e' - f) ltac:(lia)).
      pose proof (pow2_pos (prec - 1) ltac:(lia)).
      split; [nia|]. apply (value_le_at e0); [lia|lia|].
      rewrite Z.sub_diag, Z.mul_1_r.
      replace (e' - e0) with ((e' - f) + (f - e0)) by lia. rewrite pow2_add by lia.
      pose proof (pow2_le d0 ((prec - 1) + (f - e0)) ltac:(lia)) as Hpow.
      rewrite pow2_add in Hpow by lia.
      pose proof (pow2_pos (f - e0) ltac:(lia)).
      generalize dependent (2 ^ (f - e0)). generalize dependent (2 ^ (e' - f)).
      generalize dependent (2 ^ (prec - 1)). generalize dependent (2 ^ d0).
      intros. nia. }
  destruct Hgoal as [Hpos Hle']. destruct m' as [|p'|p']; [lia| |lia].
  exists p', e'. by split.
Qed.

(** The rounding of a number that is at most [2 ^ k] is at most
    [2 ^ k]. *)
Lemma binary_round_aux_at_most s N D e K k :
  0 <= N -> 0 < D ->
  e <= fexp (Zdigits2 (N / D) + e) ->
  emin + prec <= K <= emax ->
  below K N D e ->
  e <= k -> emin <= k -> N <= D * 2 ^ (k - e) ->
  exists m' e',
    binary_round_aux prec emax s (N / D) e (loc_of N D) = float_of s m' e' /\
    0 <= m' /\
    (0 < m' -> Zbounded m' e' /\ e' <= k /\ m' <= 2 ^ (k - e')).
Proof.
  intros HN HD Hreg HK Hbelow Hek Hk Hle.
  destruct (binary_round_aux_value s N D e K HN HD Hreg HK Hbelow)
    as (m' & e' & Heq & Hm' & Hb & Hfe & Hval & _).
  set (f := fexp (Zdigits2 (N / D) + e)) in *.
  exists m', e'. split; [done|]. split; [done|]. intros Hpos.
  split; [by apply Hb|].
  pose proof (pow2_pos (k - e) ltac:(lia)) as Hpk.
  assert (Hd : Zdigits2 (N / D) <= k - e + 1).
  { apply Zdigits2_le; [lia|]. split; [apply Z.div_pos; lia|].
    apply Z.div_lt_upper_bound; [lia|].
    rewrite Z.pow_add_r by lia. change (2 ^ 1) with 2. nia. }
  assert (Hfk : f <= k).
  { pose proof (fexp_mono prec emax Hprec Hemax (Zdigits2 (N / D) + e) (k + 1) ltac:(lia)).
    fold f in H. unfold SpecFloat.fexp in H. lia. }
  pose proof (pow2_pos (f - e) ltac:(lia)) as Hpf.
  pose proof (pow2_pos (k - f) ltac:(lia)) as Hpkf.
  assert (HR : round_nearest_even (N / (2 ^ (f - e) * D)) (loc_of N (2 ^ (f - e) * D))
               <= 2 ^ (k - f)).
  { apply round_nearest_even_le; [done|nia|].
    replace (k - e) with ((f - e) + (k - f)) in Hle by lia.
    rewrite pow2_add in Hle by lia.
    generalize dependent (2 ^ (f - e)). generalize dependent (2 ^ (k - f)).
    intros. nia. }
  rewrite <- Hval in HR.
  assert (He' : e' <= k).
  { destruct (Z.le_gt_cases e' k) as [|Hgt]; [done|].
    pose proof (pow2_lt (k - f) (e' - f) ltac:(lia)). nia. }
  split; [done|].
  replace (k - f) with ((k - e') + (e' - f)) in HR by lia.
  rewrite pow2_add in HR by lia.
  pose proof (pow2_pos (e' - f) ltac:(lia)).
  generalize dependent (2 ^ (e' - f)). generalize (2 ^ (k - e')). intros. nia.
Qed.

(** *** Sums and quotients *)

(** A sum of non-negative numbers is not below its second term. *)
Lemma SFadd_ge c m e my ey :
  within prec emax c (S754_finite false m e) -> c + 1 <= emax - prec ->
  bounded prec emax my ey = true ->
  exists m' e',
    SFadd prec emax (S754_finite false m e) (S754_finite false my ey)
    = S754_finite false m' e' /\
    value_le (Zpos my) ey (Zpos m') e'.
Proof.
  intros [Hbx Hdx] Hc Hby. rewrite SFadd_finite by done.
  pose proof (bounded_inv prec emax Hprec Hemax _ _ Hbx) as (? & ? & ? & ? & _).
  pose proof (bounded_inv prec emax Hprec Hemax _ _ Hby) as (? & ? & ? & ? & _).
  pose proof (aligned_lt prec emax Hprec Hemax m e (Z.min e ey) emax ltac:(lia) ltac:(lia)) as [HX _].
  pose proof (aligned_lt prec emax Hprec Hemax my ey (Z.min e ey) emax ltac:(lia) ltac:(lia)) as [HY _].
  pose proof (aligned_max prec emax Hprec Hemax my ey (Z.min e ey) ltac:(lia) Hby) as HYm.
  pose proof (aligned_lt prec emax Hprec Hemax m e (Z.min e ey) c ltac:(lia) Hdx) as [_ HXc].
  unfold cond_Zopp.
  set (X := Zpos m * 2 ^ (e - Z.min e ey)) in *.
  set (Y := Zpos my * 2 ^ (ey - Z.min e ey)) in *.
  assert (Hbelow : below_any prec emax (Z.abs (X + Y)) (Z.min e ey)).
  { apply (below_any_absorb prec emax Hprec Hemax c _ _ Y X); lia. }
  destruct (X + Y) as [|p|p] eqn:Hsum; [lia| |lia]. simpl Z.abs in Hbelow.
  cbn [binary_normalize].
  apply (binary_round_ge false p (Z.min e ey) emax (Zpos my) ey);
    [unfold SpecFloat.emin; lia|done|by apply (bounded_Zbounded prec emax Hprec Hemax)|lia|].
  apply (value_le_at (Z.min e ey)); [lia|lia|].
  rewrite Z.sub_diag, Z.mul_1_r. fold Y. lia.
Qed.

(** A quotient by a number that is not below the dividend in magnitude
    is at most 1 in magnitude. *)
Lemma SFdiv_unit sx mx ex sy my ey :
  bounded prec emax mx ex = true -> bounded prec emax my ey = true ->
  value_le (Zpos mx) ex (Zpos my) ey ->
  at_most_1 prec emax (SFdiv prec emax (S754_finite sx mx ex) (S754_finite sy my ey)).
Proof.
  intros Hbx Hby Hle.
  pose proof (bounded_inv prec emax Hprec Hemax _ _ Hbx) as (_ & Hex & _ & _ & Hmx).
  pose proof (bounded_inv prec emax Hprec Hemax _ _ Hby) as (_ & Hey & _ & _ & Hmy).
  cbn [SFdiv]. rewrite SFdiv_core_binary_spec by done.
  set (d1 := Zpos (digits2_pos mx)) in *. set (d2 := Zpos (digits2_pos my)) in *.
  set (e' := Z.min (fexp (d1 + ex - (d2 + ey))) (ex - ey)).
  set (s := ex - ey - e'). set (N := Zpos mx * 2 ^ s).
  assert (Hs : 0 <= s) by (unfold s, e'; lia).
  pose proof (pow2_pos s Hs) as Hps.
  pose proof (digits2_pos_spec mx) as [Hxlo Hxhi]. fold d1 in Hxlo, Hxhi.
  pose proof (digits2_pos_spec my) as [Hylo Hyhi]. fold d2 in Hylo, Hyhi.
  assert (Hd1 : 0 < d1) by (unfold d1; lia). assert (Hd2 : 0 < d2) by (unfold d2; lia).
  set (a := Z.min ex ey).
  apply (proj1 (value_le_at a (Zpos mx) ex (Zpos my) ey
                  ltac:(unfold a; lia) ltac:(unfold a; lia))) in Hle.
  pose proof (pow2_pos (ex - a) ltac:(unfold a; lia)) as Hpx.
  pose proof (pow2_pos (ey - a) ltac:(unfold a; lia)) as Hpy.
  assert (Hmag : d1 + ex <= d2 + ey).
  { assert (Hlt : 2 ^ (d1 - 1 + (ex - a)) < 2 ^ (d2 + (ey - a))).
    { rewrite !pow2_add by (unfold a; lia).
      apply Z.le_lt_trans with (Zpos mx * 2 ^ (ex - a));
        [apply Z.mul_le_mono_nonneg_r; lia|].
      apply Z.le_lt_trans with (Zpos my * 2 ^ (ey - a)); [done|].
      apply Z.mul_lt_mono_pos_r; lia. }
    apply pow2_lt_inv in Hlt; unfold a in *; lia. }
  assert (He'0 : e' <= 0 /\ e' <= 1 - prec).
  { pose proof (fexp_mono prec emax Hprec Hemax (d1 + ex - (d2 + ey)) 0 ltac:(lia)) as H.
    unfold e'. unfold SpecFloat.fexp, SpecFloat.emin in *. lia. }
  assert (HN : N <= Zpos my * 2 ^ (0 - e')).
  { unfold N. destruct (Z.le_ge_cases ey ex) as [Hge|Hlt].
    - replace (ey - a) with 0 in Hle by (unfold a; lia).
      replace (ex - a) with (ex - ey) in Hle by (unfold a; lia).
      replace s with ((ex - ey) + (0 - e')) by (unfold s; lia).
      rewrite pow2_add by lia. pose proof (pow2_pos (0 - e') ltac:(lia)).
      change (2 ^ 0) with 1 in Hle. rewrite Z.mul_assoc.
      apply Z.mul_le_mono_nonneg_r; lia.
    - replace (ex - a) with 0 in Hle by (unfold a; lia).
      replace (ey - a) with (ey - ex) in Hle by (unfold a; lia).
      replace (0 - e') with ((ey - ex) + s) by (unfold s; lia).
      rewrite pow2_add by lia. change (2 ^ 0) with 1 in Hle.
      rewrite Z.mul_assoc. apply Z.mul_le_mono_nonneg_r; lia. }
  pose proof (binary_round_aux_at_most (xorb sx sy) N (Zpos my) e' 1 0) as Haux.
  destruct Haux as (m' & e'' & Heq & Hm' & Hup).
  - unfold N. lia.
  - lia.
  - assert (Hq : d1 + s - d2 <= Zdigits2 (N / Zpos my)).
    { destruct (Z.le_gt_cases (d1 + s - d2) 0) as [|Hpos];
        [pose proof (Zdigits2_nonneg (N / Zpos my)); lia|].
      assert (d1 + s - d2 - 1 < Zdigits2 (N / Zpos my)); [|lia].
      apply Zdigits2_gt; [lia|]. apply Z.div_le_lower_bound; [lia|].
      apply Z.le_trans with (2 ^ d2 * 2 ^ (d1 + s - d2 - 1)).
      { pose proof (pow2_pos (d1 + s - d2 - 1) ltac:(lia)). nia. }
      rewrite <- pow2_add by lia. replace (d2 + (d1 + s - d2 - 1)) with ((d1 - 1) + s) by lia.
      rewrite pow2_add by lia. unfold N. nia. }
    pose proof (fexp_mono prec emax Hprec Hemax (d1 + ex - (d2 + ey)) (Zdigits2 (N / Zpos my) + e')
                  ltac:(unfold s in Hq; lia)).
    unfold e' at 1. lia.
  - unfold SpecFloat.emin. lia.
  - split; [lia|].
    replace (0 - e') with ((prec - 1) + (1 - prec - e')) in HN by lia.
    rewrite pow2_add in HN by lia.
    replace (prec + 1) with (Z.succ (Z.succ (prec - 1))) by lia.
    rewrite !Z.pow_succ_r by lia.
    pose proof (pow2_pos (prec - 1) ltac:(lia)).
    pose proof (pow2_pos (1 - prec - e') ltac:(lia)).
    generalize dependent (2 ^ (prec - 1)). generalize dependent (2 ^ (1 - prec - e')).
    intros. nia.
  - lia.
  - unfold SpecFloat.emin. lia.
  - exact HN.
  - rewrite Heq. destruct m' as [|p'|p']; [done| |lia].
    destruct Hup as (Hb & He'' & Hp'); [lia|]. simpl.
    split; [by apply (bounded_Zbounded prec emax Hprec Hemax)|]. split; [done|].
    by rewrite Z.sub_0_l in Hp'.
Qed.

Unset Default Proof Using.
End WithFormat.
End Values.

(** ** The normalisation step *)

Module KernelMagnitude.
Import F32 Kernel Format Digits Bounds Order Values KernelBounds.

Local Abbreviation within := (Format.within prec emax).
Local Abbreviation unit := (Format.at_most_1 prec emax).

Lemma compare_cont_gt m n : Pos.compare_cont Eq m n = Gt -> (n < m)%positive.
Proof. intros H. by apply Pos.compare_gt_iff. Qed.

Lemma unit_abs_le_one x : unit x -> abs_le_one x = true.
Proof.
  destruct x as [s|s| |s m e]; try done.
  intros (Hb & He & Hm). unfold abs_le_one, fabs, SFabs, SFleb, SFcompare, one.
  destruct (Z.compare_spec e (-23)) as [->|Hlt|Hgt]; [|done|].
  - change (2 ^ (- -23)) with 8388608 in Hm.
    destruct (Pos.compare_cont Eq m 8388608) eqn:Hcmp; [done|done|].
    apply compare_cont_gt in Hcmp. lia.
  - exfalso.
    pose proof (bounded_inv prec emax prec_pos prec_lt_emax _ _ Hb) as (_ & _ & Hd & _).
    destruct Hd as [Hd|Hd]; [unfold SpecFloat.emin, prec, emax in Hd; lia|].
    pose proof (digits2_pos_spec m) as [Hlo _]. rewrite Hd in Hlo.
    change (2 ^ (prec - 1)) with 8388608 in Hlo.
    pose proof (pow2_le (- e) 22 ltac:(lia)) as Hle.
    change (2 ^ 22) with 4194304 in Hle. lia.
Qed.

Section WithMath.
Variables sinf cosf : float -> float.
Hypothesis sinf_unit : forall x,
  is_finite x = true -> valid x = true -> valid (sinf x) = true /\ abs_le_one (sinf x) = true.
Hypothesis cosf_unit : forall x,
  is_finite x = true -> valid x = true -> valid (cosf x) = true /\ abs_le_one (cosf x) = true.

(** After one pass of the loop the value is at most 1 in magnitude. *)
Lemma recurrence_unit id i val :
  - 2 ^ 31 <= id <= 2 ^ 31 -> - 2 ^ 31 <= i <= 2 ^ 31 ->
  within emax val -> unit (recurrence sinf cosf id i val).
Proof.
  intros Hid Hi Hval. unfold recurrence.
  pose proof (sin_argument id i Hid Hi) as [Hsf Hsv]%within_iff.
  pose proof (cos_argument id i Hid Hi) as [Hcf Hcv]%within_iff.
  destruct (sinf_unit _ Hsf Hsv) as [Hs1 Hs2].
  destruct (cosf_unit _ Hcf Hcv) as [Hc1 Hc2].
  pose proof (abs_le_one_unit _ Hs1 Hs2) as Hsin.
  pose proof (unit_within _ (abs_le_one_unit _ Hc1 Hc2)) as Hcos.
  set (s := sinf _) in *. set (c := cosf _) in *.
  pose proof (SFmul_unit prec emax prec_pos prec_lt_emax val s Hval Hsin) as Hprod.
  assert (Hsmall : 1 + 1 <= emax - prec) by compare_Z.
  destruct (SFadd_absorb prec emax prec_pos prec_lt_emax 1 (mul val s) c Hprod Hcos Hsmall)
    as [Hsum _].
  fold (mul val s) in *. fold (add (mul val s) c) in Hsum.
  set (t := add (mul val s) c) in *.
  destruct c1_0001_within as [Hk1 Hk2].
  destruct (SFadd_at_least_1 prec emax prec_pos prec_lt_emax 1 8389447 (-23) (fabs t)
              Hk1 Hsmall Hk2 ltac:(compare_Z)
              (within_SFabs prec emax prec_pos prec_lt_emax emax t Hsum)
              (SFabs_sign prec emax prec_pos prec_lt_emax t))
    as [Hden _].
  destruct t as [st|st| |st mt et]; try done.
  destruct Hsum as [Hbt _].
  destruct (SFadd_ge prec emax prec_pos prec_lt_emax 1 8389447 (-23) mt et Hk1 Hsmall Hbt)
    as (m' & e' & Heq & Hle).
  unfold div, add, fabs, SFabs, c1_0001 in *. rewrite Heq in Hden |- *.
  destruct Hden as [Hbd _].
  by apply (SFdiv_unit prec emax prec_pos prec_lt_emax).
Qed.

Lemma for_loop_unit n id i val :
  - 2 ^ 31 <= id <= 2 ^ 31 -> 0 <= i -> i + Z.of_nat n <= 2 ^ 31 ->
  within emax val -> unit val -> unit (for_loop sinf cosf n id i val).
Proof.
  revert i val. induction n as [|n IH]; intros i val Hid Hi Hn Hval Hunit; [done|].
  simpl for_loop.
  pose proof (recurrence_unit id i val Hid ltac:(lia) Hval) as Hnext.
  apply IH; [done|lia|lia| |done].
  apply (within_weaken prec emax prec_pos prec_lt_emax 1); [compare_Z|].
  by apply unit_within.
Qed.

Lemma for_loop_unit_pos n id i val :
  (0 < n)%nat ->
  - 2 ^ 31 <= id <= 2 ^ 31 -> 0 <= i -> i + Z.of_nat n <= 2 ^ 31 ->
  within emax val -> unit (for_loop sinf cosf n id i val).
Proof.
  intros Hpos Hid Hi Hn Hval. destruct n as [|n]; [lia|].
  simpl for_loop.
  pose proof (recurrence_unit id i val Hid ltac:(lia) Hval) as Hfirst.
  apply for_loop_unit; [lia|lia|lia| |done].
  apply (within_weaken prec emax prec_pos prec_lt_emax 1); [compare_Z|].
  by apply unit_within.
Qed.

Lemma kernel_value_unit iters id val :
  0 < iters <= 2 ^ 31 -> - 2 ^ 31 <= id < 2 ^ 31 -> within emax val ->
  unit (kernel_value sinf cosf iters id val).
Proof.
  intros Hiters Hid Hval. unfold kernel_value.
  apply for_loop_unit_pos; [lia|lia|lia| |done].
  rewrite Z2Nat.id by lia. lia.
Qed.

End WithMath.

(** X5. With [sin] and [cos] returning numbers of magnitude at most 1
    on finite arguments, the value after any number of passes of the
    loop, one at least, is at most 1 in magnitude, whatever finite
    value the work item starts from: the division by
    [1.0001f + fabs(val)] bounds it. *)
Theorem kernel_output_at_most_1 (sinf cosf : float -> float) :
  (forall x, is_finite x = true -> valid x = true ->
             valid (sinf x) = true /\ abs_le_one (sinf x) = true) ->
  (forall x, is_finite x = true -> valid x = true ->
             valid (cosf x) = true /\ abs_le_one (cosf x) = true) ->
  forall iters id val,
    0 < iters <= 2 ^ 31 -> - 2 ^ 31 <= id < 2 ^ 31 ->
    is_finite val = true -> valid val = true ->
    abs_le_one (kernel_value sinf cosf iters id val) = true.
Proof.
  intros Hsin Hcos iters id val Hiters Hid Hfin Hvalid.
  apply unit_abs_le_one, kernel_value_unit; [done|done|done|done|].
  by apply within_iff.
Qed.

End KernelMagnitude.

(** ** The buffer stays bounded *)

Module BufferBounds.
Import F32 Kernel Host Device KernelFacts HostFacts KernelBounds.
Import DispatchFacts LoopFacts KernelMagnitude.

Local Abbreviation finite := (fun val : float => is_finite val = true /\ valid val = true).
Local Abbreviation small :=
  (fun val : float => (is_finite val = true /\ valid val = true) /\ abs_le_one val = true).

Section WithMath.
Variables sinf cosf : float -> float.
Hypothesis sinf_unit : forall x,
  is_finite x = true -> valid x = true -> valid (sinf x) = true /\ abs_le_one (sinf x) = true.
Hypothesis cosf_unit : forall x,
  is_finite x = true -> valid x = true -> valid (cosf x) = true /\ abs_le_one (cosf x) = true.

(** One pass over the whole buffer leaves no element above 1 in
    magnitude. *)
Lemma dispatch_small size (sched : list Z) (data out : list float) :
  0 <= size < 2 ^ 31 -> length data = Z.to_nat size -> Forall finite data ->
  sched ≡ₚ work_items size ->
  dispatch sinf cosf data size sched = Some out ->
  length out = Z.to_nat size /\ Forall small out.
Proof.
  intros Hsize Hlen Hdata Hperm Hout.
  assert (Hnodup : NoDup sched) by (rewrite Hperm; apply work_items_NoDup).
  assert (Hlen' : length out = Z.to_nat size).
  { destruct (dispatch_defined sinf cosf inner_iterations data size sched)
      as (out' & Hout' & Hl); [lia| |].
    - apply Forall_forall. intros id Hid. rewrite Hperm in Hid.
      apply work_items_spec in Hid. lia.
    - unfold dispatch in Hout. rewrite Hout in Hout'. injection Hout' as <-. lia. }
  split; [done|]. apply Forall_lookup. intros j v Hj.
  assert (Hlt : (j < Z.to_nat size)%nat) by (apply lookup_lt_Some in Hj; lia).
  destruct (lookup_lt_is_Some_2 data j ltac:(lia)) as [val Hval].
  unfold dispatch in Hout.
  rewrite (dispatch_lookup sinf cosf _ _ _ _ _ Hnodup Hout j val Hval) in Hj.
  rewrite decide_True in Hj.
  2:{ split; [|lia]. rewrite Hperm. apply work_items_spec. lia. }
  apply (inj Some) in Hj. rewrite <- Hj. clear Hj v.
  assert (Hfin : finite val) by (rewrite Forall_lookup in Hdata; eauto).
  split.
  - apply (kernel_value_finite sinf cosf sinf_unit cosf_unit); [lia|done].
  - apply unit_abs_le_one, (kernel_value_unit sinf cosf sinf_unit cosf_unit);
      [unfold inner_iterations; lia|lia|by apply within_iff].
Qed.

(** X6. With [sin] and [cos] as above, from the first pass of the loop
    on no element of the buffer is above 1 in magnitude. *)
Theorem loop_bounds_buffer size (scheds : list (list Z)) (out : list float) :
  0 <= size < 2 ^ 31 -> scheds <> [] ->
  Forall (fun sched => sched ≡ₚ work_items size) scheds ->
  loop_buffer sinf cosf size scheds (host_data_n size) = Some out ->
  Forall (fun val => abs_le_one val = true) out.
Proof.
  intros Hsize Hne Hscheds Hout.
  destruct Hscheds as [|sched rest Hperm Hrest]; [done|]. clear Hne.
  cbn [loop_buffer] in Hout.
  destruct (dispatch sinf cosf (host_data_n size) size sched) as [d|] eqn:Hd; [|done].
  destruct (dispatch_small size sched (host_data_n size) d Hsize) as [Hl Hs];
    [apply host_data_length|apply host_data_finite|done|done|].
  assert (Hfinal : Forall small out).
  { clear Hd. revert d Hl Hs Hout.
    induction Hrest as [|s2 rest Hperm2 _ IH]; intros d Hl Hs Hout.
    - apply (inj Some) in Hout. by rewrite <- Hout.
    - cbn [loop_buffer] in Hout.
      destruct (dispatch sinf cosf d size s2) as [d2|] eqn:Hd2; [|done].
      destruct (dispatch_small size s2 d d2 Hsize Hl) as [Hl2 Hs2]; [|done..|].
      { eapply Forall_impl; [done|]. by intros v [? _]. }
      by apply (IH d2). }
  eapply Forall_impl; [done|]. by intros v [_ ?].
Qed.

End WithMath.
End BufferBounds.

(** ** The casts of the kernel *)

Module Casts.
Import F32 Kernel Host Format Digits Locations Bounds Order Values KernelBounds.

(** An integer of at most 24 bits, made a float. *)
Lemma binary_round_int s p :
  Zpos p < 2 ^ 24 ->
  int_value (binary_round prec emax s p 0) = Some (cond_Zopp s (Zpos p)).
Proof.
  intros Hp.
  assert (Hbelow : below_any prec 25 (Zpos p) 0).
  { exists 0. split; [lia|]. split; [unfold prec; lia|].
    change (2 ^ (0 - 0)) with 1. change (2 ^ (25 - prec - 0)) with 2.
    change (2 ^ (prec + 1)) with (2 * 2 ^ 24). lia. }
  destruct (binary_round_value prec emax prec_pos prec_lt_emax s p 0 25
              ltac:(compare_Z) Hbelow)
    as (m' & e' & Heq & Hm' & _ & Hfe & Hval & _).
  set (d := Zpos (digits2_pos p)) in *.
  assert (Hd : 0 < d <= 24).
  { split; [unfold d; lia|].
    pose proof (Zdigits2_le (Zpos p) 24 ltac:(lia) ltac:(lia)) as H. exact H. }
  set (f := SpecFloat.fexp prec emax (d + 0)) in *.
  assert (Hf : f <= 0) by (unfold f, SpecFloat.fexp, SpecFloat.emin, prec, emax; lia).
  rewrite (Z.min_r 0 f) in Hval by lia. rewrite Z.sub_diag in Hval.
  change (2 ^ 0) with 1 in Hval.
  rewrite round_nearest_even_exact in Hval by apply Z.mod_1_r.
  rewrite Z.div_1_r in Hval.
  pose proof (pow2_pos (e' - f) ltac:(lia)) as Hpe.
  pose proof (pow2_pos (0 - f) ltac:(lia)) as Hpf.
  rewrite Heq. destruct m' as [|q|q]; [lia| |lia]. simpl float_of. unfold int_value.
  destruct (Z.leb_spec 0 e') as [Hpos|Hneg].
  - do 2 f_equal.
    replace (e' - f) with (e' + (0 - f)) in Hval by lia.
    rewrite pow2_add in Hval by lia.
    pose proof (pow2_pos e' Hpos). generalize dependent (2 ^ (0 - f)).
    generalize dependent (2 ^ e'). intros. nia.
  - assert (Hq : Zpos q = Zpos p * 2 ^ (- e')).
    { replace (0 - f) with ((- e') + (e' - f)) in Hval by lia.
      rewrite pow2_add in Hval by lia.
      pose proof (pow2_pos (- e') ltac:(lia)). generalize dependent (2 ^ (e' - f)).
      generalize dependent (2 ^ (- e')). intros. nia. }
    pose proof (pow2_pos (- e') ltac:(lia)) as Hpos.
    rewrite Hq, Z.mod_mul, Z.div_mul by lia. done.
Qed.

(** X7. The casts [(float)n] of the kernel and of the seeding loop are
    exact up to [2 ^ 24] in magnitude, so on every index of the buffer;
    different integers of that range give different floats; and the
    bound is sharp, [2 ^ 24 + 1] becomes [2 ^ 24]. *)
Theorem casts_are_exact :
  (forall n, Z.abs n <= 2 ^ 24 -> int_value (of_Z n) = Some n) /\
  (forall a b, Z.abs a <= 2 ^ 24 -> Z.abs b <= 2 ^ 24 -> of_Z a = of_Z b -> a = b) /\
  (forall id, 0 <= id < dataSizeElements -> int_value (of_Z id) = Some id) /\
  int_value (of_Z (2 ^ 24 + 1)) = Some (2 ^ 24).
Proof.
  assert (Hexact : forall n, Z.abs n <= 2 ^ 24 -> int_value (of_Z n) = Some n).
  { intros n Hn. unfold of_Z.
    destruct (Z.eq_dec (Z.abs n) (2 ^ 24)) as [Htop|Hlt].
    { destruct (Z.abs_eq_or_opp n) as [Hpos|Hneg].
      - rewrite <- Hpos, Htop. vm_compute. reflexivity.
      - replace n with (- 2 ^ 24) by lia. vm_compute. reflexivity. }
    destruct n as [|p|p]; [done|..]; cbn [binary_normalize];
      rewrite binary_round_int by (simpl in *; lia); done. }
  split; [done|]. split; [|split; [|vm_compute; reflexivity]].
  - intros a b Ha Hb Heq. apply (f_equal int_value) in Heq.
    rewrite !Hexact in Heq by done. congruence.
  - intros id Hid. apply Hexact. unfold dataSizeElements in Hid. lia.
Qed.

End Casts.

(** ** Values that are not finite *)

Module NonFinite.
Import F32 Kernel Format Bounds KernelBounds.

Local Abbreviation within := (Format.within prec emax).
Local Abbreviation unit := (Format.at_most_1 prec emax).

Section WithMath.
Variables sinf cosf : float -> float.
Hypothesis sinf_unit : forall x,
  is_finite x = true -> valid x = true -> valid (sinf x) = true /\ abs_le_one (sinf x) = true.
Hypothesis cosf_unit : forall x,
  is_finite x = true -> valid x = true -> valid (cosf x) = true /\ abs_le_one (cosf x) = true.

(** One pass of the loop makes NaN of a value that is not finite. *)
Lemma recurrence_nan id i val :
  - 2 ^ 31 <= id <= 2 ^ 31 -> - 2 ^ 31 <= i <= 2 ^ 31 ->
  is_finite val = false -> recurrence sinf cosf id i val = S754_nan.
Proof.
  intros Hid Hi Hval. unfold recurrence.
  pose proof (sin_argument id i Hid Hi) as [Hsf Hsv]%within_iff.
  pose proof (cos_argument id i Hid Hi) as [Hcf Hcv]%within_iff.
  destruct (sinf_unit _ Hsf Hsv) as [Hs1 Hs2].
  destruct (cosf_unit _ Hcf Hcv) as [Hc1 Hc2].
  pose proof (abs_le_one_unit _ Hs1 Hs2) as Hsin.
  pose proof (abs_le_one_unit _ Hc1 Hc2) as Hcos.
  set (s := sinf _) in *. set (c := cosf _) in *.
  destruct val as [sv|sv| |sv mv ev]; try discriminate Hval;
    destruct s as [ss|ss| |ss ms es]; try done;
    destruct c as [sc|sc| |sc mc ec]; try done;
    by destruct sv, ss.
Qed.

Lemma for_loop_nan n id i :
  - 2 ^ 31 <= id <= 2 ^ 31 -> 0 <= i -> i + Z.of_nat n <= 2 ^ 31 ->
  for_loop sinf cosf n id i S754_nan = S754_nan.
Proof.
  revert i. induction n as [|n IH]; intros i Hid Hi Hn; [done|].
  simpl for_loop. rewrite recurrence_nan by (done || lia). apply IH; lia.
Qed.

End WithMath.

(** X8. With [sin] and [cos] as above, a work item that starts from
    NaN or an infinity ends with NaN: the normalisation does not bring
    such a value back. *)
Theorem non_finite_input_gives_nan (sinf cosf : float -> float) :
  (forall x, is_finite x = true -> valid x = true ->
             valid (sinf x) = true /\ abs_le_one (sinf x) = true) ->
  (forall x, is_finite x = true -> valid x = true ->
             valid (cosf x) = true /\ abs_le_one (cosf x) = true) ->
  forall iters id val,
    0 < iters <= 2 ^ 31 -> - 2 ^ 31 <= id < 2 ^ 31 -> is_finite val = false ->
    kernel_value sinf cosf iters id val = S754_nan.
Proof.
  intros Hsin Hcos iters id val Hiters Hid Hval. unfold kernel_value.
  destruct (Z.to_nat iters) as [|n] eqn:Hn; [lia|].
  simpl for_loop. rewrite (recurrence_nan sinf cosf Hsin Hcos) by (done || lia).
  apply (for_loop_nan sinf cosf Hsin Hcos); lia.
Qed.

End NonFinite.

(** ** From the setup to the loop *)

Module LifecycleFacts.
Import CL Runner RunnerFacts Lifecycle.

Lemma step_past_setup d w r :
  past_setup (r_pc r) = true -> past_setup (r_pc (step d w r).2) = true.
Proof.
  unfold step. destruct (r_pc r) eqn:Hpc; try done; intros _;
    cbv zeta; repeat match goal with |- context [?a =? ?b] => destruct (a =? b) end;
    cbn [snd]; rewrite ?Hpc; done.
Qed.

Lemma steps_past_setup d n w r :
  past_setup (r_pc r) = true -> past_setup (r_pc (steps d n w r).2) = true.
Proof.
  revert w r. induction n as [|n IH]; intros w r Hpc; [done|].
  rewrite steps_succ. by apply IH, step_past_setup.
Qed.

(** Outside the loop no kernel is dispatched. *)
Lemma step_counts d w r :
  past_setup (r_pc r) = false ->
  r_enqueued (step d w r).2 = r_enqueued r /\ r_finished (step d w r).2 = r_finished r.
Proof.
  unfold step, checked. destruct (r_pc r); try done; intros _; cbv zeta;
    repeat match goal with
      | |- context [check_cl_error ?e ?o] => destruct (check_cl_error e o)
      | |- context [?a =? ?b] => destruct (a =? b)
      end; done.
Qed.

Lemma steps_le d n m w r :
  (n <= m)%nat -> steps d m w r = steps d (m - n) (steps d n w r).1 (steps d n w r).2.
Proof. intros Hle. rewrite <- steps_add. f_equal. lia. Qed.

(** A runner that throws has dispatched nothing. *)
Lemma thrown_counts d n w r :
  r_enqueued r = 0%nat -> r_finished r = 0%nat ->
  is_thrown (r_pc (steps d n w r).2) = true ->
  forall m, r_enqueued (steps d m w r).2 = 0%nat /\ r_finished (steps d m w r).2 = 0%nat.
Proof.
  intros He Hf Hthrown.
  assert (Hbefore : forall m, (m <= n)%nat ->
            past_setup (r_pc (steps d m w r).2) = false /\
            r_enqueued (steps d m w r).2 = 0%nat /\ r_finished (steps d m w r).2 = 0%nat).
  { intros m Hm.
    assert (Hpc : forall m, (m <= n)%nat -> past_setup (r_pc (steps d m w r).2) = false).
    { intros m' Hm'. destruct (past_setup _) eqn:Hpast; [|done].
      rewrite (steps_le d m' n) in Hthrown by done.
      pose proof (steps_past_setup d (n - m') (steps d m' w r).1 _ Hpast) as Hn.
      destruct (r_pc (steps d (n - m') _ _).2); done. }
    split; [by apply Hpc|].
    induction m as [|m IH]; [done|].
    replace (S m) with (m + 1)%nat by lia. rewrite steps_add. simpl steps.
    destruct (step_counts d (steps d m w r).1 (steps d m w r).2) as [H1 H2]; [apply Hpc; lia|].
    destruct (step d _ _) as [w1 r1]. simpl in *. rewrite H1, H2. apply IH. lia. }
  intros m. destruct (Nat.le_gt_cases m n) as [Hle|Hgt]; [by apply Hbefore|].
  rewrite (steps_le d n m) by lia. rewrite steps_thrown by done.
  apply (Hbefore n). lia.
Qed.

Lemma first_thrown (what : string) (o : option string) : Some what ∪ o = Some what.
Proof. by destruct o. Qed.

Lemma first_passed (o : option string) : None ∪ o = o.
Proof. by destruct o. Qed.

Ltac one_step lem := rewrite steps_succ, lem by done; cbn [fst snd].

Lemma checked_failure err operation next w r :
  err <> CL_SUCCESS ->
  checked err operation next w r
  = (w, goto (PcThrown (operation +:+ " failed with error code " +:+ pretty err)) r).
Proof. intros Herr. unfold checked. by rewrite check_cl_error_failure. Qed.

Ltac throws :=
  rewrite steps_succ; unfold step; cbn [r_pc goto];
  rewrite ?(proj2 (Z.eqb_neq _ _)) by done; cbv zeta;
  rewrite checked_failure by done; cbn [fst snd];
  rewrite steps_thrown by reflexivity; reflexivity.

Ltac queue := first [one_step step_queue_modern | one_step step_queue_fallback].

Ltac passes H := rewrite H, check_cl_error_success, first_passed.

Ltac fails H := rewrite (check_cl_error_failure _ _ H), ?first_thrown.

(** X9. A runner gets to its loop when no call of its setup fails, the
    creation of the queue counting as failed when both calls fail;
    otherwise it throws the error of the first call that fails, stays
    there, and has dispatched nothing. *)
Theorem setup_outcome d platform device index w :
  let r0 := spawn platform device index in
  match setup_error d with
  | None => (steps d 10 w r0).2 = in_loop platform device index w
  | Some what =>
      forall n,
        r_enqueued (steps d n w r0).2 = 0%nat /\
        r_finished (steps d n w r0).2 = 0%nat /\
        ((10 <= n)%nat -> r_pc (steps d n w r0).2 = PcThrown what)
  end.
Proof.
  intros r0.
  assert (Hthrown : forall what, r_pc (steps d 10 w r0).2 = PcThrown what ->
            forall n,
              r_enqueued (steps d n w r0).2 = 0%nat /\
              r_finished (steps d n w r0).2 = 0%nat /\
              ((10 <= n)%nat -> r_pc (steps d n w r0).2 = PcThrown what)).
  { intros what Hpc n.
    destruct (thrown_counts d 10 w r0 eq_refl eq_refl ltac:(by rewrite Hpc) n) as [He Hf].
    split; [done|]. split; [done|]. intros Hn.
    rewrite (steps_le d 10 n) by done. rewrite steps_thrown by (by rewrite Hpc). done. }
  unfold setup_error. subst r0.
  destruct (decide (dd_createContext d = CL_SUCCESS)) as [Hc|Hc].
  2:{ fails Hc. apply Hthrown. one_step step_start. throws. }
  passes Hc.
  destruct (decide (queue_err d = CL_SUCCESS)) as [Hq|Hq].
  2:{ fails Hq. apply Hthrown. one_step step_start. one_step step_context.
      unfold queue_err in *.
      destruct (Z.eqb_spec (dd_createCommandQueueWithProperties d) CL_SUCCESS); [done|].
      throws. }
  passes Hq.
  assert (Hq' : dd_createCommandQueueWithProperties d = CL_SUCCESS \/
                (dd_createCommandQueueWithProperties d <> CL_SUCCESS /\
                 dd_createCommandQueue d = CL_SUCCESS)).
  { unfold queue_err in Hq.
    destruct (Z.eqb_spec (dd_createCommandQueueWithProperties d) CL_SUCCESS); auto. }
  clear Hq.
  destruct (decide (dd_createProgramWithSource d = CL_SUCCESS)) as [Hp|Hp].
  2:{ fails Hp. apply Hthrown. destruct Hq' as [Hm|[Hm Hl]];
        one_step step_start; one_step step_context; queue; throws. }
  passes Hp.
  destruct (decide (dd_buildProgram d = CL_SUCCESS)) as [Hb|Hb].
  2:{ fails Hb. apply Hthrown. destruct Hq' as [Hm|[Hm Hl]];
        one_step step_start; one_step step_context; queue; one_step step_program; throws. }
  passes Hb.
  destruct (decide (dd_createKernel d = CL_SUCCESS)) as [Hk|Hk].
  2:{ fails Hk. apply Hthrown. destruct Hq' as [Hm|[Hm Hl]];
        one_step step_start; one_step step_context; queue; one_step step_program;
        one_step step_build; throws. }
  passes Hk.
  destruct (decide (dd_createBuffer d = CL_SUCCESS)) as [Hm|Hm].
  2:{ fails Hm. apply Hthrown. destruct Hq' as [Hq|[Hq Hl]];
        one_step step_start; one_step step_context; queue; one_step step_program;
        one_step step_build; one_step step_kernel; throws. }
  passes Hm.
  destruct (decide (dd_setKernelArg0 d = CL_SUCCESS)) as [Ha0|Ha0].
  2:{ fails Ha0. apply Hthrown. destruct Hq' as [Hq|[Hq Hl]];
        one_step step_start; one_step step_context; queue; one_step step_program;
        one_step step_build; one_step step_kernel; one_step step_buffer; throws. }
  passes Ha0.
  destruct (decide (dd_setKernelArg1 d = CL_SUCCESS)) as [Ha1|Ha1].
  2:{ fails Ha1. apply Hthrown. destruct Hq' as [Hq|[Hq Hl]];
        one_step step_start; one_step step_context; queue; one_step step_program;
        one_step step_build; one_step step_kernel; one_step step_buffer;
        one_step step_arg0; throws. }
  rewrite Ha1, check_cl_error_success.
  assert (Hall : setup_calls_succeed d) by (by repeat split).
  destruct Hq' as [Hq|[Hq Hl]].
  - by rewrite setup_modern.
  - by rewrite setup_fallback.
Qed.





End LifecycleFacts.

(** ** Invariants of the process *)

Module InvariantFacts.
Import CL Runner Proc RunnerFacts ProcFacts Lifecycle.

(** An invariant of the threads that every step of a runner on its own
    device keeps, and that a new runner has. *)
Lemma threads_invariant_on drv (P : Runner -> Prop) :
  (forall platform device index, P (spawn platform device index)) ->
  (forall w r, P r -> P (Runner.step (drv_device drv (r_device r)) w r).2) ->
  forall sched p, Forall P (p_threads p) -> Forall P (p_threads (run drv sched p)).
Proof.
  intros Hspawn Hstep sched. induction sched as [|t sched IH]; intros p Hp; [done|].
  rewrite run_cons. apply IH. unfold step. destruct (p_status p); [|done..].
  destruct t as [|i].
  - destruct (main_step_threads drv p) as [->|(? & ? & ? & ? & _ & _ & _ & ->)]; [done|].
    apply Forall_app. split; [done|]. apply Forall_singleton, Hspawn.
  - destruct (p_threads p !! i) as [r|] eqn:Hi.
    + rewrite (worker_step_eq drv i p r Hi). cbn [p_threads].
      apply Forall_insert; [done|]. apply Hstep. rewrite Forall_lookup in Hp. eauto.
    + unfold worker_step. by rewrite Hi.
Qed.

Lemma counts_inv_step d w r : counts_inv r -> counts_inv (Runner.step d w r).2.
Proof.
  unfold counts_inv, Runner.step, checked.
  destruct (r_pc r) eqn:Hpc; cbv zeta;
    repeat match goal with
      | |- context [check_cl_error ?e ?o] => destruct (check_cl_error e o)
      | |- context [?a =? ?b] => destruct (a =? b)
      end; cbn [snd goto r_pc r_enqueued r_finished count_enqueue count_finish
                set_context set_queue set_program set_kernel set_buffer];
    rewrite ?Hpc; try done; try lia; try tauto.
Qed.

(** X11. In every state of the process a runner has at most one dispatch
    it has not waited for: none at [clEnqueueNDRangeKernel], one at
    [clFinish], and none made before the loop. *)
Theorem one_dispatch_in_flight drv sched i r :
  p_threads (run drv sched boot) !! i = Some r ->
  (r_enqueued r = r_finished r \/ r_enqueued r = S (r_finished r)) /\
  (r_pc r = PcEnqueue -> r_enqueued r = r_finished r) /\
  (r_pc r = PcFinish -> r_enqueued r = S (r_finished r)) /\
  (past_setup (r_pc r) = false -> r_enqueued r = 0%nat /\ r_finished r = 0%nat).
Proof.
  intros Hi.
  pose proof (threads_invariant_on drv counts_inv) as Hinv.
  specialize (Hinv ltac:(done) (fun w r => counts_inv_step _ w r) sched boot
                   ltac:(by apply Forall_nil)).
  rewrite Forall_lookup in Hinv. specialize (Hinv i r Hi).
  unfold counts_inv in Hinv. destruct (r_pc r); simpl; repeat split; try done; lia.
Qed.

Lemma handles_fields r :
  handles r = option_list (r_context r) ++ option_list (r_queue r)
              ++ option_list (r_program r) ++ option_list (r_kernel r)
              ++ option_list (r_buffer r).
Proof. done. Qed.

Lemma NoDup_snoc_fresh (l : list handle) h :
  NoDup l -> (forall x, x ∈ l -> (x < h)%nat) ->
  NoDup (l ++ [h]) /\ forall x, x ∈ l ++ [h] -> (x < S h)%nat.
Proof.
  intros Hnodup Hbound. split.
  - apply NoDup_app. split; [done|]. split; [|apply NoDup_singleton].
    intros x Hx ->%list_elem_of_singleton. specialize (Hbound _ Hx). lia.
  - intros x [Hx| ->%list_elem_of_singleton]%elem_of_app; [|lia].
    specialize (Hbound _ Hx). lia.
Qed.

(** Whether a field is set, from [holds_first] at a known number. *)
Ltac field H :=
  match type of H with
  | is_Some ?o <-> (?k <= ?n)%nat =>
      first
        [ let x := fresh "h" in
          let Hx := fresh "Hfield" in
          destruct (proj2 H ltac:(lia)) as [x Hx]; clear H
        | let Hx := fresh "Hfield" in
          assert (o = None) as Hx
            by (destruct o; [exfalso; pose proof (proj1 H ltac:(eauto)); lia|done]);
          clear H ]
  end.

Ltac holds_now :=
  unfold holds_first; cbn [goto set_context set_queue set_program set_kernel set_buffer
                           r_context r_queue r_program r_kernel r_buffer];
  repeat match goal with H : _ = _ |- _ => rewrite H end;
  repeat split; intros; try lia; try (by eexists);
  match goal with H : is_Some None |- _ => by destruct H end.

Lemma objects_inv_step d w r :
  objects_inv w r -> objects_inv (Runner.step d w r).1 (Runner.step d w r).2.
Proof.
  intros (Hnodup & Hbound & Hheld).
  unfold objects_inv, Runner.step, checked.
  destruct (r_pc r) eqn:Hpc; cbv zeta;
    repeat match goal with
      | |- context [check_cl_error ?e ?o] => destruct (check_cl_error e o)
      | |- context [?a =? ?b] => destruct (a =? b)
      end; cbn [fst snd].
  all: try (rewrite Hpc in Hheld).
  all: try (split; [done|split; [done|]]; intros n; simpl; rewrite ?Hpc; by eauto).
  all: destruct (Hheld _ eq_refl) as (H1 & H2 & H3 & H4 & H5);
    field H1; field H2; field H3; field H4; field H5;
    rewrite handles_fields in Hnodup, Hbound;
    rewrite Hfield, Hfield0, Hfield1, Hfield2, Hfield3 in Hnodup, Hbound;
    simpl in Hnodup, Hbound;
    destruct (NoDup_snoc_fresh _ (w_next w) Hnodup Hbound) as [Hnodup' Hbound'];
    rewrite handles_fields;
    cbn [goto set_context set_queue set_program set_kernel set_buffer
         r_context r_queue r_program r_kernel r_buffer r_pc alloc print w_next];
    rewrite ?Hfield, ?Hfield0, ?Hfield1, ?Hfield2, ?Hfield3;
    (split; [exact Hnodup'|split; [exact Hbound'|]]);
    intros n [= <-]; holds_now.
Qed.

Lemma objects_inv_mono w w' r :
  (w_next w <= w_next w')%nat -> objects_inv w r -> objects_inv w' r.
Proof.
  intros Hle (Hnodup & Hbound & Hheld). split; [done|]. split; [|done].
  intros h Hh. specialize (Hbound h Hh). lia.
Qed.

Lemma objects_inv_spawn w platform device index :
  objects_inv w (spawn platform device index).
Proof.
  split; [apply NoDup_nil_2|]. split; [by intros h Hh%elem_of_nil|].
  intros n [= <-]. unfold holds_first. simpl.
  repeat split; intros; try lia; match goal with H : is_Some None |- _ => by destruct H end.
Qed.

Lemma objects_inv_run drv sched p :
  Forall (objects_inv (p_world p)) (p_threads p) ->
  Forall (objects_inv (p_world (run drv sched p))) (p_threads (run drv sched p)).
Proof.
  revert p. induction sched as [|t sched IH]; intros p Hp; [done|].
  rewrite run_cons. apply IH. unfold step. destruct (p_status p); [|done..].
  destruct t as [|i].
  - assert (Hp' : Forall (objects_inv (p_world (main_step drv p))) (p_threads p)).
    { eapply Forall_impl; [done|]. intros r. apply objects_inv_mono.
      by rewrite main_step_next. }
    destruct (main_step_threads drv p) as [->|(? & ? & ? & ? & _ & _ & _ & ->)]; [done|].
    apply Forall_app. split; [done|]. apply Forall_singleton, objects_inv_spawn.
  - destruct (p_threads p !! i) as [r|] eqn:Hi.
    + rewrite (worker_step_eq drv i p r Hi). cbn [p_threads p_world].
      pose proof (proj1 (Forall_lookup _ _) Hp i r Hi) as Hr.
      apply Forall_insert; [|by apply objects_inv_step].
      eapply Forall_impl; [done|]. intros r'. apply objects_inv_mono.
      destruct (Runner.step _ (p_world p) r) as [w1 r1] eqn:Hstep.
      by apply step_handles in Hstep as [? _].
    + unfold worker_step. by rewrite Hi.
Qed.

(** X12. In every state of the process the objects of a runner are
    pairwise different, they are those created before its program
    point, in the order context, queue, program, kernel, buffer, and
    from the loop on the runner holds all five. *)
Theorem runner_objects drv sched i r :
  p_threads (run drv sched boot) !! i = Some r ->
  NoDup (handles r) /\
  (forall n, created (r_pc r) = Some n -> holds_first n r) /\
  (past_setup (r_pc r) = true ->
   exists context queue program kernel buffer,
     r_context r = Some context /\ r_queue r = Some queue /\
     r_program r = Some program /\ r_kernel r = Some kernel /\
     r_buffer r = Some buffer /\
     NoDup [context; queue; program; kernel; buffer]).
Proof.
  intros Hi.
  pose proof (objects_inv_run drv sched boot ltac:(by apply Forall_nil)) as Hinv.
  rewrite Forall_lookup in Hinv. destruct (Hinv i r Hi) as (Hnodup & _ & Hheld).
  split; [done|]. split; [done|]. intros Hpast.
  assert (Hfive : created (r_pc r) = Some 5%nat) by (by destruct (r_pc r)).
  destruct (Hheld _ Hfive) as (H1 & H2 & H3 & H4 & H5).
  field H1. field H2. field H3. field H4. field H5.
  rewrite handles_fields, Hfield, Hfield0, Hfield1, Hfield2, Hfield3 in Hnodup.
  by exists h, h0, h1, h2, h3.
Qed.

(** *** How [main] ends *)

Lemma setup_return drv out code : setup drv = (out, Return code) -> code = 1.
Proof.
  unfold setup. destruct (_ || _); [by intros [= _ <-]|].
  destruct (check_cl_error _ _); [done|].
  destruct (enumerate_platforms _ _) as [o [[|g gs]|what]]; [|done..].
  by intros [= _ <-].
Qed.

Lemma returned_step d w r : returned r -> Runner.step d w r = (w, r).
Proof. unfold returned, Runner.step. by intros ->. Qed.

Lemma exit_inv_main_step drv p : exit_inv drv p -> exit_inv drv (main_step drv p).
Proof.
  unfold exit_inv. destruct (p_main p) as [|gpus k|k|] eqn:Hmain.
  - intros [Hnil Hrun]. unfold main_step. rewrite Hmain.
    destruct (setup drv) as [out [code|what|gpus]] eqn:Hsetup; simpl.
    + left. apply setup_return in Hsetup as ->. by rewrite Hnil.
    + left. by rewrite Hnil.
    + split; [by exists out|]. split; [|done].
      pose proof (main_inv_main_step drv out gpus Hsetup p) as Hinv.
      unfold main_inv at 1, main_step in Hinv. rewrite Hmain, Hsetup in Hinv. by apply Hinv.
  - intros ([out Hsetup] & Hinv & Hstatus).
    pose proof (main_inv_main_step drv out gpus Hsetup p Hinv) as Hinv'.
    unfold main_step in *. rewrite Hmain in *.
    destruct (gpus !! k) as [[pf dev]|]; simpl.
    + split; [by exists out|]. split; [done|done].
    + split; [by exists out, gpus|]. split; [by rewrite take_0|done].
  - intros ((out & gpus & Hsetup & Hinv) & Hret & Hstatus).
    pose proof (main_inv_main_step drv out gpus Hsetup p Hinv) as Hinv'.
    unfold main_step in *. rewrite Hmain in *.
    destruct (p_threads p !! k) as [t|] eqn:Hk.
    + case_decide as Ht; simpl; [|rewrite Hmain; eauto 10].
      split; [by exists out, gpus|]. split; [|done].
      erewrite take_S_r by done. apply Forall_app. split; [done|]. by apply Forall_singleton.
    + simpl. right. split; [done|]. split; [|by exists out, gpus].
      apply lookup_ge_None in Hk. by rewrite take_ge in Hret by lia.
  - assert (Hsame : main_step drv p = p) by (unfold main_step; by rewrite Hmain).
    by rewrite Hsame, Hmain.
Qed.

Lemma exit_inv_worker_step drv i p :
  p_status p = Running -> exit_inv drv p -> exit_inv drv (worker_step drv i p).
Proof.
  intros Hrun. destruct (p_threads p !! i) as [r|] eqn:Hi.
  2:{ unfold worker_step. by rewrite Hi. }
  assert (Hstatus : forall code, p_status (worker_step drv i p) <> Exited code).
  { rewrite (worker_step_eq drv i p r Hi). simpl. by destruct (is_thrown _). }
  assert (Hmain : p_main (worker_step drv i p) = p_main p).
  { by rewrite (worker_step_eq drv i p r Hi). }
  assert (Hthreads : p_threads (worker_step drv i p)
                     = <[i := (Runner.step (drv_device drv (r_device r)) (p_world p) r).2]>
                         (p_threads p)).
  { by rewrite (worker_step_eq drv i p r Hi). }
  unfold exit_inv. rewrite Hmain. destruct (p_main p) as [|gpus k|k|] eqn:Hpc.
  - intros [Hnil _]. by rewrite Hnil in Hi.
  - intros ([out Hsetup] & Hinv & _). split; [by exists out|]. split; [|done].
    by apply (main_inv_worker_step drv gpus).
  - intros ((out & gpus & Hsetup & Hinv) & Hret & _).
    split; [exists out, gpus; split; [done|by apply (main_inv_worker_step drv gpus)]|].
    split; [|done]. rewrite Hthreads.
    destruct (decide (i < k)%nat) as [Hlt|Hge].
    + assert (returned r) as Hr.
      { rewrite Forall_lookup in Hret. apply (Hret i). by rewrite lookup_take_lt. }
      rewrite returned_step by done. simpl. by rewrite list_insert_id.
    + by rewrite take_insert_ge by lia.
  - intros [(Hs & _)|(Hs & _)]; congruence.
Qed.

Lemma exit_inv_run drv sched p : exit_inv drv p -> exit_inv drv (run drv sched p).
Proof.
  revert p. induction sched as [|t sched IH]; intros p Hp; [done|].
  rewrite run_cons. apply IH. unfold step. destruct (p_status p) eqn:Hrun; [|done..].
  destruct t; [by apply exit_inv_main_step|by apply exit_inv_worker_step].
Qed.

(** X13. The exit status of the process: 1 is returned only when no
    device was discovered, and then no thread was ever started; 0 is
    returned only after the runner of every discovered device has
    returned. *)
Theorem exit_status drv sched code :
  let p := run drv sched boot in
  p_status p = Exited code ->
  (code = 1 /\ p_threads p = [] /\ forall out gpus, setup drv <> (out, Start gpus)) \/
  (code = 0 /\ Forall (fun r => r_pc r = PcReturned) (p_threads p) /\
   exists out gpus, setup drv = (out, Start gpus) /\
                    map target (p_threads p) = gpus /\ gpus <> []).
Proof.
  intros p Hexit.
  pose proof (exit_inv_run drv sched boot ltac:(done)) as Hinv. fold p in Hinv.
  unfold exit_inv in Hinv. destruct (p_main p) as [|gpus k|k|] eqn:Hmain.
  - destruct Hinv as [_ Hrun]. congruence.
  - destruct Hinv as (_ & _ & Hne). by destruct (Hne code).
  - destruct Hinv as (_ & _ & Hne). by destruct (Hne code).
  - destruct Hinv as [(Hs & Hnil & Hsetup)|(Hs & Hret & out & gpus & Hsetup & Hinv)].
    + left. split; [congruence|done].
    + right. split; [congruence|]. split; [done|]. exists out, gpus. split; [done|].
      unfold main_inv in Hinv. rewrite Hmain in Hinv. destruct Hinv as [Hmap _].
      split; [by rewrite Hmap, firstn_all|by eapply setup_start_nonempty].
Qed.

(** *** Abnormal termination *)

Lemma main_step_status drv p :
  p_status p = Running -> p_status (main_step drv p) <> Terminated.
Proof.
  intros Hrun. unfold main_step. destruct (p_main p) as [|gpus k|k|] eqn:Hmain.
  - by destruct (setup drv) as [out [code|what|gpus]].
  - by destruct (gpus !! k) as [[pf dev]|].
  - destruct (p_threads p !! k) as [t|]; [|done]. case_decide; [done|by rewrite Hrun].
  - by rewrite Hrun.
Qed.

Lemma thrown_inv_step drv p t : thrown_inv p -> thrown_inv (step drv p t).
Proof.
  intros Hinv. unfold step. destruct (p_status p) eqn:Hrun; [|done..].
  destruct Hinv as [[_ Hnone]|[Hterm _]]; [|congruence].
  destruct t as [|i].
  - left. split; [by apply main_step_status|].
    destruct (main_step_threads drv p) as [->|(? & ? & ? & ? & _ & _ & _ & ->)]; [done|].
    apply Forall_app. split; [done|]. by apply Forall_singleton.
  - destruct (p_threads p !! i) as [r|] eqn:Hi.
    2:{ unfold worker_step. rewrite Hi. left. by rewrite Hrun. }
    rewrite (worker_step_eq drv i p r Hi).
    set (r' := (Runner.step _ _ r).2). cbn [p_status p_threads].
    assert (Hlt : (i < length (p_threads p))%nat) by (by eapply lookup_lt_Some).
    destruct (is_thrown (r_pc r')) eqn:Hthrown.
    + right. split; [done|]. exists i, r'. split; [by apply list_lookup_insert_eq|].
      split; [done|]. intros j rj Hj Hrj.
      destruct (decide (j = i)) as [|Hne]; [done|].
      cbn [p_threads] in Hj. rewrite list_lookup_insert_ne in Hj by done.
      rewrite Forall_lookup in Hnone. specialize (Hnone j rj Hj). congruence.
    + left. split; [done|]. by apply Forall_insert.
Qed.

Lemma thrown_inv_run drv sched p : thrown_inv p -> thrown_inv (run drv sched p).
Proof.
  revert p. induction sched as [|t sched IH]; intros p Hp; [done|].
  rewrite run_cons. by apply IH, thrown_inv_step.
Qed.

(** X14. The process is terminated exactly when a runner has thrown, and
    at most one runner ever has. *)
Theorem terminated_iff_thrown drv sched :
  let p := run drv sched boot in
  (p_status p = Terminated <->
   exists i r, p_threads p !! i = Some r /\ is_thrown (r_pc r) = true) /\
  (forall i j ri rj,
     p_threads p !! i = Some ri -> p_threads p !! j = Some rj ->
     is_thrown (r_pc ri) = true -> is_thrown (r_pc rj) = true -> i = j).
Proof.
  intros p.
  assert (Hboot : thrown_inv boot) by (left; split; [done|by apply Forall_nil]).
  pose proof (thrown_inv_run drv sched boot Hboot) as Hinv. fold p in Hinv.
  destruct Hinv as [[Hstatus Hnone]|(Hstatus & i & r & Hi & Hr & Huniq)].
  - rewrite Forall_lookup in Hnone. split.
    + split; [done|]. intros (i & r & Hi & Hr). specialize (Hnone i r Hi). congruence.
    + intros i j ri rj Hi _ Hri. specialize (Hnone i ri Hi). congruence.
  - split; [split; eauto|].
    intros a b ra rb Ha Hb Hra Hrb.
    rewrite (Huniq a ra Ha Hra), (Huniq b rb Hb Hrb). done.
Qed.

(** *** Joining the threads *)

(** X15. [main] joins its threads in order: it stays at a thread that
    has not returned, and once all have returned it passes them all and
    returns 0, printing nothing. *)
Theorem join_waits_for_every_thread drv p k :
  p_status p = Running -> p_main p = MainJoin k ->
  (forall t, p_threads p !! k = Some t -> r_pc t <> PcReturned -> step drv p Main = p) /\
  (Forall (fun r => r_pc r = PcReturned) (p_threads p) ->
   (k <= length (p_threads p))%nat ->
   let p' := run drv (replicate (S (length (p_threads p) - k)) Main) p in
   p_status p' = Exited 0 /\ p_threads p' = p_threads p /\ p_world p' = p_world p).
Proof.
  intros Hrun Hmain. split.
  - intros t Ht Hpc. unfold step, main_step. rewrite Hrun, Hmain, Ht.
    by case_decide.
  - intros Hret. remember (length (p_threads p) - k)%nat as n eqn:Hn.
    revert k p Hn Hrun Hmain Hret.
    induction n as [|n IH]; intros k p Hn Hrun Hmain Hret Hk p'; subst p'.
    + simpl. unfold step, main_step. rewrite Hrun, Hmain.
      rewrite (proj2 (lookup_ge_None (p_threads p) k)) by lia. done.
    + change (replicate (S (S n)) Main) with (Main :: replicate (S n) Main).
      rewrite run_cons.
      destruct (lookup_lt_is_Some_2 (p_threads p) k) as [t Ht]; [lia|].
      assert (Hstep : step drv p Main
                = {| p_main := MainJoin (S k); p_threads := p_threads p;
                     p_world := p_world p; p_status := Running |}).
      { unfold step, main_step. rewrite Hrun, Hmain, Ht.
        rewrite Forall_lookup in Hret. rewrite decide_True by eauto. done. }
      rewrite Hstep. set (q := Build_Process _ _ _ _).
      destruct (IH (S k) q) as (H1 & H2 & H3); simpl; try done; lia.
Qed.

(** *** What is printed *)

Lemma step_prints d w r :
  w_out w `prefix_of` w_out (Runner.step d w r).1.
Proof.
  unfold Runner.step, checked.
  destruct (r_pc r); cbv zeta;
    repeat match goal with
      | |- context [check_cl_error ?e ?o] => destruct (check_cl_error e o)
      | |- context [?a =? ?b] => destruct (a =? b)
      end; cbn [fst print alloc w_out]; try done;
    rewrite <- ?app_assoc; by apply prefix_app_r.
Qed.

Lemma main_step_prints drv p :
  w_out (p_world p) `prefix_of` w_out (p_world (main_step drv p)).
Proof.
  unfold main_step. destruct (p_main p) as [|gpus k|k|]; [| | |done].
  - destruct (setup drv) as [out [code|what|gpus]]; simpl; by apply prefix_app_r.
  - by destruct (gpus !! k) as [[pf dev]|].
  - destruct (p_threads p !! k) as [t|]; [|done]. by case_decide.
Qed.

Lemma run_prints drv sched p :
  w_out (p_world p) `prefix_of` w_out (p_world (run drv sched p)).
Proof.
  revert p. induction sched as [|t sched IH]; intros p; [done|].
  rewrite run_cons. etrans; [|apply IH].
  unfold step. destruct (p_status p); [|done..].
  destruct t as [|i]; [apply main_step_prints|].
  destruct (p_threads p !! i) as [r|] eqn:Hi.
  - rewrite (worker_step_eq drv i p r Hi). apply step_prints.
  - unfold worker_step. by rewrite Hi.
Qed.

Lemma run_before_main drv sched p :
  p_status p = Running -> p_threads p = [] -> Main ∉ sched -> run drv sched p = p.
Proof.
  intros Hrun Hnil. induction sched as [|t sched IH]; intros Hmain; [done|].
  rewrite run_cons. apply not_elem_of_cons in Hmain as [Ht Hmain].
  destruct t as [|i]; [done|].
  unfold step, worker_step. rewrite Hrun, Hnil, lookup_nil. by apply IH.
Qed.

(** X16. Nothing that was printed is taken back, and what [main] prints
    while it looks for devices comes before everything else. *)
Theorem output_only_grows drv sched sched' :
  w_out (p_world (run drv sched boot))
    `prefix_of` w_out (p_world (run drv (sched ++ sched') boot)) /\
  (Main ∈ sched -> (setup drv).1 `prefix_of` w_out (p_world (run drv sched boot))).
Proof.
  split; [rewrite run_app; apply run_prints|].
  intros (s1 & s2 & -> & Hfirst)%list_elem_of_split_l.
  rewrite run_app, run_cons, (run_before_main drv s1 boot) by done.
  etrans; [|apply run_prints].
  unfold step. change (p_status boot) with Running. cbv iota.
  unfold main_step. change (p_main boot) with MainSetup. cbv iota.
  destruct (setup drv) as [out [code|what|gpus]]; simpl; [done| |done].
  by apply prefix_app_r.
Qed.

(** *** A runtime that never fails *)

Lemma setup_error_None d :
  setup_error d = None ->
  setup_calls_succeed d /\ queue_err d = CL_SUCCESS.
Proof.
  unfold setup_error, setup_calls_succeed.
  repeat match goal with
    | |- context [check_cl_error ?e ?o] =>
        destruct (check_cl_error_cases e o) as [[-> ->]|[_ [? ->]]]
    end; try done.
Qed.

Lemma at_work_step d w r :
  always_accepts d -> at_work (r_pc r) = true -> at_work (r_pc (Runner.step d w r).2) = true.
Proof.
  intros [[Hsetup Hq]%setup_error_None Hloop].
  destruct Hsetup as (Hc & Hp & Hb & Hk & Hm & Ha0 & Ha1).
  unfold queue_err in Hq.
  unfold Runner.step, checked. destruct (r_pc r) eqn:Hpc; try done; intros _; cbv zeta;
    rewrite ?Hc, ?Hp, ?Hb, ?Hk, ?Hm, ?Ha0, ?Ha1, ?(proj1 (Hloop _)), ?(proj2 (Hloop _)),
      ?check_cl_error_success; try done.
  destruct (dd_createCommandQueueWithProperties d =? CL_SUCCESS); [done|].
  by rewrite Hq, check_cl_error_success.
Qed.

(** X17. With a device discovered and a runtime that accepts every
    call, the process never ends: under every schedule it is running,
    and every runner is in its setup or in its loop. *)
Theorem healthy_runtime_never_exits drv out gpus sched :
  setup drv = (out, Start gpus) ->
  (forall device, always_accepts (drv_device drv device)) ->
  let p := run drv sched boot in
  p_status p = Running /\
  Forall (fun r => at_work (r_pc r) = true) (p_threads p).
Proof.
  intros Hsetup Hhealthy p.
  assert (Hwork : Forall (fun r => at_work (r_pc r) = true) (p_threads p)).
  { apply threads_invariant_on; [done| |by apply Forall_nil].
    intros w r. by apply at_work_step. }
  split; [|done].
  destruct (p_status p) as [|code|] eqn:Hstatus; [done|..].
  - pose proof (exit_inv_run drv sched boot ltac:(done)) as Hinv. fold p in Hinv.
    unfold exit_inv in Hinv. destruct (p_main p) as [|gs k|k|] eqn:Hmain.
    + destruct Hinv as [_ Hrun]. congruence.
    + destruct Hinv as (_ & _ & Hne). by destruct (Hne code).
    + destruct Hinv as (_ & _ & Hne). by destruct (Hne code).
    + destruct Hinv as [(_ & _ & Hno)|(_ & Hret & out' & gpus' & Hsetup' & Hinv)].
      * by destruct (Hno out gpus).
      * unfold main_inv in Hinv. rewrite Hmain in Hinv. destruct Hinv as [Hmap _].
        rewrite firstn_all in Hmap.
        assert (gpus' <> []) by (by eapply setup_start_nonempty).
        destruct (p_threads p) as [|r rest]; [by destruct gpus'|].
        apply Forall_cons in Hret as [Hr _]. apply Forall_cons in Hwork as [Hw _].
        unfold returned in Hr. by rewrite Hr in Hw.
  - assert (Hboot : thrown_inv boot) by (left; split; [done|by apply Forall_nil]).
    pose proof (thrown_inv_run drv sched boot Hboot) as Hinv. fold p in Hinv.
    destruct Hinv as [[Hne _]|(_ & i & r & Hi & Hr & _)]; [done|].
    rewrite Forall_lookup in Hwork. specialize (Hwork i r Hi).
    by destruct (r_pc r).
Qed.

End InvariantFacts.

(** ** The enumeration *)

Module EnumerationFacts.
Import CL Proc RunnerFacts Enumeration.

Lemma found_in_substring needle s :
  needle <> EmptyString ->
  found_in needle s = true
  <-> exists m, String.substring m (String.length needle) s = needle.
Proof.
  intros Hne. unfold found_in.
  destruct (String.index 0 needle s) as [m|] eqn:Hindex.
  - split; [|done]. intros _. exists m. by eapply String.index_correct1.
  - split; [done|]. intros [m Hm].
    destruct (String.index_correct3 0 m needle s Hindex Hne ltac:(lia) Hm).
Qed.

(** X18. A vendor string is taken for Intel's exactly when it contains
    [Intel] or [intel]; no other spelling is accepted. *)
Theorem vendor_matches_substring vendor :
  vendor_matches vendor = true
  <-> exists m, String.substring m 5 vendor = "Intel" \/
                String.substring m 5 vendor = "intel".
Proof.
  unfold vendor_matches. rewrite orb_true_iff, !found_in_substring by done.
  simpl String.length. split.
  - intros [[m Hm]|[m Hm]]; eauto.
  - intros [m [Hm|Hm]]; eauto.
Qed.

Lemma enumerate_skip p rest found :
  vendor_matches (pd_vendor p) = false ->
  enumerate_platforms (p :: rest) found = enumerate_platforms rest found.
Proof. intros H. simpl. by rewrite H. Qed.

(** X19. Platforms of other vendors play no part in the enumeration,
    whatever their queries would answer. *)
Theorem other_vendors_ignored platforms found :
  enumerate_platforms platforms found
  = enumerate_platforms
      (List.filter (fun p => vendor_matches (pd_vendor p)) platforms) found.
Proof.
  revert found. induction platforms as [|p rest IH]; intros found; [done|].
  cbn [List.filter]. destruct (vendor_matches (pd_vendor p)) eqn:Hvendor.
  - cbn [enumerate_platforms]. rewrite Hvendor.
    repeat match goal with
      | |- context [if ?b then _ else _] => destruct b
      | |- context [check_cl_error ?e ?o] => destruct (check_cl_error e o)
      end; by rewrite ?IH.
  - by rewrite enumerate_skip.
Qed.

Lemma enumerate_step p rest found :
  list_fails p = false ->
  enumerate_platforms (p :: rest) found
  = (if warned p then say (count_warning p) else id)
      (enumerate_platforms rest (found ++ if usable p then gpus_of p else [])).
Proof.
  unfold list_fails, usable, warned, gpus_of. cbn [enumerate_platforms].
  destruct (vendor_matches (pd_vendor p)); simpl; [|by rewrite app_nil_r].
  destruct (Z.eqb_spec (pd_deviceCount_err p) CL_DEVICE_NOT_FOUND) as [Hnf|Hnf].
  { rewrite Hnf. simpl. by rewrite app_nil_r. }
  destruct (Z.eqb_spec (pd_deviceCount_err p) CL_SUCCESS) as [Hok|Hok]; simpl;
    [|by rewrite app_nil_r].
  destruct (pd_devices p) as [|dev devs] eqn:Hdevs; simpl; [by rewrite app_nil_r|].
  destruct (Z.eqb_spec (pd_deviceList_err p) CL_SUCCESS) as [Hlist|Hlist]; [|done].
  intros _. by rewrite Hlist, check_cl_error_success.
Qed.

Lemma enumerate_throw p rest found :
  list_fails p = true ->
  enumerate_platforms (p :: rest) found
  = ([], Throw ("clGetDeviceIDs (list) failed with error code "
                +:+ pretty (pd_deviceList_err p))).
Proof.
  unfold list_fails, usable. cbn [enumerate_platforms].
  intros [[[Hvendor Hcount%Z.eqb_eq]%andb_true_iff Hdevs]%andb_true_iff
          Hlist%negb_true_iff%Z.eqb_neq]%andb_true_iff.
  rewrite Hvendor, Hcount, Hdevs. simpl.
  by rewrite check_cl_error_failure.
Qed.

(** X20. What the enumeration returns.  When no reached listing of
    devices fails: one warning for each platform of the vendor whose
    count failed other than by [CL_DEVICE_NOT_FOUND], in order, and the
    devices of the platforms of the vendor whose count succeeded, in
    order, after those found before.  Otherwise the warnings before the
    first listing that fails, and its error. *)
Theorem enumeration_result platforms found :
  (Forall (fun p => list_fails p = false) platforms ->
   enumerate_platforms platforms found
   = (map count_warning (List.filter warned platforms),
      Ok (found ++ flat_map gpus_of (List.filter usable platforms)))) /\
  (forall before p after,
     platforms = before ++ p :: after ->
     Forall (fun p => list_fails p = false) before -> list_fails p = true ->
     enumerate_platforms platforms found
     = (map count_warning (List.filter warned before),
        Throw ("clGetDeviceIDs (list) failed with error code "
               +:+ pretty (pd_deviceList_err p)))).
Proof.
  split.
  - intros Hok. revert found.
    induction Hok as [|p rest Hp _ IH]; intros found.
    + simpl. by rewrite app_nil_r.
    + rewrite enumerate_step, IH by done. cbn [List.filter].
      destruct (warned p), (usable p); cbn [flat_map map say fst snd id];
        by rewrite <- ?app_assoc, ?app_nil_r.
  - intros before p after -> Hok Hp. revert found.
    induction Hok as [|q rest Hq _ IH]; intros found.
    + by apply enumerate_throw.
    + cbn [app]. rewrite enumerate_step, IH by done. cbn [List.filter].
      by destruct (warned q).
Qed.

End EnumerationFacts.


(** * Instances *)

Module Instances.
Import F32 Kernel Host CL Runner Proc Examples.
Import KernelFacts HostFacts RunnerFacts ProcFacts.

Lemma kernel_output_finite_witness :
  is_finite (kernel_value sin0 cos0 inner_iterations 5 c0_1) = true /\
  is_nan (kernel_value sin0 cos0 inner_iterations 5 c0_1) = false /\
  is_infinite (kernel_value sin0 cos0 inner_iterations 5 c0_1) = false /\
  valid (kernel_value sin0 cos0 inner_iterations 5 c0_1) = true.
Proof.
  assert (Hsin : forall x, is_finite x = true -> valid x = true ->
                           valid (sin0 x) = true /\ abs_le_one (sin0 x) = true).
  { intros x _ _. split; vm_compute; reflexivity. }
  assert (Hcos : forall x, is_finite x = true -> valid x = true ->
                           valid (cos0 x) = true /\ abs_le_one (cos0 x) = true).
  { intros x _ _. split; vm_compute; reflexivity. }
  assert (Hid : - 2 ^ 31 <= 5 < 2 ^ 31) by (split; vm_compute; [discriminate|reflexivity]).
  assert (Hvalid : valid c0_1 = true) by (vm_compute; reflexivity).
  exact (proj1 (KernelBounds.kernel_output_finite sin0 cos0 Hsin Hcos) 5 c0_1 Hid eq_refl Hvalid).
Defined.

Lemma kernel_deterministic_witness :
  dispatch_n sin0 cos0 3 [c0_1; one; c0_01] 3 [2; 0; 1]
  = dispatch_n sin0 cos0 3 [c0_1; one; c0_01] 3 [0; 1; 2].
Proof.
  apply (proj2 (kernel_deterministic sin0 cos0 3 [c0_1; one; c0_01] 3)).
  apply (Permutation_cons_append [0; 1] 2).
Defined.

Lemma load_kernel_writes_own_element_witness :
  load_kernel sin0 cos0 [c0_1; one] 2 2 = Some [c0_1; one] /\
  load_kernel sin0 cos0 [c0_1; one] 2 1
  = Some [c0_1; kernel_value sin0 cos0 inner_iterations 1 one].
Proof.
  pose proof (load_kernel_writes_own_element sin0 cos0 [c0_1; one] 2 2) as (Hguard & _).
  pose proof (load_kernel_writes_own_element sin0 cos0 [c0_1; one] 2 1) as (_ & _ & Hown & _).
  split.
  - apply Hguard. lia.
  - apply (Hown one); [lia|reflexivity].
Defined.

Lemma host_data_seeded_witness :
  host_data !! Z.to_nat 123 = Some (S754_finite false 12111053 (-19)).
Proof.
  apply (proj2 (proj2 (host_data_seeded 123))). unfold dataSizeElements. lia.
Defined.

Lemma build_failure_terminates_process_witness :
  (exists r1, p_threads before_build !! 1%nat = Some r1 /\
              r_pc r1 = PcEnqueue /\ r_enqueued r1 = 1%nat) /\
  p_status before_build = Running /\
  p_status (step two_gpus_one_broken before_build (Worker 0)) = Terminated /\
  forall sched,
    run two_gpus_one_broken sched (step two_gpus_one_broken before_build (Worker 0))
    = step two_gpus_one_broken before_build (Worker 0).
Proof.
  split; [eexists; split; [vm_compute; reflexivity|split; vm_compute; reflexivity]|].
  split; [vm_compute; reflexivity|].
  assert (Hi : exists r, p_threads before_build !! 0%nat = Some r /\ r_pc r = PcBuild /\
     dd_buildProgram (drv_device two_gpus_one_broken (r_device r)) <> CL_SUCCESS).
  { eexists. split; [vm_compute; reflexivity|]. split; [vm_compute; reflexivity|].
    vm_compute. discriminate. }
  destruct Hi as (r & Hi & Hpc & Herr).
  assert (Hrun : p_status before_build = Running) by (vm_compute; reflexivity).
  exact (proj2 (proj2 (build_failure_terminates_process two_gpus_one_broken
                          before_build 0 r Hrun Hi Hpc Herr))).
Defined.


Lemma queue_fallback_proceeds_witness :
  r_pc (steps legacy_queue 10 (p_world boot) (spawn 7%nat 0%nat 0)).2 = PcEnqueue /\
  (steps legacy_queue 10 (p_world boot) (spawn 7%nat 0%nat 0)).2
  = (steps (with_modern_queue legacy_queue) 10 (p_world boot) (spawn 7%nat 0%nat 0)).2.
Proof.
  assert (Hmodern : dd_createCommandQueueWithProperties legacy_queue <> CL_SUCCESS)
    by (vm_compute; discriminate).
  assert (Hcalls : setup_calls_succeed legacy_queue) by (repeat split).
  pose proof (queue_fallback_proceeds legacy_queue Hmodern eq_refl) as (_ & Hsame & Hloop & _).
  split.
  - rewrite (proj1 (Hloop Hcalls 7%nat 0%nat 0 (p_world boot))). reflexivity.
  - apply Hsame.
Defined.


Lemma runners_of_discovered_devices_witness :
  setup two_gpus_one_broken = ([found_line 2], Start [(7, 0); (7, 1)]%nat) /\
  forall rest,
    let q := run two_gpus_one_broken (Worker 0 :: rest)
               (run two_gpus_one_broken Scenarios.early_build boot) in
    p_status q = Terminated /\ p_main q = MainSpawn [(7, 0); (7, 1)]%nat 1 /\
    started [(7, 0); (7, 1)]%nat 1 (p_threads q) /\
    (length (p_threads q) < length [(7, 0); (7, 1)]%nat)%nat.
Proof.
  assert (Hsetup : setup two_gpus_one_broken
                   = ([found_line 2], Start [(7, 0); (7, 1)]%nat))
    by (vm_compute; reflexivity).
  split; [exact Hsetup|].
  assert (Hi : exists r,
     p_threads (run two_gpus_one_broken Scenarios.early_build boot) !! 0%nat = Some r /\
     is_thrown (r_pc (Runner.step (drv_device two_gpus_one_broken (r_device r))
                        (p_world (run two_gpus_one_broken Scenarios.early_build boot)) r).2)
     = true).
  { eexists. split; vm_compute; reflexivity. }
  destruct Hi as (r & Hi & Hthrown).
  assert (Hrun : p_status (run two_gpus_one_broken Scenarios.early_build boot) = Running)
    by (vm_compute; reflexivity).
  assert (Hmain : p_main (run two_gpus_one_broken Scenarios.early_build boot)
                  = MainSpawn [(7, 0); (7, 1)]%nat 1)
    by (vm_compute; reflexivity).
  assert (Hk : (1 < length [(7, 0); (7, 1)]%nat)%nat) by (vm_compute; lia).
  exact (proj2 (proj2 (proj2 (proj2 (runners_of_discovered_devices two_gpus_one_broken
           Scenarios.early_build _ _ Hsetup)))) 1%nat 0%nat r Hrun Hmain Hk Hi Hthrown).
Defined.

(** C9 as the specification has it fails on the query that lists the
    devices of a platform: its failure is not logged as a skipped
    platform, it ends [main] with status 1, and the GPU of the next
    platform is never used. *)
Lemma device_list_failure_is_fatal :
  (exists p rest,
     drv_platforms list_query_fails = p :: rest /\
     vendor_matches (pd_vendor p) = true /\
     pd_deviceCount_err p = CL_SUCCESS /\
     pd_deviceList_err p <> CL_SUCCESS /\
     enumerate_platforms rest [] = ([], Ok [(8, 1)]%nat)) /\
  enumerate_platforms (drv_platforms list_query_fails) []
  = ([], Throw "clGetDeviceIDs (list) failed with error code -5") /\
  run list_query_fails [Main] boot
  = {| p_main := MainReturned; p_threads := [];
       p_world :=
         {| w_out := [(Cerr, "OpenCL Runtime Error: clGetDeviceIDs (list) failed with error code -5")];
            w_next := 1%nat |};
       p_status := Exited 1 |}.
Proof.
  split; [|split; vm_compute; reflexivity].
  eexists _, _. split; [reflexivity|]. split; [vm_compute; reflexivity|].
  split; [reflexivity|].
  split; [vm_compute; discriminate|vm_compute; reflexivity].
Defined.

Lemma enumeration_failures_witness :
  enumerate_platforms (drv_platforms count_query_fails) []
  = ([(Cerr, "Warning: clGetDeviceIDs (count) for platform Intel(R) Corporation returned -6")],
     Ok [(8, 1)]%nat) /\
  p_status (step list_query_fails boot Main) = Exited 1.
Proof.
  pose proof enumeration_failures as (_ & Hplatform & Hfatal).
  split.
  - assert (Hcount : pd_deviceCount_err failing_count <> CL_SUCCESS)
      by (vm_compute; discriminate).
    assert (Hvendor : vendor_matches (pd_vendor failing_count) = true)
      by (vm_compute; reflexivity).
    change (drv_platforms count_query_fails)
      with [failing_count; intel 8%nat [1%nat]].
    rewrite (proj1 (Hplatform failing_count [intel 8%nat [1%nat]] [] Hvendor) Hcount).
    vm_compute. reflexivity.
  - assert (Hsome : drv_platforms list_query_fails <> []) by (vm_compute; discriminate).
    assert (Henum : enumerate_platforms (drv_platforms list_query_fails) []
              = ([], Throw "clGetDeviceIDs (list) failed with error code -5"))
      by (vm_compute; reflexivity).
    rewrite (Hfatal list_query_fails [] _ eq_refl Hsome eq_refl Henum). reflexivity.
Defined.
End Instances.

(** ** The further properties on concrete runs *)

Module Runs.
Import F32 Kernel Host CL Runner Proc Examples.
Import Device Lifecycle Enumeration Scenarios.
Import DispatchFacts LoopFacts SeedFacts LifecycleFacts InvariantFacts EnumerationFacts.
Import Order KernelMagnitude BufferBounds Casts NonFinite.

Lemma dispatch_in_bounds_witness :
  (exists out, dispatch_n sin0 cos0 3 [c0_1; one] 2 [5; 0; 1] = Some out /\
               length out = length [c0_1; one]) /\
  dispatch_n sin0 cos0 3 [c0_1; one] 3 [2; 0] = None.
Proof.
  pose proof (dispatch_in_bounds sin0 cos0 3 [c0_1; one] 2) as [Hin _].
  pose proof (dispatch_in_bounds sin0 cos0 3 [c0_1; one] 3) as [_ Hout].
  split.
  - apply Hin; [simpl; lia|]. repeat constructor; lia.
  - apply Hout; [lia|]. right. simpl. lia.
Defined.

Lemma dispatch_pointwise_witness :
  length [kernel_value sin0 cos0 3 0 c0_1; kernel_value sin0 cos0 3 1 one; c0_01]
  = length [c0_1; one; c0_01] /\
  forall (j : nat) val, [c0_1; one; c0_01] !! j = Some val ->
    [kernel_value sin0 cos0 3 0 c0_1; kernel_value sin0 cos0 3 1 one; c0_01] !! j
    = Some (if decide (Z.of_nat j ∈ [1; 0; 2] /\ Z.of_nat j < 2)
            then kernel_value sin0 cos0 3 (Z.of_nat j) val else val).
Proof.
  apply (dispatch_pointwise sin0 cos0 3 2 [1; 0; 2] [c0_1; one; c0_01]).
  - apply (bool_decide_unpack _). vm_compute. reflexivity.
  - vm_compute. reflexivity.
Defined.

Lemma loop_keeps_buffer_finite_witness :
  exists out,
    loop_buffer sin0 cos0 3 [[2; 0; 1]; [0; 1; 2]] (host_data_n 3) = Some out /\
    length out = Z.to_nat 3 /\
    Forall (fun val => is_finite val = true /\ valid val = true) out.
Proof.
  assert (Hsin : forall x, is_finite x = true -> valid x = true ->
                           valid (sin0 x) = true /\ abs_le_one (sin0 x) = true).
  { intros x _ _. split; vm_compute; reflexivity. }
  assert (Hcos : forall x, is_finite x = true -> valid x = true ->
                           valid (cos0 x) = true /\ abs_le_one (cos0 x) = true).
  { intros x _ _. split; vm_compute; reflexivity. }
  apply (loop_keeps_buffer_finite sin0 cos0 Hsin Hcos 3).
  - split; vm_compute; [discriminate|reflexivity].
  - repeat constructor. apply (Permutation_cons_append [0; 1] 2).
Defined.

Lemma setup_outcome_witness :
  r_pc (steps broken_build 12 (p_world boot) (spawn 7%nat 0%nat 0)).2
  = PcThrown "clBuildProgram failed with error code -11".
Proof.
  pose proof (setup_outcome broken_build 7%nat 0%nat 0 (p_world boot)) as H.
  assert (Herr : setup_error broken_build
                 = Some "clBuildProgram failed with error code -11")
    by (vm_compute; reflexivity).
  cbv zeta in H. rewrite Herr in H.
  apply (proj2 (proj2 (H 12%nat))). lia.
Defined.


Lemma one_dispatch_in_flight_witness :
  (r_enqueued waiting_runner = r_finished waiting_runner \/
   r_enqueued waiting_runner = S (r_finished waiting_runner)) /\
  (r_pc waiting_runner = PcEnqueue ->
   r_enqueued waiting_runner = r_finished waiting_runner) /\
  (r_pc waiting_runner = PcFinish ->
   r_enqueued waiting_runner = S (r_finished waiting_runner)) /\
  (past_setup (r_pc waiting_runner) = false ->
   r_enqueued waiting_runner = 0%nat /\ r_finished waiting_runner = 0%nat).
Proof.
  apply (one_dispatch_in_flight one_gpu second_wait 0 waiting_runner).
  vm_compute. reflexivity.
Defined.

Lemma runner_objects_witness :
  NoDup (handles waiting_runner) /\
  (forall n, created (r_pc waiting_runner) = Some n -> holds_first n waiting_runner) /\
  (past_setup (r_pc waiting_runner) = true ->
   exists context queue program kernel buffer,
     r_context waiting_runner = Some context /\ r_queue waiting_runner = Some queue /\
     r_program waiting_runner = Some program /\ r_kernel waiting_runner = Some kernel /\
     r_buffer waiting_runner = Some buffer /\
     NoDup [context; queue; program; kernel; buffer]).
Proof.
  apply (runner_objects one_gpu second_wait 0 waiting_runner).
  vm_compute. reflexivity.
Defined.

Lemma exit_status_witness :
  (0 = 1 /\ p_threads (run one_gpu_failing_sync to_the_end boot) = [] /\
   forall out gpus, setup one_gpu_failing_sync <> (out, Start gpus)) \/
  (0 = 0 /\
   Forall (fun r => r_pc r = PcReturned)
     (p_threads (run one_gpu_failing_sync to_the_end boot)) /\
   exists out gpus, setup one_gpu_failing_sync = (out, Start gpus) /\
     map target (p_threads (run one_gpu_failing_sync to_the_end boot)) = gpus /\
     gpus <> []).
Proof.
  apply (exit_status one_gpu_failing_sync to_the_end 0).
  vm_compute. reflexivity.
Defined.

Lemma terminated_iff_thrown_witness :
  p_status (run two_gpus_one_broken build_fails boot) = Terminated
  <-> exists i r,
        p_threads (run two_gpus_one_broken build_fails boot) !! i = Some r /\
        is_thrown (r_pc r) = true.
Proof. exact (proj1 (terminated_iff_thrown two_gpus_one_broken build_fails)). Defined.

Lemma join_waits_for_every_thread_witness :
  step one_gpu (run one_gpu second_wait boot) Main = run one_gpu second_wait boot.
Proof.
  assert (Hrun : p_status (run one_gpu second_wait boot) = Running)
    by (vm_compute; reflexivity).
  assert (Hmain : p_main (run one_gpu second_wait boot) = MainJoin 0)
    by (vm_compute; reflexivity).
  apply (proj1 (join_waits_for_every_thread one_gpu _ 0 Hrun Hmain) waiting_runner).
  - vm_compute. reflexivity.
  - discriminate.
Defined.

Lemma output_only_grows_witness :
  (setup one_gpu).1 `prefix_of` w_out (p_world (run one_gpu second_wait boot)).
Proof.
  apply (proj2 (output_only_grows one_gpu second_wait [])).
  apply list_elem_of_here.
Defined.

Lemma vendor_matches_substring_witness :
  vendor_matches "Intel(R) Corporation" = true
  <-> exists m, String.substring m 5 "Intel(R) Corporation" = "Intel" \/
                String.substring m 5 "Intel(R) Corporation" = "intel".
Proof. exact (vendor_matches_substring "Intel(R) Corporation"). Defined.

Lemma other_vendors_ignored_witness :
  enumerate_platforms three_platforms []
  = enumerate_platforms [failing_count; intel 8%nat [1; 2]%nat] [].
Proof. exact (other_vendors_ignored three_platforms []). Defined.

Lemma enumeration_result_witness :
  enumerate_platforms three_platforms []
  = ([count_warning failing_count], Ok [(8, 1); (8, 2)]%nat) /\
  enumerate_platforms (drv_platforms list_query_fails) []
  = ([], Throw "clGetDeviceIDs (list) failed with error code -5").
Proof.
  split.
  - apply (proj1 (enumeration_result three_platforms [])).
    repeat constructor.
  - apply (proj2 (enumeration_result (drv_platforms list_query_fails) [])
             [] failing_list [intel 8%nat [1%nat]]); [reflexivity|constructor|reflexivity].
Defined.

Lemma kernel_output_at_most_1_witness :
  abs_le_one (kernel_value sin0 cos0 inner_iterations 5 (of_Z 1000000)) = true.
Proof.
  assert (Hsin : forall x, is_finite x = true -> valid x = true ->
                           valid (sin0 x) = true /\ abs_le_one (sin0 x) = true).
  { intros x _ _. split; vm_compute; reflexivity. }
  assert (Hcos : forall x, is_finite x = true -> valid x = true ->
                           valid (cos0 x) = true /\ abs_le_one (cos0 x) = true).
  { intros x _ _. split; vm_compute; reflexivity. }
  assert (Hiters : 0 < inner_iterations <= 2 ^ 31)
    by (split; vm_compute; [reflexivity|discriminate]).
  assert (Hid : - 2 ^ 31 <= 5 < 2 ^ 31) by (split; vm_compute; [discriminate|reflexivity]).
  assert (Hfin : is_finite (of_Z 1000000) = true) by (vm_compute; reflexivity).
  assert (Hvalid : valid (of_Z 1000000) = true) by (vm_compute; reflexivity).
  exact (kernel_output_at_most_1 sin0 cos0 Hsin Hcos inner_iterations 5 (of_Z 1000000)
           Hiters Hid Hfin Hvalid).
Defined.

Lemma casts_are_exact_witness :
  int_value (of_Z 8388607) = Some 8388607.
Proof.
  apply (proj1 casts_are_exact 8388607). vm_compute. discriminate.
Defined.

Lemma non_finite_input_gives_nan_witness :
  kernel_value sin0 cos0 inner_iterations 5 (S754_infinity false) = S754_nan.
Proof.
  assert (Hsin : forall x, is_finite x = true -> valid x = true ->
                           valid (sin0 x) = true /\ abs_le_one (sin0 x) = true).
  { intros x _ _. split; vm_compute; reflexivity. }
  assert (Hcos : forall x, is_finite x = true -> valid x = true ->
                           valid (cos0 x) = true /\ abs_le_one (cos0 x) = true).
  { intros x _ _. split; vm_compute; reflexivity. }
  assert (Hiters : 0 < inner_iterations <= 2 ^ 31)
    by (split; vm_compute; [reflexivity|discriminate]).
  assert (Hid : - 2 ^ 31 <= 5 < 2 ^ 31) by (split; vm_compute; [discriminate|reflexivity]).
  exact (non_finite_input_gives_nan sin0 cos0 Hsin Hcos inner_iterations 5
           (S754_infinity false) Hiters Hid eq_refl).
Defined.

Lemma host_data_values_witness :
  host_data_n 300 !! Z.to_nat (7 + 100) = host_data_n 300 !! Z.to_nat 7.
Proof. apply (proj2 (host_data_values 300) 7); lia. Defined.

Lemma healthy_runtime_never_exits_witness :
  p_status (run one_gpu second_wait boot) = Running /\
  Forall (fun r => at_work (r_pc r) = true) (p_threads (run one_gpu second_wait boot)).
Proof.
  assert (Hsetup : setup one_gpu = ([found_line 1], Start [(7, 0)]%nat))
    by (vm_compute; reflexivity).
  assert (Hhealthy : forall device, always_accepts (drv_device one_gpu device)).
  { intros device. split; [vm_compute; reflexivity|]. intros k. split; reflexivity. }
  exact (healthy_runtime_never_exits one_gpu _ _ second_wait Hsetup Hhealthy).
Defined.

Lemma loop_bounds_buffer_witness :
  Forall (fun val => abs_le_one val = true)
    (default [] (loop_buffer sin0 cos0 3 [[2; 0; 1]] (host_data_n 3))).
Proof.
  assert (Hsin : forall x, is_finite x = true -> valid x = true ->
                           valid (sin0 x) = true /\ abs_le_one (sin0 x) = true).
  { intros x _ _. split; vm_compute; reflexivity. }
  assert (Hcos : forall x, is_finite x = true -> valid x = true ->
                           valid (cos0 x) = true /\ abs_le_one (cos0 x) = true).
  { intros x _ _. split; vm_compute; reflexivity. }
  apply (loop_bounds_buffer sin0 cos0 Hsin Hcos 3 [[2; 0; 1]]).
  - split; vm_compute; [discriminate|reflexivity].
  - discriminate.
  - repeat constructor. apply (Permutation_cons_append [0; 1] 2).
  - vm_compute. reflexivity.
Defined.

End Runs.
